(** * HamGNN / openmx_postprocess: the long-range (Vlr) Hamiltonian term

    A shallow embedding of the three routines of [openmx.c] that build the
    long-range contribution:

    - [Calc_Vlr]                   : reciprocal-space coefficients of the
                                     screened Coulomb potential;
    - [Data_Grid_Copy_B2C_XiwenLi] : redistribution of a grid field from
                                     partition B to partition C over MPI;
    - [Calc_MatrixElements_Vlr] / [Set_Hlr] : the quadrature that fills the
                                     matrix blocks [Hlr];

    and of the other routines of the file:

    - [Set_initial_Hamiltonian]    : the blocks of [H] from [H0], [HNL] and
                                     the optional terms;
    - [Print_CubeCData_MO]         : the values of a grid field in a cube
                                     file;
    - [Allocate4D_double], [Allocate3D_double], [Free3D_double] : tables of
                                     pointers into one block of doubles.

    Conventions.  A C [int] is an integer of [Z] (where the code subtracts or
    divides) or a natural number (where it only counts or indexes); overflow
    of [int] is outside the model.  A C [double] is read as a real number of
    [R]: rounding is not modelled.  A C array is a total function from its
    indices to its cells, and an assignment to a cell is a functional update;
    the contents of freshly allocated memory are an arbitrary such function. *)

From Stdlib Require Import Reals ZArith List Lia Lra Bool Arith Permutation.
From Stdlib Require String.
Import ListNotations.

(** ** Loops *)

Module Loops.

(** [for (x = lo; x < lo+n; x++) s = body x s] is [for_each (seq lo n) body s]. *)
Definition for_each {St : Type} (l : list nat) (body : nat -> St -> St) (s : St) : St :=
  fold_left (fun st x => body x st) l s.

(** The same loop when the body can fault: the first fault ends the run. *)
Fixpoint for_each_opt {St : Type} (l : list nat) (body : nat -> St -> option St)
  (s : St) : option St :=
  match l with
  | [] => Some s
  | x :: l' =>
      match body x s with
      | Some s' => for_each_opt l' body s'
      | None => None
      end
  end.

Lemma for_each_nil {St : Type} (body : nat -> St -> St) (s : St) :
  for_each [] body s = s.
Proof. reflexivity. Qed.

Lemma for_each_cons {St : Type} x l (body : nat -> St -> St) (s : St) :
  for_each (x :: l) body s = for_each l body (body x s).
Proof. reflexivity. Qed.

Lemma for_each_app {St : Type} l1 l2 (body : nat -> St -> St) (s : St) :
  for_each (l1 ++ l2) body s = for_each l2 body (for_each l1 body s).
Proof. unfold for_each. apply fold_left_app. Qed.

Lemma for_each_snoc {St : Type} lo n (body : nat -> St -> St) (s : St) :
  for_each (seq lo (S n)) body s = body (lo + n) (for_each (seq lo n) body s).
Proof. rewrite seq_S, for_each_app. reflexivity. Qed.

(** A loop whose body never faults runs to its end. *)
Lemma for_each_opt_total {St : Type} (body : nat -> St -> option St)
  (g : nat -> St -> St) :
  (forall x s, body x s = Some (g x s)) ->
  forall l s, for_each_opt l body s = Some (for_each l g s).
Proof.
  intros Hb l. induction l as [|x l IH]; intros s; simpl.
  - reflexivity.
  - rewrite Hb. apply IH.
Qed.

(** A property kept by the body is kept by the loop. *)
Lemma for_each_invariant {St : Type} (P : St -> Prop) l
  (body : nat -> St -> St) (s : St) :
  P s -> (forall x s, P s -> P (body x s)) -> P (for_each l body s).
Proof.
  intros Hs Hbody. revert s Hs.
  induction l as [|x l IH]; intros s Hs; [exact Hs|].
  rewrite for_each_cons. apply IH. apply Hbody. exact Hs.
Qed.

(** A loop over the indices of a list of values. *)
Lemma for_each_map {St A : Type} (f : nat -> A) (body : A -> St -> St) l (s : St) :
  for_each l (fun n st => body (f n) st) s
  = fold_left (fun st x => body x st) (map f l) s.
Proof.
  revert s. induction l as [|x l IH]; intros s; [reflexivity|].
  rewrite for_each_cons, IH. reflexivity.
Qed.

(** Two nested loops as one loop over the pairs of indices. *)
Lemma for_each_nested {St : Type} (len : nat -> nat)
  (body : nat -> nat -> St -> St) l (s : St) :
  for_each l (fun x st => for_each (seq 0 (len x)) (body x) st) s
  = fold_left (fun st p => body (fst p) (snd p) st)
      (flat_map (fun x => map (pair x) (seq 0 (len x))) l) s.
Proof.
  revert s. induction l as [|x l IH]; intros s; [reflexivity|].
  rewrite for_each_cons, IH. cbn [flat_map]. rewrite fold_left_app.
  f_equal. apply (for_each_map (pair x) (fun p st => body (fst p) (snd p) st)).
Qed.

End Loops.

(** ** Calc_Vlr: coefficients of the long-range potential in reciprocal space *)

Module Solver.
Import Loops.
Local Open Scope R_scope.

(** The division [x / y] of two doubles, as an operation that faults on a
    zero divisor. *)
Definition ddiv (x y : R) : option R :=
  if Req_dec_T y 0 then None else Some (x / y).

(** [A[p][b] = v] for the two coefficient arrays, written together. *)
Definition coefs : Type := (nat -> nat -> R) * (nat -> nat -> R).

Definition set_coef (A : coefs) (p b : nat) (v : R * R) : coefs :=
  (fun p' b' => if (p' =? p)%nat && (b' =? b)%nat then fst v else fst A p' b',
   fun p' b' => if (p' =? p)%nat && (b' =? b)%nat then snd v else snd A p' b').

Section Calc_Vlr.

(** Globals of the run. *)
Variables Ngrid1 Ngrid2 Ngrid3 : Z.
Variables numprocs myid : Z.
Variables Matomnum MatomnumF MatomnumS : nat.
Variable My_NumGridB_CB : nat.
Variable Cell_Volume : R.
Variable rtv : nat -> nat -> R.
Variable Gxyz : nat -> nat -> R.

Definition sigma : R := 1.

Definition tmp0 : R := 4 * PI / Cell_Volume.

Definition N2D : Z := (Ngrid3 * Ngrid2)%Z.

Definition GNs : Z := (Z.quot (myid * N2D + numprocs - 1) numprocs * Ngrid1)%Z.

Definition GN_of (BN_CB : nat) : Z := (Z.of_nat BN_CB + GNs)%Z.

Definition k3_of (GN : Z) : Z := Z.quot GN (Ngrid2 * Ngrid1).

Definition k2_of (GN : Z) : Z :=
  Z.quot (GN - k3_of GN * Ngrid2 * Ngrid1) Ngrid1.

Definition k1_of (GN : Z) : Z :=
  (GN - k3_of GN * Ngrid2 * Ngrid1 - k2_of GN * Ngrid1)%Z.

(** [if (k<N/2) sk = (double)k; else sk = (double)(k - N);] *)
Definition sk_of (k N : Z) : R :=
  if (k <? Z.quot N 2)%Z then IZR k else IZR (k - N).

Definition Gx_of (GN : Z) : R :=
  sk_of (k1_of GN) Ngrid1 * rtv 1 1 + sk_of (k2_of GN) Ngrid2 * rtv 2 1
  + sk_of (k3_of GN) Ngrid3 * rtv 3 1.

Definition Gy_of (GN : Z) : R :=
  sk_of (k1_of GN) Ngrid1 * rtv 1 2 + sk_of (k2_of GN) Ngrid2 * rtv 2 2
  + sk_of (k3_of GN) Ngrid3 * rtv 3 2.

Definition Gz_of (GN : Z) : R :=
  sk_of (k1_of GN) Ngrid1 * rtv 1 3 + sk_of (k2_of GN) Ngrid2 * rtv 2 3
  + sk_of (k3_of GN) Ngrid3 * rtv 3 3.

Definition KK_of (GN : Z) : R :=
  Gx_of GN * Gx_of GN + Gy_of GN * Gy_of GN + Gz_of GN * Gz_of GN.

(** The body of the loop over [BN_CB]: the pair written to
    [ReVlrk[idx_P][BN_CB]] and [ImVlrk[idx_P][BN_CB]]. *)
Definition Vlrk_point (idx_P BN_CB : nat) : option (R * R) :=
  let GN := GN_of BN_CB in
  let Gx := Gx_of GN in
  let Gy := Gy_of GN in
  let Gz := Gz_of GN in
  let KK := KK_of GN in
  let thx := - Gx * Gxyz idx_P 1 in
  let thy := - Gy * Gxyz idx_P 2 in
  let thz := - Gz * Gxyz idx_P 3 in
  if Rlt_dec 0 KK then
    match ddiv tmp0 KK, ddiv (- tmp0) KK with
    | Some q_re, Some q_im =>
        Some (q_re * exp (- sigma * sigma * KK / 2) * cos (thx + thy + thz),
              q_im * exp (- sigma * sigma * KK / 2) * sin (thx + thy + thz))
    | _, _ => None
    end
  else Some (0, 0).

(** The two nested loops that set [ReVlrk] and [ImVlrk]. *)
Definition Vlrk_row (idx_P : nat) (A : coefs) : option coefs :=
  for_each_opt (seq 0 My_NumGridB_CB)
    (fun BN_CB A =>
       match Vlrk_point idx_P BN_CB with
       | Some v => Some (set_coef A idx_P BN_CB v)
       | None => None
       end) A.

Definition Vlrk_fill (A : coefs) : option coefs :=
  for_each_opt (seq 1 (Matomnum + MatomnumF + MatomnumS + 1)) Vlrk_row A.

(** The phase angle [G.r] of source [idx_P] at the grid point. *)
Definition Gdotr (idx_P : nat) (GN : Z) : R :=
  Gx_of GN * Gxyz idx_P 1 + Gy_of GN * Gxyz idx_P 2 + Gz_of GN * Gxyz idx_P 3.

(** The value the loop body computes, as a total function. *)
Definition Vlrk_value (idx_P BN_CB : nat) : R * R :=
  let KK := KK_of (GN_of BN_CB) in
  if Rlt_dec 0 KK then
    (tmp0 / KK * exp (- sigma * sigma * KK / 2)
       * cos (- Gx_of (GN_of BN_CB) * Gxyz idx_P 1
              + - Gy_of (GN_of BN_CB) * Gxyz idx_P 2
              + - Gz_of (GN_of BN_CB) * Gxyz idx_P 3),
     - tmp0 / KK * exp (- sigma * sigma * KK / 2)
       * sin (- Gx_of (GN_of BN_CB) * Gxyz idx_P 1
              + - Gy_of (GN_of BN_CB) * Gxyz idx_P 2
              + - Gz_of (GN_of BN_CB) * Gxyz idx_P 3))
  else (0, 0).

Lemma Vlrk_point_total idx_P BN_CB :
  Vlrk_point idx_P BN_CB = Some (Vlrk_value idx_P BN_CB).
Proof.
  unfold Vlrk_point, Vlrk_value, ddiv.
  destruct (Rlt_dec 0 (KK_of (GN_of BN_CB))) as [Hpos|Hnpos]; [|reflexivity].
  destruct (Req_dec_T (KK_of (GN_of BN_CB)) 0) as [Hz|Hnz]; [lra|reflexivity].
Qed.

(** The loops never fault; what they compute is the pure double loop. *)
Definition Vlrk_row_pure (idx_P : nat) (A : coefs) : coefs :=
for_each (seq 0 My_NumGridB_CB)
  (fun BN_CB A => set_coef A idx_P BN_CB (Vlrk_value idx_P BN_CB)) A.

Lemma Vlrk_row_total idx_P A :
  Vlrk_row idx_P A = Some (Vlrk_row_pure idx_P A).
Proof.
  unfold Vlrk_row, Vlrk_row_pure.
  apply for_each_opt_total. intros b s.
  rewrite Vlrk_point_total. reflexivity.
Qed.

Lemma Vlrk_fill_total A :
  Vlrk_fill A =
  Some (for_each (seq 1 (Matomnum + MatomnumF + MatomnumS + 1)) Vlrk_row_pure A).
Proof.
  unfold Vlrk_fill. apply for_each_opt_total. intros p s. apply Vlrk_row_total.
Qed.

Lemma row_loop_cells (F : nat -> R * R) p n A p' b' :
  let A' := for_each (seq 0 n) (fun b A => set_coef A p b (F b)) A in
  fst A' p' b' =
    (if (p' =? p)%nat && (b' <? n)%nat then fst (F b') else fst A p' b') /\
  snd A' p' b' =
    (if (p' =? p)%nat && (b' <? n)%nat then snd (F b') else snd A p' b').
Proof.
  induction n as [|n IH]; cbv zeta in *.
  - rewrite for_each_nil.
    replace (b' <? 0)%nat with false by (symmetry; apply Nat.ltb_ge; lia).
    rewrite andb_false_r. split; reflexivity.
  - rewrite for_each_snoc. simpl plus. destruct IH as [IH1 IH2].
    unfold set_coef at 1 3. cbn [fst snd]. rewrite IH1, IH2.
    destruct (Nat.eqb_spec p' p) as [->|Hp]; cbn [andb].
    + destruct (Nat.eqb_spec b' n) as [->|Hb].
      * replace (n <? S n)%nat with true by (symmetry; apply Nat.ltb_lt; lia).
        split; reflexivity.
      * destruct (Nat.ltb_spec b' n), (Nat.ltb_spec b' (S n));
          try lia; split; reflexivity.
    + split; reflexivity.
Qed.

Lemma fill_loop_cells (F : nat -> nat -> R * R) lo m n A p' b' :
  let A' := for_each (seq lo m)
              (fun p A => for_each (seq 0 n) (fun b A => set_coef A p b (F p b)) A) A in
  fst A' p' b' =
    (if (lo <=? p')%nat && (p' <? lo + m)%nat && (b' <? n)%nat
     then fst (F p' b') else fst A p' b') /\
  snd A' p' b' =
    (if (lo <=? p')%nat && (p' <? lo + m)%nat && (b' <? n)%nat
     then snd (F p' b') else snd A p' b').
Proof.
  induction m as [|m IH]; cbv zeta in *.
  - rewrite for_each_nil.
    destruct (Nat.leb_spec lo p'), (Nat.ltb_spec p' (lo + 0)); try lia;
      cbn [andb]; split; reflexivity.
  - rewrite for_each_snoc.
    destruct (row_loop_cells (F (lo + m)%nat) (lo + m) n
                (for_each (seq lo m)
                   (fun p A => for_each (seq 0 n)
                                 (fun b A => set_coef A p b (F p b)) A) A)
                p' b') as [H1 H2].
    cbv zeta in H1, H2. rewrite H1, H2. destruct IH as [IH1 IH2].
    rewrite IH1, IH2.
    destruct (Nat.eqb_spec p' (lo + m)) as [->|Hp]; cbn [andb].
    + destruct (Nat.ltb_spec b' n);
        destruct (Nat.leb_spec lo (lo + m)), (Nat.ltb_spec (lo + m) (lo + S m)),
                 (Nat.ltb_spec (lo + m) (lo + m));
        try lia; cbn [andb]; split; reflexivity.
    + destruct (Nat.leb_spec lo p'), (Nat.ltb_spec p' (lo + m)),
               (Nat.ltb_spec p' (lo + S m));
        try lia; cbn [andb]; split; reflexivity.
Qed.

(** The cells of the arrays after the two loops. *)
Lemma Vlrk_fill_cells A idx_P BN_CB :
  (1 <= idx_P <= Matomnum + MatomnumF + MatomnumS + 1)%nat ->
  (BN_CB < My_NumGridB_CB)%nat ->
  exists A',
    Vlrk_fill A = Some A' /\
    fst A' idx_P BN_CB = fst (Vlrk_value idx_P BN_CB) /\
    snd A' idx_P BN_CB = snd (Vlrk_value idx_P BN_CB).
Proof.
  intros Hp Hb. eexists. split; [apply Vlrk_fill_total|].
  unfold Vlrk_row_pure.
  destruct (fill_loop_cells Vlrk_value 1 (Matomnum + MatomnumF + MatomnumS + 1)
              My_NumGridB_CB A idx_P BN_CB) as [H1 H2].
  cbv zeta in H1, H2. rewrite H1, H2.
  destruct (Nat.leb_spec 1 idx_P),
           (Nat.ltb_spec idx_P (1 + (Matomnum + MatomnumF + MatomnumS + 1))),
           (Nat.ltb_spec BN_CB My_NumGridB_CB); try lia.
  cbn [andb]. split; reflexivity.
Qed.

(** Index recovery: integer facts. *)
Lemma GN_of_nonneg BN_CB :
  (0 < Ngrid1)%Z -> (0 < Ngrid2)%Z -> (0 <= Ngrid3)%Z ->
  (0 <= myid)%Z -> (0 < numprocs)%Z ->
  (0 <= GN_of BN_CB)%Z.
Proof.
  intros H1 H2 H3 Hm Hn. unfold GN_of, GNs, N2D.
  assert (0 <= myid * (Ngrid3 * Ngrid2) + numprocs - 1)%Z by nia.
  rewrite Z.quot_div_nonneg by lia.
  assert (0 <= (myid * (Ngrid3 * Ngrid2) + numprocs - 1) / numprocs)%Z
    by (apply Z.div_pos; lia).
  nia.
Qed.

Lemma index_recovery GN :
  (0 < Ngrid1)%Z -> (0 < Ngrid2)%Z -> (0 <= GN)%Z ->
  (GN = k3_of GN * Ngrid2 * Ngrid1 + k2_of GN * Ngrid1 + k1_of GN /\
   0 <= k1_of GN < Ngrid1 /\ 0 <= k2_of GN < Ngrid2 /\ 0 <= k3_of GN)%Z.
Proof.
  intros H1 H2 HG.
  assert (Hk3 : k3_of GN = (GN / (Ngrid2 * Ngrid1))%Z).
  { unfold k3_of. apply Z.quot_div_nonneg; nia. }
  assert (Hm : (0 <= GN mod (Ngrid2 * Ngrid1) < Ngrid2 * Ngrid1)%Z)
    by (apply Z.mod_pos_bound; nia).
  assert (Hd : (GN = (Ngrid2 * Ngrid1) * (GN / (Ngrid2 * Ngrid1))
                     + GN mod (Ngrid2 * Ngrid1))%Z)
    by (apply Z.div_mod; nia).
  assert (Hr : (GN - k3_of GN * Ngrid2 * Ngrid1 = GN mod (Ngrid2 * Ngrid1))%Z)
    by (rewrite Hk3; lia).
  assert (Hk2 : k2_of GN = (GN mod (Ngrid2 * Ngrid1) / Ngrid1)%Z).
  { unfold k2_of. rewrite Hr. apply Z.quot_div_nonneg; lia. }
  assert (Hm1 : (0 <= (GN mod (Ngrid2 * Ngrid1)) mod Ngrid1 < Ngrid1)%Z)
    by (apply Z.mod_pos_bound; lia).
  assert (Hd1 : (GN mod (Ngrid2 * Ngrid1)
                 = Ngrid1 * (GN mod (Ngrid2 * Ngrid1) / Ngrid1)
                   + (GN mod (Ngrid2 * Ngrid1)) mod Ngrid1)%Z)
    by (apply Z.div_mod; lia).
  assert (Hk1 : k1_of GN = ((GN mod (Ngrid2 * Ngrid1)) mod Ngrid1)%Z).
  { unfold k1_of. rewrite Hr, Hk2. lia. }
  assert (Hk2b : (0 <= k2_of GN < Ngrid2)%Z).
  { rewrite Hk2. split.
    - apply Z.div_pos; lia.
    - apply Z.div_lt_upper_bound; nia. }
  assert (Hk3b : (0 <= k3_of GN)%Z).
  { rewrite Hk3. apply Z.div_pos; nia. }
  repeat split; lia.
Qed.



(** C3.  The coefficient loops never fault on the division by [K2], whatever
    the inputs, because the division is reached only under the guard
    [K2 > 0] (while a division by zero would fault); and at every grid point
    with [K2 = 0] the real and the imaginary coefficient are both exactly
    zero. *)
Theorem Calc_Vlr_zero_mode (A0 : coefs) :
  (forall x : R, ddiv x 0 = None) /\
  (forall idx_P BN_CB, Vlrk_point idx_P BN_CB <> None) /\
  exists A : coefs,
    Vlrk_fill A0 = Some A /\
    forall idx_P BN_CB,
      (1 <= idx_P <= Matomnum + MatomnumF + MatomnumS + 1)%nat ->
      (BN_CB < My_NumGridB_CB)%nat ->
      KK_of (GN_of BN_CB) = 0 ->
      fst A idx_P BN_CB = 0 /\ snd A idx_P BN_CB = 0.
Proof.
  split; [|split].
  - intros x. unfold ddiv. destruct (Req_dec_T 0 0); [reflexivity|contradiction].
  - intros idx_P BN_CB. rewrite Vlrk_point_total. discriminate.
  - eexists. split; [apply Vlrk_fill_total|].
    intros idx_P BN_CB Hp Hb HK.
    destruct (Vlrk_fill_cells A0 idx_P BN_CB Hp Hb) as (A & HA & Hre & Him).
    rewrite Vlrk_fill_total in HA. injection HA as <-.
    rewrite Hre, Him. unfold Vlrk_value. rewrite HK.
    destruct (Rlt_dec 0 0) as [Hlt|_]; [lra|]. split; reflexivity.
Qed.

(** X10.  The coefficient loops write only the rows [1 .. Matomnum +
    MatomnumF + MatomnumS + 1] and the columns below [My_NumGridB_CB]: every
    other cell of [ReVlrk] and [ImVlrk], row 0 among them, keeps the value it
    had. *)
Theorem Calc_Vlr_untouched_cells (A0 : coefs) (idx_P BN_CB : nat) :
  ~ ((1 <= idx_P <= Matomnum + MatomnumF + MatomnumS + 1)%nat /\
     (BN_CB < My_NumGridB_CB)%nat) ->
  exists A : coefs,
    Vlrk_fill A0 = Some A /\
    fst A idx_P BN_CB = fst A0 idx_P BN_CB /\
    snd A idx_P BN_CB = snd A0 idx_P BN_CB.
Proof.
  intros Hout. eexists. split; [apply Vlrk_fill_total|].
  unfold Vlrk_row_pure.
  destruct (fill_loop_cells Vlrk_value 1 (Matomnum + MatomnumF + MatomnumS + 1)
              My_NumGridB_CB A0 idx_P BN_CB) as [H1 H2].
  cbv zeta in H1, H2. rewrite H1, H2.
  destruct (Nat.leb_spec 1 idx_P),
           (Nat.ltb_spec idx_P (1 + (Matomnum + MatomnumF + MatomnumS + 1))),
           (Nat.ltb_spec BN_CB My_NumGridB_CB); cbn [andb];
    try (split; reflexivity).
  exfalso. apply Hout. lia.
Qed.

(** X12.  Hermitian symmetry: at two grid points whose folded indices are
    opposite on every axis, the real coefficients are equal and the imaginary
    coefficients are opposite. *)
Theorem Calc_Vlr_conjugate (A0 : coefs) (idx_P BN_CB BN_CB' : nat) :
  (1 <= idx_P <= Matomnum + MatomnumF + MatomnumS + 1)%nat ->
  (BN_CB < My_NumGridB_CB)%nat ->
  (BN_CB' < My_NumGridB_CB)%nat ->
  sk_of (k1_of (GN_of BN_CB')) Ngrid1 = - sk_of (k1_of (GN_of BN_CB)) Ngrid1 ->
  sk_of (k2_of (GN_of BN_CB')) Ngrid2 = - sk_of (k2_of (GN_of BN_CB)) Ngrid2 ->
  sk_of (k3_of (GN_of BN_CB')) Ngrid3 = - sk_of (k3_of (GN_of BN_CB)) Ngrid3 ->
  exists A : coefs,
    Vlrk_fill A0 = Some A /\
    fst A idx_P BN_CB' = fst A idx_P BN_CB /\
    snd A idx_P BN_CB' = - snd A idx_P BN_CB.
Proof.
  intros Hp Hb Hb' H1 H2 H3.
  destruct (Vlrk_fill_cells A0 idx_P BN_CB Hp Hb) as (A & HA & Hre & Him).
  destruct (Vlrk_fill_cells A0 idx_P BN_CB' Hp Hb') as (A' & HA' & Hre' & Him').
  rewrite HA in HA'. injection HA' as <-.
  exists A. split; [exact HA|].
  rewrite Hre, Him, Hre', Him'.
  assert (Hx : Gx_of (GN_of BN_CB') = - Gx_of (GN_of BN_CB))
    by (unfold Gx_of; rewrite H1, H2, H3; ring).
  assert (Hy : Gy_of (GN_of BN_CB') = - Gy_of (GN_of BN_CB))
    by (unfold Gy_of; rewrite H1, H2, H3; ring).
  assert (Hz : Gz_of (GN_of BN_CB') = - Gz_of (GN_of BN_CB))
    by (unfold Gz_of; rewrite H1, H2, H3; ring).
  assert (HK : KK_of (GN_of BN_CB') = KK_of (GN_of BN_CB))
    by (unfold KK_of; rewrite Hx, Hy, Hz; ring).
  unfold Vlrk_value. rewrite HK, Hx, Hy, Hz.
  destruct (Rlt_dec 0 (KK_of (GN_of BN_CB))) as [Hpos|Hn]; cbn [fst snd];
    [|split; ring].
  replace (- - Gx_of (GN_of BN_CB) * Gxyz idx_P 1
           + - - Gy_of (GN_of BN_CB) * Gxyz idx_P 2
           + - - Gz_of (GN_of BN_CB) * Gxyz idx_P 3)
    with (- (- Gx_of (GN_of BN_CB) * Gxyz idx_P 1
             + - Gy_of (GN_of BN_CB) * Gxyz idx_P 2
             + - Gz_of (GN_of BN_CB) * Gxyz idx_P 3)) by ring.
  rewrite cos_neg, sin_neg. split; [reflexivity|ring].
Qed.

(** X13.  The index recovery inverts the flattening: from
    [GN = k3*Ngrid2*Ngrid1 + k2*Ngrid1 + k1] with [k1] and [k2] in range, the
    three divisions give back [k1], [k2] and [k3]. *)
Theorem Calc_Vlr_index_round_trip (k1 k2 k3 : Z) :
  (0 <= k1 < Ngrid1)%Z -> (0 <= k2 < Ngrid2)%Z -> (0 <= k3)%Z ->
  let GN := (k3 * Ngrid2 * Ngrid1 + k2 * Ngrid1 + k1)%Z in
  k1_of GN = k1 /\ k2_of GN = k2 /\ k3_of GN = k3.
Proof.
  intros H1 H2 H3 GN.
  assert (Hr : (0 <= k2 * Ngrid1 + k1 < Ngrid2 * Ngrid1)%Z).
  { assert (0 <= k2 * Ngrid1)%Z by (apply Z.mul_nonneg_nonneg; lia).
    assert (k2 * Ngrid1 <= (Ngrid2 - 1) * Ngrid1)%Z
      by (apply Z.mul_le_mono_nonneg_r; lia).
    lia. }
  assert (Hq : (0 <= k3 * (Ngrid2 * Ngrid1))%Z)
    by (apply Z.mul_nonneg_nonneg; nia).
  assert (E3 : k3_of GN = k3).
  { unfold k3_of. rewrite Z.quot_div_nonneg by (unfold GN; nia).
    symmetry. apply Z.div_unique_pos with (r := (k2 * Ngrid1 + k1)%Z);
      [exact Hr | unfold GN; ring]. }
  assert (E2 : k2_of GN = k2).
  { unfold k2_of. rewrite E3.
    replace (GN - k3 * Ngrid2 * Ngrid1)%Z with (k2 * Ngrid1 + k1)%Z
      by (unfold GN; ring).
    rewrite Z.quot_div_nonneg by lia.
    symmetry. apply Z.div_unique_pos with (r := k1); [lia | ring]. }
  split; [|split; assumption].
  unfold k1_of. rewrite E3, E2. unfold GN. ring.
Qed.

(** X14.  The part of partition B of every process starts on a row boundary
    of the first axis: the first index recovered for the local point
    [BN_CB] is [BN_CB mod Ngrid1], whatever the rank. *)
Theorem Calc_Vlr_slab_aligned (BN_CB : nat) :
  (0 < Ngrid1)%Z -> (0 < Ngrid2)%Z -> (0 <= Ngrid3)%Z ->
  (0 <= myid)%Z -> (0 < numprocs)%Z ->
  k1_of (GN_of BN_CB) = (Z.of_nat BN_CB mod Ngrid1)%Z.
Proof.
  intros H1 H2 H3 Hm Hn.
  assert (HG : (0 <= GN_of BN_CB)%Z) by (apply GN_of_nonneg; lia).
  destruct (index_recovery (GN_of BN_CB) H1 H2 HG) as (Hdec & Hk1 & _ & _).
  unfold GN_of in Hdec at 1. unfold GNs in Hdec.
  apply Z.mod_unique_pos
    with (q := (k3_of (GN_of BN_CB) * Ngrid2 + k2_of (GN_of BN_CB)
                - Z.quot (myid * N2D + numprocs - 1) numprocs)%Z);
    [exact Hk1 | lia].
Qed.

End Calc_Vlr.

(** A 4 x 4 x 4 grid on one process, orthonormal reciprocal vectors, the
    source at the origin. *)
Definition rtv_unit (i j : nat) : R := if (i =? j)%nat then 1 else 0.
Definition Gxyz_origin (_ _ : nat) : R := 0.
Definition coefs_zero : coefs := (fun _ _ => 0, fun _ _ => 0).


(** At the grid point [GN = 0] the reciprocal vector vanishes: both
    coefficients are zero. *)
Lemma Calc_Vlr_zero_mode_witness :
  exists A : coefs,
    Vlrk_fill 4 4 4 1 0 1 0 0 64 1 rtv_unit Gxyz_origin coefs_zero = Some A /\
    fst A 1%nat 0%nat = 0 /\ snd A 1%nat 0%nat = 0.
Proof.
  destruct (Calc_Vlr_zero_mode 4 4 4 1 0 1 0 0 64 1 rtv_unit Gxyz_origin
              coefs_zero) as (_ & _ & A & HA & HZ).
  exists A. split; [exact HA|].
  apply HZ; [lia|lia|].
  unfold KK_of, Gx_of, Gy_of, Gz_of, sk_of.
  change (GN_of 4 4 4 1 0 0) with 0%Z.
  change (k1_of 4 4 0) with 0%Z.
  change (k2_of 4 4 0) with 0%Z.
  change (k3_of 4 4 0) with 0%Z.
  change (Z.ltb 0 (Z.quot 4 2)) with true. cbv iota.
  lra.
Defined.

(** Two sources on the same grid, and arrays that hold 7 everywhere before
    the loops. *)
Definition coefs_seven : coefs := (fun _ _ => 7, fun _ _ => 7).

(** Row 0 is below the first source. *)
Lemma Calc_Vlr_untouched_cells_witness :
  exists A : coefs,
    Vlrk_fill 4 4 4 1 0 1 0 0 64 1 rtv_unit Gxyz_origin coefs_seven = Some A /\
    fst A 0%nat 5%nat = fst coefs_seven 0%nat 5%nat /\
    snd A 0%nat 5%nat = snd coefs_seven 0%nat 5%nat.
Proof.
  apply (Calc_Vlr_untouched_cells 4 4 4 1 0 1 0 0 64 1 rtv_unit Gxyz_origin
           coefs_seven 0 5).
  lia.
Defined.

(** The grid points 1 and 3 of a row of four have the folded indices 1 and
    -1. *)
Lemma Calc_Vlr_conjugate_witness :
  exists A : coefs,
    Vlrk_fill 4 4 4 1 0 1 0 0 64 1 rtv_unit rtv_unit coefs_zero = Some A /\
    fst A 1%nat 3%nat = fst A 1%nat 1%nat /\
    snd A 1%nat 3%nat = - snd A 1%nat 1%nat.
Proof.
  apply (Calc_Vlr_conjugate 4 4 4 1 0 1 0 0 64 1 rtv_unit rtv_unit coefs_zero
           1 1 3); try lia; vm_compute; lra.
Defined.

Lemma Calc_Vlr_index_round_trip_witness :
  k1_of 4 4 57 = 1%Z /\ k2_of 4 4 57 = 2%Z /\ k3_of 4 4 57 = 3%Z.
Proof.
  apply (Calc_Vlr_index_round_trip 4 4 1 2 3); lia.
Defined.

(** The second of two processes starts at [GNs = 32]. *)
Lemma Calc_Vlr_slab_aligned_witness :
  k1_of 4 4 (GN_of 4 4 4 2 1 5) = 1%Z.
Proof.
  apply (Calc_Vlr_slab_aligned 4 4 4 2 1 5); lia.
Defined.

End Solver.

(** ** Data_Grid_Copy_B2C_XiwenLi: a field from partition B to partition C *)

Module Redistribution.
Import Loops.

(** A grid field, or a work array: its cells. *)
Definition field : Type := nat -> R.

(** [a[k] = v]. *)
Definition store (a : field) (k : nat) (v : R) : field :=
  fun k' => if k' =? k then v else a k'.

(** The destination field together with the log of the indices written to
    it, in the order of the writes. *)
Definition logged : Type := (field * list nat)%type.

Definition store_log (a : logged) (k : nat) (v : R) : logged :=
  (store (fst a) k v, snd a ++ [k]).

(** The redistribution plan of one process: the globals the routine reads. *)
Record plan : Type := {
  NN_B2C_S : nat;
  NN_B2C_R : nat;
  ID_NN_B2C_S : nat -> nat;
  ID_NN_B2C_R : nat -> nat;
  GP_B2C_S : nat -> nat;
  GP_B2C_R : nat -> nat;
  Num_Snd_Grid_B2C : nat -> nat;
  Num_Rcv_Grid_B2C : nat -> nat;
  Index_Snd_Grid_B2C : nat -> nat -> nat;
  Index_Rcv_Grid_B2C : nat -> nat -> nat
}.

(** A posted [MPI_Isend] or [MPI_Irecv]: the partner rank, the offset of the
    message in the work array and its length. *)
Record request : Type := {
  partner : nat;
  offset : nat;
  count : nat
}.

(** *** The routine on one process *)

Section OneProcess.

Variable myid : nat.
Variable p : plan.

(** The loop that posts the receives. *)
Definition irecv_loop : list request :=
for_each (seq 0 (NN_B2C_R p))
  (fun ID posted =>
     let IDR := ID_NN_B2C_R p ID in
     let gp := GP_B2C_R p ID in
     if negb (IDR =? myid)
     then posted ++ [{| partner := IDR; offset := gp;
                        count := Num_Rcv_Grid_B2C p IDR |}]
     else posted)
  [].

(** The loop that fills [Work_Array_Snd_Grid_B2C] and posts the sends; its
    state is the work array and the sends posted so far. *)
Definition isend_loop (data_B Work_Snd : field) : field * list request :=
for_each (seq 0 (NN_B2C_S p))
  (fun ID st =>
     let IDS := ID_NN_B2C_S p ID in
     let gp := GP_B2C_S p ID in
     let W := for_each (seq 0 (Num_Snd_Grid_B2C p IDS))
                (fun LN W =>
                   let BN := Index_Snd_Grid_B2C p IDS LN in
                   store W (gp + LN) (data_B BN))
                (fst st) in
     if negb (IDS =? myid)
     then (W, snd st ++ [{| partner := IDS; offset := gp;
                            count := Num_Snd_Grid_B2C p IDS |}])
     else (W, snd st))
  (Work_Snd, []).

(** The loop that copies the work arrays to [data_C]. *)
Definition unpack_loop (Work_Snd Work_Rcv : field) (data_C : logged) : logged :=
for_each (seq 0 (NN_B2C_R p))
  (fun ID data_C =>
     let IDR := ID_NN_B2C_R p ID in
     if IDR =? myid then
       let gp := GP_B2C_S p ID in
       for_each (seq 0 (Num_Rcv_Grid_B2C p IDR))
         (fun LN data_C =>
            let CN := Index_Rcv_Grid_B2C p IDR LN in
            store_log data_C CN (Work_Snd (gp + LN)))
         data_C
     else
       let gp := GP_B2C_R p ID in
       for_each (seq 0 (Num_Rcv_Grid_B2C p IDR))
         (fun LN data_C =>
            let CN := Index_Rcv_Grid_B2C p IDR LN in
            store_log data_C CN (Work_Rcv (gp + LN)))
         data_C)
  data_C.

End OneProcess.

(** *** All processes together: the messages *)

Section AllProcesses.

Variable plans : nat -> plan.
Variable data_B : nat -> field.
(** The work arrays as [malloc] returns them. *)
Variable Snd0 Rcv0 : nat -> field.

(** The send work array of rank [r] once its send loop has run, and the
    sends it has posted. *)
Definition Work_Array_Snd_Grid_B2C (r : nat) : field :=
fst (isend_loop r (plans r) (data_B r) (Snd0 r)).

Definition sends (r : nat) : list request :=
snd (isend_loop r (plans r) (data_B r) (Snd0 r)).

(** The message that rank [src] has posted for rank [dst], if any (all
    messages carry the same tag). *)
Definition message_from (src dst : nat) : option request :=
find (fun m => partner m =? dst) (sends src).

(** Completion of the receive [q] posted by rank [r]: the matching message
    is copied from the sender's work array into the receiver's, at the
    offset of the receive.  The send array is read at completion, that is
    after the sender's loop has filled it. *)
Definition complete (r : nat) (q : request) (Work_Rcv : field) : field :=
match message_from (partner q) r with
| Some m =>
    for_each (seq 0 (Nat.min (count q) (count m)))
      (fun k W =>
         store W (offset q + k)
           (Work_Array_Snd_Grid_B2C (partner q) (offset m + k)))
      Work_Rcv
| None => Work_Rcv
end.

(** [MPI_Waitall]: the posted receives complete in the order [order], a
    rearrangement of the posted list that the network chooses. *)
Definition waitall (r : nat) (order : list request) (Work_Rcv : field) : field :=
fold_left (fun W q => complete r q W) order Work_Rcv.

Definition Work_Array_Rcv_Grid_B2C (r : nat) (order : list request) : field :=
waitall r order (Rcv0 r).

(** The routine on rank [r]. *)
Definition Data_Grid_Copy_B2C_XiwenLi (r : nat) (order : list request)
  (data_C : logged) : logged :=
unpack_loop r (plans r)
  (Work_Array_Snd_Grid_B2C r) (Work_Array_Rcv_Grid_B2C r order) data_C.

End AllProcesses.

(** *** The loops as sequences of writes *)

Definition write : Type := (nat * R)%type.

Definition store_all (ws : list write) (a : field) : field :=
fold_left (fun a w => store a (fst w) (snd w)) ws a.

Lemma store_all_app ws1 ws2 a :
  store_all (ws1 ++ ws2) a = store_all ws2 (store_all ws1 a).
Proof. unfold store_all. apply fold_left_app. Qed.

Lemma for_each_store (kv : nat -> write) l a :
  for_each l (fun x a => store a (fst (kv x)) (snd (kv x))) a
  = store_all (map kv l) a.
Proof.
  revert a. induction l as [|x l IH]; intros a; [reflexivity|].
  rewrite for_each_cons, IH. reflexivity.
Qed.

Lemma for_each_store_all (g : nat -> list write) l a :
  for_each l (fun x a => store_all (g x) a) a = store_all (flat_map g l) a.
Proof.
  revert a. induction l as [|x l IH]; intros a; [reflexivity|].
  rewrite for_each_cons, IH. cbn [flat_map]. rewrite store_all_app. reflexivity.
Qed.

(** The value of a cell after a sequence of writes, when every write to the
    cell carries the same value. *)
Lemma store_all_written ws a k v :
  In (k, v) ws ->
  (forall v', In (k, v') ws -> v' = v) ->
  store_all ws a k = v.
Proof.
  induction ws as [|w ws IH] using rev_ind; intros Hin Huniq; [destruct Hin|].
  rewrite store_all_app. cbn. unfold store.
  destruct (Nat.eqb_spec k (fst w)) as [Hk|Hk].
  - apply Huniq. apply in_or_app. right. left.
    destruct w as [k' v']. cbn in *. subst. reflexivity.
  - apply IH.
    + apply in_app_or in Hin. destruct Hin as [Hin|[Hin|[]]]; [exact Hin|].
      subst w. cbn in Hk. congruence.
    + intros v' Hv'. apply Huniq. apply in_or_app. left. exact Hv'.
Qed.


Section Traces.

Variable myid : nat.
Variable p : plan.

Definition irecv_posts : list request :=
flat_map (fun ID =>
            if negb (ID_NN_B2C_R p ID =? myid)
            then [{| partner := ID_NN_B2C_R p ID; offset := GP_B2C_R p ID;
                     count := Num_Rcv_Grid_B2C p (ID_NN_B2C_R p ID) |}]
            else [])
  (seq 0 (NN_B2C_R p)).

Definition isend_posts : list request :=
flat_map (fun ID =>
            if negb (ID_NN_B2C_S p ID =? myid)
            then [{| partner := ID_NN_B2C_S p ID; offset := GP_B2C_S p ID;
                     count := Num_Snd_Grid_B2C p (ID_NN_B2C_S p ID) |}]
            else [])
  (seq 0 (NN_B2C_S p)).

Definition pack_writes (data_B : field) : list write :=
flat_map (fun ID =>
            map (fun LN =>
                   (GP_B2C_S p ID + LN,
                    data_B (Index_Snd_Grid_B2C p (ID_NN_B2C_S p ID) LN)))
              (seq 0 (Num_Snd_Grid_B2C p (ID_NN_B2C_S p ID))))
  (seq 0 (NN_B2C_S p)).

Definition unpack_writes (Work_Snd Work_Rcv : field) : list write :=
flat_map (fun ID =>
            map (fun LN =>
                   (Index_Rcv_Grid_B2C p (ID_NN_B2C_R p ID) LN,
                    if ID_NN_B2C_R p ID =? myid
                    then Work_Snd (GP_B2C_S p ID + LN)
                    else Work_Rcv (GP_B2C_R p ID + LN)))
              (seq 0 (Num_Rcv_Grid_B2C p (ID_NN_B2C_R p ID))))
  (seq 0 (NN_B2C_R p)).

Lemma irecv_loop_trace : irecv_loop myid p = irecv_posts.
Proof.
  unfold irecv_loop, irecv_posts.
  assert (H : forall l posted,
             for_each l
               (fun ID posted =>
                  let IDR := ID_NN_B2C_R p ID in
                  let gp := GP_B2C_R p ID in
                  if negb (IDR =? myid)
                  then posted ++ [{| partner := IDR; offset := gp;
                                     count := Num_Rcv_Grid_B2C p IDR |}]
                  else posted) posted
             = posted ++
               flat_map (fun ID =>
                           if negb (ID_NN_B2C_R p ID =? myid)
                           then [{| partner := ID_NN_B2C_R p ID;
                                    offset := GP_B2C_R p ID;
                                    count := Num_Rcv_Grid_B2C p (ID_NN_B2C_R p ID) |}]
                           else []) l).
  { induction l as [|ID l IH]; intros posted.
    - cbn. rewrite app_nil_r. reflexivity.
    - rewrite for_each_cons, IH. cbn [flat_map]. cbv zeta.
      destruct (negb (ID_NN_B2C_R p ID =? myid)).
      + rewrite <- app_assoc. reflexivity.
      + reflexivity. }
  apply (H _ []).
Qed.

Lemma isend_loop_trace data_B Work_Snd :
  isend_loop myid p data_B Work_Snd
  = (store_all (pack_writes data_B) Work_Snd, isend_posts).
Proof.
  unfold isend_loop, isend_posts, pack_writes.
  assert (H : forall l W posted,
             for_each l
               (fun ID st =>
                  let IDS := ID_NN_B2C_S p ID in
                  let gp := GP_B2C_S p ID in
                  let W := for_each (seq 0 (Num_Snd_Grid_B2C p IDS))
                             (fun LN W =>
                                let BN := Index_Snd_Grid_B2C p IDS LN in
                                store W (gp + LN) (data_B BN))
                             (fst st) in
                  if negb (IDS =? myid)
                  then (W, snd st ++ [{| partner := IDS; offset := gp;
                                         count := Num_Snd_Grid_B2C p IDS |}])
                  else (W, snd st)) (W, posted)
             = (store_all
                  (flat_map (fun ID =>
                     map (fun LN =>
                            (GP_B2C_S p ID + LN,
                             data_B (Index_Snd_Grid_B2C p (ID_NN_B2C_S p ID) LN)))
                       (seq 0 (Num_Snd_Grid_B2C p (ID_NN_B2C_S p ID)))) l) W,
                posted ++
                flat_map (fun ID =>
                            if negb (ID_NN_B2C_S p ID =? myid)
                            then [{| partner := ID_NN_B2C_S p ID;
                                     offset := GP_B2C_S p ID;
                                     count := Num_Snd_Grid_B2C p (ID_NN_B2C_S p ID) |}]
                            else []) l)).
  { induction l as [|ID l IH]; intros W posted.
    - cbn. rewrite app_nil_r. reflexivity.
    - rewrite for_each_cons. cbv zeta. cbn [fst snd flat_map].
      rewrite store_all_app.
      rewrite <- (for_each_store
                    (fun LN => (GP_B2C_S p ID + LN,
                                data_B (Index_Snd_Grid_B2C p (ID_NN_B2C_S p ID) LN)))).
      cbn [fst snd].
      destruct (negb (ID_NN_B2C_S p ID =? myid)).
      + rewrite IH, <- app_assoc. reflexivity.
      + rewrite IH. reflexivity. }
  apply (H _ _ []).
Qed.

Lemma for_each_store_log (kv : nat -> write) l (d : field) (log : list nat) :
  for_each l (fun x a => store_log a (fst (kv x)) (snd (kv x))) (d, log)
  = (store_all (map kv l) d, log ++ map fst (map kv l)).
Proof.
  revert d log. induction l as [|x l IH]; intros d log.
  - cbn. rewrite app_nil_r. reflexivity.
  - rewrite for_each_cons. unfold store_log at 2. cbn [fst snd].
    rewrite IH, <- app_assoc. reflexivity.
Qed.

Lemma unpack_loop_trace Work_Snd Work_Rcv (d : field) (log : list nat) :
  unpack_loop myid p Work_Snd Work_Rcv (d, log)
  = (store_all (unpack_writes Work_Snd Work_Rcv) d,
     log ++ map fst (unpack_writes Work_Snd Work_Rcv)).
Proof.
  unfold unpack_loop, unpack_writes.
  revert d log.
  induction (seq 0 (NN_B2C_R p)) as [|ID l IH]; intros d log.
  - cbn. rewrite app_nil_r. reflexivity.
  - rewrite for_each_cons. cbn [flat_map].
    rewrite store_all_app, map_app, app_assoc.
    destruct (ID_NN_B2C_R p ID =? myid).
    + rewrite (for_each_store_log
                 (fun LN => (Index_Rcv_Grid_B2C p (ID_NN_B2C_R p ID) LN,
                             Work_Snd (GP_B2C_S p ID + LN)))).
      apply IH.
    + rewrite (for_each_store_log
                 (fun LN => (Index_Rcv_Grid_B2C p (ID_NN_B2C_R p ID) LN,
                             Work_Rcv (GP_B2C_R p ID + LN)))).
      apply IH.
Qed.

End Traces.

(** *** Valid plans *)

Definition snd_partners (p : plan) : list nat :=
map (ID_NN_B2C_S p) (seq 0 (NN_B2C_S p)).

Definition rcv_partners (p : plan) : list nat :=
map (ID_NN_B2C_R p) (seq 0 (NN_B2C_R p)).

(** All the partition-B indices a process sends, list after list, and all
    the partition-C indices it receives into. *)
Definition snd_index_lists (numprocs : nat) (p : plan) : list nat :=
flat_map (fun s => map (Index_Snd_Grid_B2C p s) (seq 0 (Num_Snd_Grid_B2C p s)))
  (seq 0 numprocs).

Definition rcv_index_lists (numprocs : nat) (p : plan) : list nat :=
flat_map (fun s => map (Index_Rcv_Grid_B2C p s) (seq 0 (Num_Rcv_Grid_B2C p s)))
  (seq 0 numprocs).

(** The copy of the own part reads inside the send work array: the offset
    it takes is one of the [NN_B2C_S + 1] entries of [GP_B2C_S], and the
    part it reads ends before [GP_B2C_S[NN_B2C_S]], the size of the array. *)
Definition self_in_bounds (numprocs : nat) (plans : nat -> plan) : Prop :=
forall r ID, r < numprocs -> ID < NN_B2C_R (plans r) ->
  ID_NN_B2C_R (plans r) ID = r ->
  ID <= NN_B2C_S (plans r) /\
  GP_B2C_S (plans r) ID + Num_Rcv_Grid_B2C (plans r) r
  <= GP_B2C_S (plans r) (NN_B2C_S (plans r)).

(** A valid family of plans, one per rank, for fields of [NumGridB r] and
    [NumGridC r] points on rank [r]:
    - the partner lists name, without repetition, the ranks with which a
      non-empty list is exchanged;
    - the offsets lay the messages out one after the other;
    - what [s] sends to [r] is as long as what [r] receives from [s];
    - every partition-B index is in exactly one send list and every
      partition-C index in exactly one receive list;
    - no read leaves the work arrays. *)
Record valid_plan (numprocs : nat) (plans : nat -> plan)
  (NumGridB NumGridC : nat -> nat) : Prop := {
  vp_snd_nodup : forall r, r < numprocs -> NoDup (snd_partners (plans r));
  vp_rcv_nodup : forall r, r < numprocs -> NoDup (rcv_partners (plans r));
  vp_snd_partners : forall r s, r < numprocs ->
    (In s (snd_partners (plans r))
     <-> s < numprocs /\ Num_Snd_Grid_B2C (plans r) s <> 0);
  vp_rcv_partners : forall r s, r < numprocs ->
    (In s (rcv_partners (plans r))
     <-> s < numprocs /\ Num_Rcv_Grid_B2C (plans r) s <> 0);
  vp_snd_offsets : forall r ID, r < numprocs -> ID < NN_B2C_S (plans r) ->
    GP_B2C_S (plans r) (S ID)
    = GP_B2C_S (plans r) ID
      + Num_Snd_Grid_B2C (plans r) (ID_NN_B2C_S (plans r) ID);
  vp_rcv_offsets : forall r ID, r < numprocs -> ID < NN_B2C_R (plans r) ->
    GP_B2C_R (plans r) (S ID)
    = GP_B2C_R (plans r) ID
      + Num_Rcv_Grid_B2C (plans r) (ID_NN_B2C_R (plans r) ID);
  vp_counts : forall r s, r < numprocs -> s < numprocs ->
    Num_Snd_Grid_B2C (plans s) r = Num_Rcv_Grid_B2C (plans r) s;
  vp_snd_indices : forall r, r < numprocs ->
    Permutation (snd_index_lists numprocs (plans r)) (seq 0 (NumGridB r));
  vp_rcv_indices : forall r, r < numprocs ->
    Permutation (rcv_index_lists numprocs (plans r)) (seq 0 (NumGridC r));
  vp_in_bounds : self_in_bounds numprocs plans
}.

(** The own rank sits at the same position in the send and in the receive
    partner list. *)
Definition self_aligned (numprocs : nat) (plans : nat -> plan) : Prop :=
forall r ID, r < numprocs -> ID < NN_B2C_R (plans r) ->
  ID_NN_B2C_R (plans r) ID = r ->
  ID < NN_B2C_S (plans r) /\ ID_NN_B2C_S (plans r) ID = r.

(** The conditions of a valid plan on the lists alone: all of them but the
    last, the one that keeps the copy of the own part inside the send work
    array. *)
Record valid_lists (numprocs : nat) (plans : nat -> plan)
  (NumGridB NumGridC : nat -> nat) : Prop := {
  vl_snd_nodup : forall r, r < numprocs -> NoDup (snd_partners (plans r));
  vl_rcv_nodup : forall r, r < numprocs -> NoDup (rcv_partners (plans r));
  vl_snd_partners : forall r s, r < numprocs ->
    (In s (snd_partners (plans r))
     <-> s < numprocs /\ Num_Snd_Grid_B2C (plans r) s <> 0);
  vl_rcv_partners : forall r s, r < numprocs ->
    (In s (rcv_partners (plans r))
     <-> s < numprocs /\ Num_Rcv_Grid_B2C (plans r) s <> 0);
  vl_snd_offsets : forall r ID, r < numprocs -> ID < NN_B2C_S (plans r) ->
    GP_B2C_S (plans r) (S ID)
    = GP_B2C_S (plans r) ID
      + Num_Snd_Grid_B2C (plans r) (ID_NN_B2C_S (plans r) ID);
  vl_rcv_offsets : forall r ID, r < numprocs -> ID < NN_B2C_R (plans r) ->
    GP_B2C_R (plans r) (S ID)
    = GP_B2C_R (plans r) ID
      + Num_Rcv_Grid_B2C (plans r) (ID_NN_B2C_R (plans r) ID);
  vl_counts : forall r s, r < numprocs -> s < numprocs ->
    Num_Snd_Grid_B2C (plans s) r = Num_Rcv_Grid_B2C (plans r) s;
  vl_snd_indices : forall r, r < numprocs ->
    Permutation (snd_index_lists numprocs (plans r)) (seq 0 (NumGridB r));
  vl_rcv_indices : forall r, r < numprocs ->
    Permutation (rcv_index_lists numprocs (plans r)) (seq 0 (NumGridC r))
}.

(** *** Lists of distinct elements *)

Lemma NoDup_app_disjoint {A : Type} (l1 l2 : list A) x :
  NoDup (l1 ++ l2) -> In x l1 -> In x l2 -> False.
Proof.
  induction l1 as [|a l1 IH]; intros Hnd H1 H2; [destruct H1|].
  cbn in Hnd. apply NoDup_cons_iff in Hnd. destruct Hnd as [Ha Hnd].
  destruct H1 as [->|H1].
  - apply Ha. apply in_or_app. right. exact H2.
  - apply IH; assumption.
Qed.

Lemma NoDup_map_seq_inj (g : nat -> nat) n i j :
  NoDup (map g (seq 0 n)) -> i < n -> j < n -> g i = g j -> i = j.
Proof.
  intros Hnd Hi Hj Hg.
  apply (proj1 (NoDup_nth _ (g 0)) Hnd).
  - rewrite length_map, length_seq. exact Hi.
  - rewrite length_map, length_seq. exact Hj.
  - rewrite !map_nth, !seq_nth by assumption. exact Hg.
Qed.

Lemma In_map_seq (g : nat -> nat) n x :
  In x (map g (seq 0 n)) <-> exists i, i < n /\ g i = x.
Proof.
  rewrite in_map_iff. split; intros (i & H1 & H2).
  - exists i. apply in_seq in H2. split; [lia|exact H1].
  - exists i. split; [exact H2|]. apply in_seq. lia.
Qed.

Lemma index_lists_inj (f : nat -> nat -> nat) (n : nat -> nat) (L : list nat) :
  NoDup (flat_map (fun s => map (f s) (seq 0 (n s))) L) ->
  forall s1 l1 s2 l2,
    In s1 L -> In s2 L -> l1 < n s1 -> l2 < n s2 ->
    f s1 l1 = f s2 l2 -> s1 = s2 /\ l1 = l2.
Proof.
  induction L as [|a L IH]; intros Hnd s1 l1 s2 l2 H1 H2 Hl1 Hl2 Hf; [destruct H1|].
  cbn [flat_map] in Hnd.
  assert (Hhead : forall l, l < n a -> In (f a l) (map (f a) (seq 0 (n a)))).
  { intros l Hl. apply In_map_seq. exists l. split; [exact Hl|reflexivity]. }
  assert (Htail : forall s l, In s L -> l < n s ->
                    In (f s l) (flat_map (fun s => map (f s) (seq 0 (n s))) L)).
  { intros s l Hs Hl. apply in_flat_map. exists s. split; [exact Hs|].
    apply In_map_seq. exists l. split; [exact Hl|reflexivity]. }
  destruct H1 as [<-|H1], H2 as [<-|H2].
  - split; [reflexivity|].
    apply (NoDup_map_seq_inj (f a) (n a)); try assumption.
    apply (NoDup_app_remove_r _ _ Hnd).
  - exfalso. apply (NoDup_app_disjoint _ _ (f a l1) Hnd).
    + apply Hhead. exact Hl1.
    + rewrite Hf. apply Htail; assumption.
  - exfalso. apply (NoDup_app_disjoint _ _ (f a l2) Hnd).
    + apply Hhead. exact Hl2.
    + rewrite <- Hf. apply Htail; assumption.
  - apply IH; try assumption. apply (NoDup_app_remove_l _ _ Hnd).
Qed.

(** *** Offsets that lay messages out one after the other *)

Section Offsets.

Variables GP cnt : nat -> nat.
Variable NN : nat.
Hypothesis GP_next : forall ID, ID < NN -> GP (S ID) = GP ID + cnt ID.

Lemma offsets_mono ID1 ID2 :
  ID1 < ID2 -> ID2 <= NN -> GP ID1 + cnt ID1 <= GP ID2.
Proof.
  induction ID2 as [|ID2 IH]; intros Hlt Hle; [lia|].
  rewrite GP_next by lia.
  destruct (Nat.eq_dec ID1 ID2) as [->|Hne]; [lia|].
  assert (GP ID1 + cnt ID1 <= GP ID2) by (apply IH; lia). lia.
Qed.

Lemma offsets_le ID1 ID2 : ID1 <= ID2 -> ID2 <= NN -> GP ID1 <= GP ID2.
Proof.
  intros H1 H2. destruct (Nat.eq_dec ID1 ID2) as [->|Hne]; [lia|].
  assert (GP ID1 + cnt ID1 <= GP ID2) by (apply offsets_mono; lia). lia.
Qed.

Lemma tile_unique ID1 LN1 ID2 LN2 :
  ID1 < NN -> ID2 < NN -> LN1 < cnt ID1 -> LN2 < cnt ID2 ->
  GP ID1 + LN1 = GP ID2 + LN2 -> ID1 = ID2 /\ LN1 = LN2.
Proof.
  intros H1 H2 HL1 HL2 Heq.
  destruct (Nat.lt_trichotomy ID1 ID2) as [Hlt|[->|Hgt]].
  - assert (GP ID1 + cnt ID1 <= GP ID2) by (apply offsets_mono; lia). lia.
  - split; [reflexivity|lia].
  - assert (GP ID2 + cnt ID2 <= GP ID1) by (apply offsets_mono; lia). lia.
Qed.

Lemma tile_find k :
  GP 0 <= k < GP NN ->
  exists ID LN, ID < NN /\ LN < cnt ID /\ k = GP ID + LN.
Proof.
  assert (H : forall n, n <= NN -> GP 0 <= k < GP n ->
                exists ID LN, ID < n /\ LN < cnt ID /\ k = GP ID + LN).
  { induction n as [|n IH]; intros Hn Hk; [lia|].
    rewrite GP_next in Hk by lia.
    destruct (Nat.lt_ge_cases k (GP n)) as [Hlt|Hge].
    - destruct IH as (ID & LN & H1 & H2 & H3); [lia|lia|].
      exists ID, LN. repeat split; [lia|exact H2|exact H3].
    - exists n, (k - GP n). repeat split; lia. }
  intros Hk. destruct (H NN (Nat.le_refl _) Hk) as (ID & LN & H1 & H2 & H3).
  exists ID, LN. auto.
Qed.

End Offsets.

Lemma NoDup_index_lists (f : nat -> nat -> nat) (n : nat -> nat) (L : list nat) :
  NoDup L ->
  (forall s1 l1 s2 l2,
     In s1 L -> In s2 L -> l1 < n s1 -> l2 < n s2 ->
     f s1 l1 = f s2 l2 -> s1 = s2 /\ l1 = l2) ->
  NoDup (flat_map (fun s => map (f s) (seq 0 (n s))) L).
Proof.
  induction L as [|a L IH]; intros Hnd Hinj; [constructor|].
  apply NoDup_cons_iff in Hnd. destruct Hnd as [Ha Hnd].
  cbn [flat_map]. apply NoDup_app.
  - apply Finite.Injective_map_NoDup_in; [|apply seq_NoDup].
    intros x y Hx Hy Hxy. apply in_seq in Hx. apply in_seq in Hy.
    apply (Hinj a x a y); try (left; reflexivity); try lia.
  - apply IH; [exact Hnd|].
    intros s1 l1 s2 l2 H1 H2. apply Hinj; right; assumption.
  - intros x Hx Hx'.
    apply In_map_seq in Hx. destruct Hx as (l & Hl & <-).
    apply in_flat_map in Hx'. destruct Hx' as (s & Hs & Hx').
    apply In_map_seq in Hx'. destruct Hx' as (l' & Hl' & Heq).
    destruct (Hinj s l' a l) as [-> _]; try assumption.
    + right. exact Hs.
    + left. reflexivity.
    + contradiction.
Qed.

(** *** What each loop leaves in the arrays, under a valid plan *)

Section ValidRun.

Variable numprocs : nat.
Variable plans : nat -> plan.
Variables NumGridB NumGridC : nat -> nat.
Hypothesis Hvalid : valid_plan numprocs plans NumGridB NumGridC.

Variable data_B : nat -> field.
Variables Snd0 Rcv0 : nat -> field.

Local Abbreviation Work_Snd := (Work_Array_Snd_Grid_B2C plans data_B Snd0).
Local Abbreviation Work_Rcv := (Work_Array_Rcv_Grid_B2C plans data_B Snd0 Rcv0).
Local Abbreviation B2C := (Data_Grid_Copy_B2C_XiwenLi plans data_B Snd0 Rcv0).

Lemma snd_position_unique r ID1 ID2 :
  r < numprocs -> ID1 < NN_B2C_S (plans r) -> ID2 < NN_B2C_S (plans r) ->
  ID_NN_B2C_S (plans r) ID1 = ID_NN_B2C_S (plans r) ID2 -> ID1 = ID2.
Proof.
  intros Hr. apply NoDup_map_seq_inj. apply (vp_snd_nodup _ _ _ _ Hvalid r Hr).
Qed.

Lemma rcv_position_unique r ID1 ID2 :
  r < numprocs -> ID1 < NN_B2C_R (plans r) -> ID2 < NN_B2C_R (plans r) ->
  ID_NN_B2C_R (plans r) ID1 = ID_NN_B2C_R (plans r) ID2 -> ID1 = ID2.
Proof.
  intros Hr. apply NoDup_map_seq_inj. apply (vp_rcv_nodup _ _ _ _ Hvalid r Hr).
Qed.

Lemma rcv_partner_rank r ID :
  r < numprocs -> ID < NN_B2C_R (plans r) ->
  ID_NN_B2C_R (plans r) ID < numprocs.
Proof.
  intros Hr HID.
  apply (vp_rcv_partners _ _ _ _ Hvalid r _ Hr).
  apply In_map_seq. exists ID. split; [exact HID|reflexivity].
Qed.

Lemma snd_partner_rank r ID :
  r < numprocs -> ID < NN_B2C_S (plans r) ->
  ID_NN_B2C_S (plans r) ID < numprocs.
Proof.
  intros Hr HID.
  apply (vp_snd_partners _ _ _ _ Hvalid r _ Hr).
  apply In_map_seq. exists ID. split; [exact HID|reflexivity].
Qed.

Lemma rcv_position r s :
  r < numprocs -> s < numprocs -> Num_Rcv_Grid_B2C (plans r) s <> 0 ->
  exists ID, ID < NN_B2C_R (plans r) /\ ID_NN_B2C_R (plans r) ID = s.
Proof.
  intros Hr Hs Hn. apply In_map_seq.
  apply (vp_rcv_partners _ _ _ _ Hvalid r s Hr). split; assumption.
Qed.

Lemma snd_position r s :
  r < numprocs -> s < numprocs -> Num_Snd_Grid_B2C (plans r) s <> 0 ->
  exists ID, ID < NN_B2C_S (plans r) /\ ID_NN_B2C_S (plans r) ID = s.
Proof.
  intros Hr Hs Hn. apply In_map_seq.
  apply (vp_snd_partners _ _ _ _ Hvalid r s Hr). split; assumption.
Qed.

(** The send loop leaves, at the place of the [LN]-th value for the
    [ID]-th partner, the field value the send index list names. *)
Lemma packed_cell r ID LN :
  r < numprocs -> ID < NN_B2C_S (plans r) ->
  LN < Num_Snd_Grid_B2C (plans r) (ID_NN_B2C_S (plans r) ID) ->
  Work_Snd r (GP_B2C_S (plans r) ID + LN)
  = data_B r (Index_Snd_Grid_B2C (plans r) (ID_NN_B2C_S (plans r) ID) LN).
Proof.
  intros Hr HID HLN. unfold Work_Array_Snd_Grid_B2C.
  rewrite isend_loop_trace. cbn [fst].
  apply store_all_written.
  - apply in_flat_map. exists ID. split; [apply in_seq; lia|].
    apply in_map_iff. exists LN. split; [reflexivity|apply in_seq; lia].
  - intros v' Hv'. apply in_flat_map in Hv'. destruct Hv' as (ID' & HID' & Hv').
    apply in_map_iff in Hv'. destruct Hv' as (LN' & Heq & HLN').
    apply in_seq in HID'. apply in_seq in HLN'.
    injection Heq as Hk Hv. subst v'.
    destruct (tile_unique (GP_B2C_S (plans r))
                (fun ID => Num_Snd_Grid_B2C (plans r) (ID_NN_B2C_S (plans r) ID))
                (NN_B2C_S (plans r))
                (fun ID H => vp_snd_offsets _ _ _ _ Hvalid r ID Hr H)
                ID' LN' ID LN) as [-> ->]; try lia.
    reflexivity.
Qed.

Lemma sends_trace r : sends plans data_B Snd0 r = isend_posts r (plans r).
Proof. unfold sends. rewrite isend_loop_trace. reflexivity. Qed.

(** The message a rank has posted for one of its remote partners. *)
Lemma message_from_partner s r ID :
  s < numprocs -> ID < NN_B2C_S (plans s) ->
  ID_NN_B2C_S (plans s) ID = r -> r <> s ->
  message_from plans data_B Snd0 s r
  = Some {| partner := r; offset := GP_B2C_S (plans s) ID;
            count := Num_Snd_Grid_B2C (plans s) r |}.
Proof.
  intros Hs HID Hr Hne. unfold message_from. rewrite sends_trace.
  destruct (find _ _) as [m|] eqn:E.
  - apply find_some in E. destruct E as [Hin Hm].
    apply Nat.eqb_eq in Hm.
    apply in_flat_map in Hin. destruct Hin as (ID' & HID' & Hin).
    apply in_seq in HID'.
    destruct (negb (ID_NN_B2C_S (plans s) ID' =? s)); [|destruct Hin].
    destruct Hin as [<-|[]]. cbn [partner] in Hm.
    assert (ID' = ID) as -> by (apply (snd_position_unique s); try lia; congruence).
    rewrite Hr. reflexivity.
  - exfalso.
    pose proof (find_none _ _ E
                  {| partner := r; offset := GP_B2C_S (plans s) ID;
                     count := Num_Snd_Grid_B2C (plans s) r |}) as Hnone.
    cbn [partner] in Hnone. rewrite Nat.eqb_refl in Hnone.
    assert (Hf : true = false); [|discriminate Hf].
    apply Hnone. apply in_flat_map. exists ID. split; [apply in_seq; lia|].
    rewrite Hr. destruct (Nat.eqb_spec r s) as [Heq|_]; [contradiction|].
    left. reflexivity.
Qed.

(** The writes of one completed receive, and of [MPI_Waitall]. *)
Definition recv_writes (r : nat) (q : request) : list write :=
match message_from plans data_B Snd0 (partner q) r with
| Some m =>
    map (fun k => (offset q + k, Work_Snd (partner q) (offset m + k)))
      (seq 0 (Nat.min (count q) (count m)))
| None => []
end.

Lemma complete_trace r q W :
  complete plans data_B Snd0 r q W = store_all (recv_writes r q) W.
Proof.
  unfold complete, recv_writes.
  destruct (message_from plans data_B Snd0 (partner q) r) as [m|]; [|reflexivity].
  apply (for_each_store
           (fun k => (offset q + k, Work_Snd (partner q) (offset m + k)))).
Qed.

Lemma waitall_trace r order W :
  waitall plans data_B Snd0 r order W
  = store_all (flat_map (recv_writes r) order) W.
Proof.
  unfold waitall. revert W.
  induction order as [|q order IH]; intros W; [reflexivity|].
  cbn [fold_left flat_map]. rewrite IH, complete_trace, store_all_app.
  reflexivity.
Qed.

(** A posted receive, seen from the plan. *)
Lemma irecv_posted r q :
  r < numprocs ->
  In q (irecv_loop r (plans r)) ->
  exists ID,
    ID < NN_B2C_R (plans r) /\ ID_NN_B2C_R (plans r) ID <> r /\
    q = {| partner := ID_NN_B2C_R (plans r) ID;
           offset := GP_B2C_R (plans r) ID;
           count := Num_Rcv_Grid_B2C (plans r) (ID_NN_B2C_R (plans r) ID) |}.
Proof.
  intros Hr Hin. rewrite irecv_loop_trace in Hin.
  apply in_flat_map in Hin. destruct Hin as (ID & HID & Hin).
  apply in_seq in HID.
  destruct (Nat.eqb_spec (ID_NN_B2C_R (plans r) ID) r) as [Heq|Hne];
    cbn [negb] in Hin; [destruct Hin|].
  destruct Hin as [<-|[]]. exists ID. repeat split; [lia|exact Hne].
Qed.

(** What a receive from a remote partner leaves in the receive work array,
    whatever the order of completion. *)
Lemma received_cell r ID LN order :
  r < numprocs -> ID < NN_B2C_R (plans r) ->
  ID_NN_B2C_R (plans r) ID <> r ->
  LN < Num_Rcv_Grid_B2C (plans r) (ID_NN_B2C_R (plans r) ID) ->
  Permutation order (irecv_loop r (plans r)) ->
  Work_Rcv r order (GP_B2C_R (plans r) ID + LN)
  = data_B (ID_NN_B2C_R (plans r) ID)
      (Index_Snd_Grid_B2C (plans (ID_NN_B2C_R (plans r) ID)) r LN).
Proof.
  intros Hr HID Hne HLN Hperm.
  set (s := ID_NN_B2C_R (plans r) ID) in *.
  assert (Hs : s < numprocs) by (apply rcv_partner_rank; assumption).
  assert (Hcnt : Num_Snd_Grid_B2C (plans s) r = Num_Rcv_Grid_B2C (plans r) s)
    by (apply (vp_counts _ _ _ _ Hvalid); assumption).
  destruct (snd_position s r Hs Hr ltac:(lia)) as (ID' & HID' & HIDr).
  assert (Hmsg := message_from_partner s r ID' Hs HID' HIDr ltac:(congruence)).
  assert (Hcell : Work_Snd s (GP_B2C_S (plans s) ID' + LN)
                  = data_B s (Index_Snd_Grid_B2C (plans s) r LN)).
  { rewrite <- HIDr. apply packed_cell; try assumption.
    rewrite HIDr. lia. }
  rewrite <- Hcell.
  unfold Work_Array_Rcv_Grid_B2C. rewrite waitall_trace.
  apply store_all_written.
  - apply in_flat_map.
    exists {| partner := s; offset := GP_B2C_R (plans r) ID;
              count := Num_Rcv_Grid_B2C (plans r) s |}.
    split.
    + apply (Permutation_in _ (Permutation_sym Hperm)).
      rewrite irecv_loop_trace. apply in_flat_map. exists ID.
      split; [apply in_seq; lia|]. fold s.
      destruct (Nat.eqb_spec s r) as [Heq|_]; [contradiction|].
      left. reflexivity.
    + unfold recv_writes. cbn [partner offset count]. rewrite Hmsg.
      cbn [offset count]. apply in_map_iff. exists LN.
      split; [reflexivity|]. apply in_seq. lia.
  - subst s.
    intros v' Hv'. apply in_flat_map in Hv'. destruct Hv' as (q & Hq & Hv').
    apply (Permutation_in _ Hperm) in Hq.
    destruct (irecv_posted r q Hr Hq) as (ID2 & HID2 & Hne2 & ->).
    unfold recv_writes in Hv'. cbn [partner offset count] in Hv'.
    destruct (message_from plans data_B Snd0 (ID_NN_B2C_R (plans r) ID2) r)
      as [m|] eqn:Em; [|destruct Hv'].
    apply in_map_iff in Hv'. destruct Hv' as (k & Heq & Hk).
    apply in_seq in Hk. injection Heq as Hpos Hv. subst v'.
    destruct (tile_unique (GP_B2C_R (plans r))
                (fun ID => Num_Rcv_Grid_B2C (plans r) (ID_NN_B2C_R (plans r) ID))
                (NN_B2C_R (plans r))
                (fun ID H => vp_rcv_offsets _ _ _ _ Hvalid r ID Hr H)
                ID2 k ID LN) as [-> ->]; try lia.
    rewrite Hmsg in Em. injection Em as <-. reflexivity.
Qed.

(** The receive index lists of a rank name pairwise distinct slots. *)
Lemma rcv_slot_unique r s1 l1 s2 l2 :
  r < numprocs -> s1 < numprocs -> s2 < numprocs ->
  l1 < Num_Rcv_Grid_B2C (plans r) s1 -> l2 < Num_Rcv_Grid_B2C (plans r) s2 ->
  Index_Rcv_Grid_B2C (plans r) s1 l1 = Index_Rcv_Grid_B2C (plans r) s2 l2 ->
  s1 = s2 /\ l1 = l2.
Proof.
  intros Hr H1 H2 Hl1 Hl2 Heq.
  apply (index_lists_inj (Index_Rcv_Grid_B2C (plans r))
           (Num_Rcv_Grid_B2C (plans r)) (seq 0 numprocs));
    try assumption; try (apply in_seq; lia).
  apply (Permutation_NoDup
           (Permutation_sym (vp_rcv_indices _ _ _ _ Hvalid r Hr))).
  apply seq_NoDup.
Qed.

(** The copy loop leaves in each listed slot the work-array cell it reads
    for it. *)
Lemma unpacked_cell r ID LN order (data_C : logged) :
  r < numprocs -> ID < NN_B2C_R (plans r) ->
  LN < Num_Rcv_Grid_B2C (plans r) (ID_NN_B2C_R (plans r) ID) ->
  fst (B2C r order data_C)
    (Index_Rcv_Grid_B2C (plans r) (ID_NN_B2C_R (plans r) ID) LN)
  = if ID_NN_B2C_R (plans r) ID =? r
    then Work_Snd r (GP_B2C_S (plans r) ID + LN)
    else Work_Rcv r order (GP_B2C_R (plans r) ID + LN).
Proof.
  intros Hr HID HLN. unfold Data_Grid_Copy_B2C_XiwenLi.
  destruct data_C as [d log]. rewrite unpack_loop_trace. cbn [fst].
  apply store_all_written.
  - apply in_flat_map. exists ID. split; [apply in_seq; lia|].
    apply in_map_iff. exists LN. split; [reflexivity|apply in_seq; lia].
  - intros v' Hv'. apply in_flat_map in Hv'. destruct Hv' as (ID' & HID' & Hv').
    apply in_map_iff in Hv'. destruct Hv' as (LN' & Heq & HLN').
    apply in_seq in HID'. apply in_seq in HLN'.
    injection Heq as Hk Hv. subst v'.
    destruct (rcv_slot_unique r _ LN' _ LN Hr
                (rcv_partner_rank r ID' Hr ltac:(lia))
                (rcv_partner_rank r ID Hr HID) ltac:(lia) HLN Hk) as [Hs ->].
    assert (ID' = ID) as -> by (apply (rcv_position_unique r); try lia; exact Hs).
    reflexivity.
Qed.

(** The slots the copy loop writes, in order. *)
Lemma unpack_targets r (WS WR : field) :
  map fst (unpack_writes r (plans r) WS WR)
  = flat_map (fun ID =>
                map (Index_Rcv_Grid_B2C (plans r) (ID_NN_B2C_R (plans r) ID))
                  (seq 0 (Num_Rcv_Grid_B2C (plans r) (ID_NN_B2C_R (plans r) ID))))
      (seq 0 (NN_B2C_R (plans r))).
Proof.
  unfold unpack_writes.
  induction (seq 0 (NN_B2C_R (plans r))) as [|ID l IH]; [reflexivity|].
  cbn [flat_map]. rewrite map_app, IH, map_map. reflexivity.
Qed.

Lemma unpack_targets_NoDup r (WS WR : field) :
  r < numprocs -> NoDup (map fst (unpack_writes r (plans r) WS WR)).
Proof.
  intros Hr. rewrite unpack_targets.
  apply (NoDup_index_lists
           (fun ID => Index_Rcv_Grid_B2C (plans r) (ID_NN_B2C_R (plans r) ID))
           (fun ID => Num_Rcv_Grid_B2C (plans r) (ID_NN_B2C_R (plans r) ID)));
    [apply seq_NoDup|].
  intros ID1 l1 ID2 l2 H1 H2 Hl1 Hl2 Heq.
  apply in_seq in H1. apply in_seq in H2.
  destruct (rcv_slot_unique r _ l1 _ l2 Hr
              (rcv_partner_rank r ID1 Hr ltac:(lia))
              (rcv_partner_rank r ID2 Hr ltac:(lia)) Hl1 Hl2 Heq) as [Hs ->].
  split; [|reflexivity].
  apply (rcv_position_unique r); lia || exact Hs.
Qed.

(** Every slot named in a receive list is written exactly once. *)
Lemma slot_written_once r s LN order (d : field) :
  r < numprocs -> s < numprocs -> LN < Num_Rcv_Grid_B2C (plans r) s ->
  count_occ Nat.eq_dec (snd (B2C r order (d, [])))
    (Index_Rcv_Grid_B2C (plans r) s LN) = 1.
Proof.
  intros Hr Hs HLN. unfold Data_Grid_Copy_B2C_XiwenLi.
  rewrite unpack_loop_trace. cbn [snd app].
  apply NoDup_count_occ'; [apply unpack_targets_NoDup; exact Hr|].
  rewrite unpack_targets.
  destruct (rcv_position r s Hr Hs ltac:(lia)) as (ID & HID & HIDs).
  apply in_flat_map. exists ID. split; [apply in_seq; lia|].
  rewrite HIDs. apply In_map_seq. exists LN. split; [exact HLN|reflexivity].
Qed.

(** With the own rank at the same position in both partner lists, each
    listed slot ends with the value of the grid point the sender lists at
    the same place. *)
Lemma transferred r s LN order (data_C : logged) :
  self_aligned numprocs plans ->
  r < numprocs -> s < numprocs -> LN < Num_Rcv_Grid_B2C (plans r) s ->
  Permutation order (irecv_loop r (plans r)) ->
  fst (B2C r order data_C) (Index_Rcv_Grid_B2C (plans r) s LN)
  = data_B s (Index_Snd_Grid_B2C (plans s) r LN).
Proof.
  intros Hal Hr Hs HLN Hperm.
  destruct (rcv_position r s Hr Hs ltac:(lia)) as (ID & HID & HIDs).
  rewrite <- HIDs at 1. rewrite unpacked_cell by (try assumption; rewrite HIDs; lia).
  destruct (Nat.eqb_spec (ID_NN_B2C_R (plans r) ID) r) as [Heq|Hne].
  - assert (s = r) as -> by congruence.
    destruct (Hal r ID Hr HID Heq) as [HIDS HIDSr].
    rewrite packed_cell; try assumption.
    + rewrite HIDSr. reflexivity.
    + rewrite HIDSr, (vp_counts _ _ _ _ Hvalid r r Hr Hr). exact HLN.
  - rewrite received_cell by (try assumption; rewrite HIDs; lia).
    rewrite HIDs. reflexivity.
Qed.

(** The own part is copied, whatever the network does. *)
Lemma self_copied r LN order (data_C : logged) :
  self_aligned numprocs plans ->
  r < numprocs -> LN < Num_Snd_Grid_B2C (plans r) r ->
  fst (B2C r order data_C) (Index_Rcv_Grid_B2C (plans r) r LN)
  = data_B r (Index_Snd_Grid_B2C (plans r) r LN).
Proof.
  intros Hal Hr HLN.
  assert (Hcnt := vp_counts _ _ _ _ Hvalid r r Hr Hr).
  destruct (rcv_position r r Hr Hr ltac:(lia)) as (ID & HID & HIDr).
  destruct (Hal r ID Hr HID HIDr) as [HIDS HIDSr].
  rewrite <- HIDr at 3. rewrite unpacked_cell by (try assumption; rewrite HIDr; lia).
  rewrite HIDr, Nat.eqb_refl.
  rewrite packed_cell; try assumption.
  - rewrite HIDSr. reflexivity.
  - rewrite HIDSr. exact HLN.
Qed.

Lemma snd_index_range r s LN :
  r < numprocs -> s < numprocs -> LN < Num_Snd_Grid_B2C (plans r) s ->
  Index_Snd_Grid_B2C (plans r) s LN < NumGridB r.
Proof.
  intros Hr Hs HLN.
  assert (Hin : In (Index_Snd_Grid_B2C (plans r) s LN) (seq 0 (NumGridB r))).
  { apply (Permutation_in _ (vp_snd_indices _ _ _ _ Hvalid r Hr)).
    apply in_flat_map. exists s. split; [apply in_seq; lia|].
    apply In_map_seq. exists LN. split; [exact HLN|reflexivity]. }
  apply in_seq in Hin. lia.
Qed.



End ValidRun.


(** *** Sums of fields *)

Local Open Scope R_scope.

Definition sumR (l : list R) : R := fold_right Rplus 0 l.

(** The sum of the first [n] cells of a field, and the sum over all ranks. *)
Definition field_sum (n : nat) (a : field) : R := sumR (map a (seq 0 n)).

Definition total (numprocs : nat) (len : nat -> nat) (a : nat -> field) : R :=
sumR (map (fun r => field_sum (len r) (a r)) (seq 0 numprocs)).

Lemma sumR_app l1 l2 : sumR (l1 ++ l2) = sumR l1 + sumR l2.
Proof.
  unfold sumR. induction l1 as [|x l1 IH]; cbn; [lra|]. rewrite IH. lra.
Qed.

Lemma sumR_Permutation l1 l2 : Permutation l1 l2 -> sumR l1 = sumR l2.
Proof.
  induction 1 as [|x l1 l2 _ IH|x y l|l1 l2 l3 _ IH1 _ IH2];
    unfold sumR in *; cbn; lra.
Qed.

Lemma sumR_map_flat_map {A B : Type} (f : B -> R) (g : A -> list B) l :
  sumR (map f (flat_map g l)) = sumR (map (fun x => sumR (map f (g x))) l).
Proof.
  induction l as [|x l IH]; [reflexivity|].
  cbn [flat_map map sumR fold_right]. rewrite map_app, sumR_app.
  fold (sumR (map (fun x => sumR (map f (g x))) l)). rewrite IH. reflexivity.
Qed.

Lemma sumR_map_ext {A : Type} (f g : A -> R) l :
  (forall x, In x l -> f x = g x) -> sumR (map f l) = sumR (map g l).
Proof. intros H. f_equal. apply map_ext_in. exact H. Qed.

Lemma sumR_map_plus {A : Type} (f g : A -> R) l :
  sumR (map (fun x => f x + g x) l) = sumR (map f l) + sumR (map g l).
Proof.
  unfold sumR. induction l as [|x l IH]; cbn; [lra|]. rewrite IH. lra.
Qed.

Lemma sumR_map_zero {A : Type} (l : list A) : sumR (map (fun _ => 0) l) = 0.
Proof.
  unfold sumR. induction l as [|x l IH]; cbn; [reflexivity|]. rewrite IH. lra.
Qed.

Lemma sumR_swap {A B : Type} (F : A -> B -> R) (L1 : list A) (L2 : list B) :
  sumR (map (fun x => sumR (map (fun y => F x y) L2)) L1)
  = sumR (map (fun y => sumR (map (fun x => F x y) L1)) L2).
Proof.
  induction L1 as [|a L1 IH].
  - cbn. symmetry. apply sumR_map_zero.
  - cbn [map sumR fold_right].
    fold (sumR (map (fun x => sumR (map (fun y => F x y) L2)) L1)).
    rewrite IH.
    rewrite <- (sumR_map_plus (fun y => F a y)
                  (fun y => sumR (map (fun x => F x y) L1))).
    reflexivity.
Qed.

Lemma field_sum_rcv numprocs plans NumGridB NumGridC r (a : field) :
  valid_plan numprocs plans NumGridB NumGridC -> (r < numprocs)%nat ->
  field_sum (NumGridC r) a
  = sumR (map (fun s =>
                 sumR (map (fun LN => a (Index_Rcv_Grid_B2C (plans r) s LN))
                         (seq 0 (Num_Rcv_Grid_B2C (plans r) s))))
            (seq 0 numprocs)).
Proof.
  intros Hvalid Hr. unfold field_sum.
  rewrite <- (sumR_Permutation _ _
                (Permutation_map a (vp_rcv_indices _ _ _ _ Hvalid r Hr))).
  unfold rcv_index_lists. rewrite sumR_map_flat_map.
  apply sumR_map_ext. intros s _. rewrite map_map. reflexivity.
Qed.

Lemma field_sum_snd numprocs plans NumGridB NumGridC r (a : field) :
  valid_plan numprocs plans NumGridB NumGridC -> (r < numprocs)%nat ->
  field_sum (NumGridB r) a
  = sumR (map (fun s =>
                 sumR (map (fun LN => a (Index_Snd_Grid_B2C (plans r) s LN))
                         (seq 0 (Num_Snd_Grid_B2C (plans r) s))))
            (seq 0 numprocs)).
Proof.
  intros Hvalid Hr. unfold field_sum.
  rewrite <- (sumR_Permutation _ _
                (Permutation_map a (vp_snd_indices _ _ _ _ Hvalid r Hr))).
  unfold snd_index_lists. rewrite sumR_map_flat_map.
  apply sumR_map_ext. intros s _. rewrite map_map. reflexivity.
Qed.

(** *** The routine as a call that returns, or does not *)




Section Run.

Variable numprocs : nat.
Variable plans : nat -> plan.
(** The lengths of [data_B] and of [data_C] on each rank. *)
Variables lenB lenC : nat -> nat.
(** Whether the library completes a send that no receive matches (it may
    buffer the message, or wait for the receive). *)
Variable eager : bool.
Variable data_B : nat -> field.
Variables Snd0 Rcv0 : nat -> field.













End Run.


(** C4 (amended).  Under a valid plan in which, moreover, the own rank sits
    at the same position in the send and in the receive partner list of
    every process, the sum over all processes of the partition-C field after
    the redistribution equals the sum over all processes of the partition-B
    field, whatever the order in which the messages complete. *)
Theorem B2C_conserves_sum numprocs plans NumGridB NumGridC
  (data_B Snd0 Rcv0 : nat -> field) (order : nat -> list request)
  (data_C : nat -> logged) :
  valid_plan numprocs plans NumGridB NumGridC ->
  self_aligned numprocs plans ->
  (forall r, (r < numprocs)%nat ->
             Permutation (order r) (irecv_loop r (plans r))) ->
  total numprocs NumGridC
    (fun r => fst (Data_Grid_Copy_B2C_XiwenLi plans data_B Snd0 Rcv0 r
                     (order r) (data_C r)))
  = total numprocs NumGridB data_B.
Proof.
  intros Hvalid Hal Horder. unfold total.
  rewrite (sumR_map_ext _
             (fun r => sumR (map (fun s =>
                sumR (map (fun LN => data_B s (Index_Snd_Grid_B2C (plans s) r LN))
                        (seq 0 (Num_Snd_Grid_B2C (plans s) r))))
                (seq 0 numprocs)))).
  - rewrite sumR_swap. apply sumR_map_ext. intros s Hs. apply in_seq in Hs.
    symmetry. apply (field_sum_snd numprocs plans NumGridB NumGridC);
      [exact Hvalid|lia].
  - intros r Hr. apply in_seq in Hr.
    rewrite (field_sum_rcv numprocs plans NumGridB NumGridC r) by (assumption || lia).
    apply sumR_map_ext. intros s Hs. apply in_seq in Hs.
    rewrite (vp_counts _ _ _ _ Hvalid r s) by lia.
    apply sumR_map_ext. intros LN HLN. apply in_seq in HLN.
    apply (transferred numprocs plans NumGridB NumGridC Hvalid);
      try assumption; try lia.
    apply Horder. lia.
Qed.

(** C5 (amended).  Under a valid plan in which, moreover, the copy of the
    own part reads inside the send work array (the position [ID] of the own
    rank in the receive partner list is at most [NN_B2C_S], and
    [GP_B2C_S[ID] + Num_Rcv_Grid_B2C[myid] <= GP_B2C_S[NN_B2C_S]]), every
    partition-C slot named in a receive index list is written exactly once
    during a call, and the value it ends with is the value of exactly one
    source grid point, the same for every order in which the messages
    complete. *)
Theorem B2C_slot_single_source numprocs plans NumGridB NumGridC r s LN :
  valid_plan numprocs plans NumGridB NumGridC ->
  (r < numprocs)%nat -> (s < numprocs)%nat ->
  (LN < Num_Rcv_Grid_B2C (plans r) s)%nat ->
  let CN := Index_Rcv_Grid_B2C (plans r) s LN in
  (forall data_B Snd0 Rcv0 order (d : field),
     count_occ Nat.eq_dec
       (snd (Data_Grid_Copy_B2C_XiwenLi plans data_B Snd0 Rcv0 r order (d, [])))
       CN = 1%nat) /\
  exists s' BN,
    (s' < numprocs)%nat /\ (BN < NumGridB s')%nat /\
    (forall data_B Snd0 Rcv0 order data_C,
       Permutation order (irecv_loop r (plans r)) ->
       fst (Data_Grid_Copy_B2C_XiwenLi plans data_B Snd0 Rcv0 r order data_C) CN
       = data_B s' BN) /\
    (forall s'' BN'',
       (forall data_B Snd0 Rcv0 order data_C,
          Permutation order (irecv_loop r (plans r)) ->
          fst (Data_Grid_Copy_B2C_XiwenLi plans data_B Snd0 Rcv0 r order data_C) CN
          = data_B s'' BN'') ->
       s'' = s' /\ BN'' = BN).
Proof.
  intros Hvalid Hr Hs HLN CN.
  pose proof (vp_in_bounds _ _ _ _ Hvalid) as Hin. split.
  { intros data_B Snd0 Rcv0 order d.
    apply (slot_written_once numprocs plans NumGridB NumGridC Hvalid);
      assumption. }
  assert (Hsrc : exists s' BN,
             (s' < numprocs)%nat /\ (BN < NumGridB s')%nat /\
             forall data_B Snd0 Rcv0 order data_C,
               Permutation order (irecv_loop r (plans r)) ->
               fst (Data_Grid_Copy_B2C_XiwenLi plans data_B Snd0 Rcv0 r order
                      data_C) CN = data_B s' BN).
  { destruct (rcv_position numprocs plans NumGridB NumGridC Hvalid r s Hr Hs
                ltac:(lia)) as (ID & HID & HIDs).
    destruct (Nat.eq_dec s r) as [->|Hne].
    - destruct (Hin r ID Hr HID HIDs) as [Hle Hend].
      pose proof (offsets_le (GP_B2C_S (plans r))
                    (fun ID => Num_Snd_Grid_B2C (plans r) (ID_NN_B2C_S (plans r) ID))
                    (NN_B2C_S (plans r))
                    (fun ID H => vp_snd_offsets _ _ _ _ Hvalid r ID Hr H)
                    0 ID ltac:(lia) Hle) as H0.
      destruct (tile_find (GP_B2C_S (plans r))
                  (fun ID => Num_Snd_Grid_B2C (plans r) (ID_NN_B2C_S (plans r) ID))
                  (NN_B2C_S (plans r))
                  (fun ID H => vp_snd_offsets _ _ _ _ Hvalid r ID Hr H)
                  (GP_B2C_S (plans r) ID + LN)%nat ltac:(lia))
        as (ID' & LN' & HID' & HLN' & Hk).
      exists r, (Index_Snd_Grid_B2C (plans r) (ID_NN_B2C_S (plans r) ID') LN').
      split; [exact Hr|]. split.
      + apply (snd_index_range numprocs plans NumGridB NumGridC Hvalid);
          try assumption.
        apply (snd_partner_rank numprocs plans NumGridB NumGridC Hvalid);
          assumption.
      + intros data_B Snd0 Rcv0 order data_C _. unfold CN.
        replace (Index_Rcv_Grid_B2C (plans r) r LN)
          with (Index_Rcv_Grid_B2C (plans r) (ID_NN_B2C_R (plans r) ID) LN)
          by (rewrite HIDs; reflexivity).
        rewrite (unpacked_cell numprocs plans NumGridB NumGridC Hvalid)
          by (try assumption; rewrite HIDs; lia).
        rewrite HIDs, Nat.eqb_refl, Hk.
        apply (packed_cell numprocs plans NumGridB NumGridC Hvalid);
          assumption.
    - exists s, (Index_Snd_Grid_B2C (plans s) r LN).
      split; [exact Hs|]. split.
      + apply (snd_index_range numprocs plans NumGridB NumGridC Hvalid);
          try assumption.
        rewrite (vp_counts _ _ _ _ Hvalid r s Hr Hs). exact HLN.
      + intros data_B Snd0 Rcv0 order data_C Hperm. unfold CN.
        replace (Index_Rcv_Grid_B2C (plans r) s LN)
          with (Index_Rcv_Grid_B2C (plans r) (ID_NN_B2C_R (plans r) ID) LN)
          by (rewrite HIDs; reflexivity).
        rewrite (unpacked_cell numprocs plans NumGridB NumGridC Hvalid)
          by (try assumption; rewrite HIDs; lia).
        destruct (Nat.eqb_spec (ID_NN_B2C_R (plans r) ID) r) as [Heq|_];
          [congruence|].
        rewrite (received_cell numprocs plans NumGridB NumGridC Hvalid)
          by (try assumption; rewrite HIDs; (lia || congruence)).
        rewrite HIDs. reflexivity. }
  destruct Hsrc as (s' & BN & Hs' & HBN & Hsrc).
  exists s', BN. repeat split; try assumption.
  - pose proof (H (fun a b => if (a =? s')%nat && (b =? BN)%nat then 1 else 0)
                  (fun _ _ => 0) (fun _ _ => 0) (irecv_loop r (plans r))
                  (fun _ => 0, []) (Permutation_refl _)) as H1.
    rewrite Hsrc in H1 by apply Permutation_refl.
    rewrite !Nat.eqb_refl in H1. cbn [andb] in H1.
    destruct (Nat.eqb_spec s'' s') as [Heq|_]; [exact Heq|].
    cbn [andb] in H1. lra.
  - pose proof (H (fun a b => if (a =? s')%nat && (b =? BN)%nat then 1 else 0)
                  (fun _ _ => 0) (fun _ _ => 0) (irecv_loop r (plans r))
                  (fun _ => 0, []) (Permutation_refl _)) as H1.
    rewrite Hsrc in H1 by apply Permutation_refl.
    rewrite !Nat.eqb_refl in H1. cbn [andb] in H1.
    destruct (Nat.eqb_spec BN'' BN) as [Heq|_]; [exact Heq|].
    rewrite andb_false_r in H1. lra.
Qed.

(** C6 (amended).  No send and no receive is ever posted with the own rank
    as partner; and under a valid plan in which the own rank sits at the
    same position in the send and in the receive partner list, every value
    named in the send index list of the own rank ends in the slot
    [data_C[Index_Rcv_Grid_B2C[myid][LN]]]. *)
Theorem B2C_self_pair numprocs plans NumGridB NumGridC
  (data_B Snd0 Rcv0 : nat -> field) :
  (forall r q,
     In q (sends plans data_B Snd0 r) \/ In q (irecv_loop r (plans r)) ->
     partner q <> r) /\
  (valid_plan numprocs plans NumGridB NumGridC ->
   self_aligned numprocs plans ->
   forall r LN order data_C,
     (r < numprocs)%nat -> (LN < Num_Snd_Grid_B2C (plans r) r)%nat ->
     fst (Data_Grid_Copy_B2C_XiwenLi plans data_B Snd0 Rcv0 r order data_C)
       (Index_Rcv_Grid_B2C (plans r) r LN)
     = data_B r (Index_Snd_Grid_B2C (plans r) r LN)).
Proof.
  split.
  - intros r q [Hq|Hq].
    + unfold sends in Hq. rewrite isend_loop_trace in Hq. cbn [snd] in Hq.
      apply in_flat_map in Hq. destruct Hq as (ID & _ & Hq).
      destruct (Nat.eqb_spec (ID_NN_B2C_S (plans r) ID) r) as [Heq|Hne];
        cbn [negb] in Hq; [destruct Hq|].
      destruct Hq as [<-|[]]. exact Hne.
    + rewrite irecv_loop_trace in Hq.
      apply in_flat_map in Hq. destruct Hq as (ID & _ & Hq).
      destruct (Nat.eqb_spec (ID_NN_B2C_R (plans r) ID) r) as [Heq|Hne];
        cbn [negb] in Hq; [destruct Hq|].
      destruct Hq as [<-|[]]. exact Hne.
  - intros Hvalid Hal r LN order data_C Hr HLN.
    apply (self_copied numprocs plans NumGridB NumGridC Hvalid); assumption.
Qed.


(** *** Two processes *)

(** Arrays given by the list of their first cells. *)
Definition table (l : list nat) (i : nat) : nat := nth i l 0%nat.

Definition table2 (l : list (list nat)) (i j : nat) : nat :=
nth j (nth i l []) 0%nat.

Definition values (l : list (list R)) (r i : nat) : R := nth i (nth r l []) 0.

(** Rank 0 holds three partition-B points and two partition-C slots, rank 1
    one point and two slots.  Rank 0 keeps its point 0 and sends its points
    1 and 2 to rank 1; rank 1 sends its point to rank 0.  Rank 0 lists
    itself first among its send partners; [rcv_order] is its list of
    receive partners. *)
Definition rank0_plan (rcv_order : list nat) : plan :=
{| NN_B2C_S := 2; NN_B2C_R := 2;
   ID_NN_B2C_S := table [0; 1]%nat;
   ID_NN_B2C_R := table rcv_order;
   GP_B2C_S := table [0; 1; 3]%nat;
   GP_B2C_R := table [0; 1; 2]%nat;
   Num_Snd_Grid_B2C := table [1; 2]%nat;
   Num_Rcv_Grid_B2C := table [1; 1]%nat;
   Index_Snd_Grid_B2C := table2 [[0]; [1; 2]]%nat;
   Index_Rcv_Grid_B2C := table2 [[0]; [1]]%nat |}.

Definition rank1_plan : plan :=
{| NN_B2C_S := 1; NN_B2C_R := 1;
   ID_NN_B2C_S := table [0]%nat;
   ID_NN_B2C_R := table [0]%nat;
   GP_B2C_S := table [0; 1]%nat;
   GP_B2C_R := table [0; 2]%nat;
   Num_Snd_Grid_B2C := table [1]%nat;
   Num_Rcv_Grid_B2C := table [2]%nat;
   Index_Snd_Grid_B2C := table2 [[0]]%nat;
   Index_Rcv_Grid_B2C := table2 [[0; 1]]%nat |}.

Definition two_ranks (rcv_order : list nat) (r : nat) : plan :=
match r with
| O => rank0_plan rcv_order
| _ => rank1_plan
end.

Definition lengths_B : nat -> nat := table [3; 1]%nat.
Definition lengths_C : nat -> nat := table [2; 2]%nat.

(** The field: 1 at point 0 of rank 0, 0 elsewhere. *)
Definition field_B : nat -> field := values [[1; 0; 0]; [0]].

Definition blank : nat -> field := fun _ _ => 0.

(** The receives complete in the order in which they were posted. *)
Definition as_posted (plans : nat -> plan) (r : nat) : list request :=
irecv_loop r (plans r).

Ltac by_rank r := destruct r as [|[|r]]; [ | | exfalso; lia].

Lemma two_ranks_valid rcv_order :
  rcv_order = [0; 1]%nat \/ rcv_order = [1; 0]%nat ->
  valid_plan 2 (two_ranks rcv_order) lengths_B lengths_C.
Proof.
  intros Ho. split.
  - intros r Hr. by_rank r; cbn;
      repeat (constructor; [cbn; intuition congruence|]); constructor.
  - intros r Hr. by_rank r; [destruct Ho as [-> | ->]|]; cbn;
      repeat (constructor; [cbn; intuition congruence|]); constructor.
  - intros r s Hr. by_rank r; destruct s as [|[|s]]; cbn;
      intuition (lia || congruence).
  - intros r s Hr. by_rank r; [destruct Ho as [-> | ->]|];
      destruct s as [|[|s]]; cbn; intuition (lia || congruence).
  - intros r ID Hr HID. by_rank r; cbn in HID;
      destruct ID as [|[|ID]]; cbn; lia.
  - intros r ID Hr HID. by_rank r; [destruct Ho as [-> | ->]|]; cbn in HID;
      destruct ID as [|[|ID]]; cbn; lia.
  - intros r s Hr Hs. by_rank r; by_rank s; reflexivity.
  - intros r Hr. by_rank r; cbn; apply Permutation_refl.
  - intros r Hr. by_rank r; cbn; apply Permutation_refl.
  - intros r ID Hr HID Heq.
    by_rank r; [destruct Ho as [-> | ->]|]; cbn in HID;
      destruct ID as [|[|ID]]; cbn in *; lia.
Defined.

Lemma two_ranks_aligned : self_aligned 2 (two_ranks [0; 1]%nat).
Proof.
  intros r ID Hr HID Heq. by_rank r; cbn in HID;
    destruct ID as [|[|ID]]; cbn in *; try lia; split; (lia || reflexivity).
Defined.

(** With rank 0 first in both partner lists of rank 0, the sums agree. *)
Lemma B2C_conserves_sum_witness :
  total 2 lengths_C
    (fun r => fst (Data_Grid_Copy_B2C_XiwenLi (two_ranks [0; 1]%nat) field_B
                     blank blank r (as_posted (two_ranks [0; 1]%nat) r)
                     (blank r, [])))
  = total 2 lengths_B field_B.
Proof.
  apply (B2C_conserves_sum 2 (two_ranks [0; 1]%nat) lengths_B lengths_C).
  - apply two_ranks_valid. left. reflexivity.
  - apply two_ranks_aligned.
  - intros r _. apply Permutation_refl.
Defined.

(** C4, as stated, fails: the plan [two_ranks [1; 0]] is valid (every index
    in exactly one list, matching counts), yet the sum of the partition-C
    fields is 0 and that of the partition-B fields is 1.  Rank 0 lists
    itself second among its receive partners, and its copy loop reads the
    send work array at the offset of the part for rank 1. *)
Lemma B2C_sum_not_conserved :
  valid_plan 2 (two_ranks [1; 0]%nat) lengths_B lengths_C /\
  (forall r, Permutation (as_posted (two_ranks [1; 0]%nat) r)
               (irecv_loop r (two_ranks [1; 0]%nat r))) /\
  total 2 lengths_C
    (fun r => fst (Data_Grid_Copy_B2C_XiwenLi (two_ranks [1; 0]%nat) field_B
                     blank blank r (as_posted (two_ranks [1; 0]%nat) r)
                     (blank r, [])))
  <> total 2 lengths_B field_B.
Proof.
  split; [apply two_ranks_valid; right; reflexivity|].
  split; [intros r; apply Permutation_refl|].
  vm_compute. lra.
Qed.

(** The slot 1 of rank 1 receives point 2 of rank 0. *)
Lemma B2C_slot_single_source_witness :
  count_occ Nat.eq_dec
    (snd (Data_Grid_Copy_B2C_XiwenLi (two_ranks [0; 1]%nat) field_B blank blank
            1 (as_posted (two_ranks [0; 1]%nat) 1) (blank 1%nat, [])))
    (Index_Rcv_Grid_B2C (two_ranks [0; 1]%nat 1) 0 1) = 1%nat.
Proof.
  apply (B2C_slot_single_source 2 (two_ranks [0; 1]%nat) lengths_B lengths_C
           1 0 1).
  - apply two_ranks_valid. left. reflexivity.
  - lia.
  - lia.
  - cbn. lia.
Defined.

(** *** A plan whose own part is read outside the send work array *)

(** Rank 0 holds one partition-B point and two partition-C slots: it keeps
    its point, for its slot 1, and receives the point of rank 1 in its
    slot 0.  It sends to no other rank, so its send work array has one
    cell; it lists rank 1 before itself among its receive partners. *)
Definition overrun0 : plan :=
{| NN_B2C_S := 1; NN_B2C_R := 2;
   ID_NN_B2C_S := table [0]%nat;
   ID_NN_B2C_R := table [1; 0]%nat;
   GP_B2C_S := table [0; 1]%nat;
   GP_B2C_R := table [0; 1; 2]%nat;
   Num_Snd_Grid_B2C := table [1; 0]%nat;
   Num_Rcv_Grid_B2C := table [1; 1]%nat;
   Index_Snd_Grid_B2C := table2 [[0]; []]%nat;
   Index_Rcv_Grid_B2C := table2 [[1]; [0]]%nat |}.

Definition overrun1 : plan :=
{| NN_B2C_S := 1; NN_B2C_R := 0;
   ID_NN_B2C_S := table [0]%nat;
   ID_NN_B2C_R := table []%nat;
   GP_B2C_S := table [0; 1]%nat;
   GP_B2C_R := table [0]%nat;
   Num_Snd_Grid_B2C := table [1; 0]%nat;
   Num_Rcv_Grid_B2C := table [0; 0]%nat;
   Index_Snd_Grid_B2C := table2 [[0]; []]%nat;
   Index_Rcv_Grid_B2C := table2 [[]; []]%nat |}.

Definition overrun (r : nat) : plan :=
match r with
| O => overrun0
| _ => overrun1
end.

Definition overrun_B : nat -> nat := table [1; 1]%nat.
Definition overrun_C : nat -> nat := table [2; 0]%nat.

Lemma overrun_lists : valid_lists 2 overrun overrun_B overrun_C.
Proof.
  split.
  - intros r Hr. by_rank r; cbn;
      repeat (constructor; [cbn; intuition congruence|]); constructor.
  - intros r Hr. by_rank r; cbn;
      repeat (constructor; [cbn; intuition congruence|]); constructor.
  - intros r s Hr. by_rank r; destruct s as [|[|s]]; cbn;
      intuition (lia || congruence).
  - intros r s Hr. by_rank r; destruct s as [|[|s]]; cbn;
      intuition (lia || congruence).
  - intros r ID Hr HID. by_rank r; cbn in HID;
      destruct ID as [|[|ID]]; cbn; lia.
  - intros r ID Hr HID. by_rank r; cbn in HID;
      destruct ID as [|[|ID]]; cbn; lia.
  - intros r s Hr Hs. by_rank r; by_rank s; reflexivity.
  - intros r Hr. by_rank r; cbn; apply Permutation_refl.
  - intros r Hr. by_rank r; cbn; [apply perm_swap|apply Permutation_refl].
Qed.

(** C5, as stated, fails: the plan [overrun] meets the conditions on the
    lists (every index in exactly one list, matching counts, partners
    without repetition, offsets one after the other), and the slot 1 of
    rank 0 is the one its receive list for itself names.  The copy of the
    own part takes the offset [GP_B2C_S[1] = 1], the size of the send work
    array, and reads the cell 1, which is outside it: the slot ends with
    what the memory holds there, and with the value of no grid point. *)
Lemma B2C_slot_read_outside :
  valid_lists 2 overrun overrun_B overrun_C /\
  (0 < Num_Rcv_Grid_B2C (overrun 0) 0)%nat /\
  Index_Rcv_Grid_B2C (overrun 0) 0 0 = 1%nat /\
  GP_B2C_S (overrun 0) (NN_B2C_S (overrun 0)) = 1%nat /\
  (forall data_B Snd0 Rcv0 order data_C,
     fst (Data_Grid_Copy_B2C_XiwenLi overrun data_B Snd0 Rcv0 0 order data_C)
       1%nat
     = Snd0 0%nat 1%nat) /\
  ~ (exists s' BN,
       forall data_B Snd0 Rcv0 order data_C,
         Permutation order (irecv_loop 0 (overrun 0)) ->
         fst (Data_Grid_Copy_B2C_XiwenLi overrun data_B Snd0 Rcv0 0 order data_C)
           (Index_Rcv_Grid_B2C (overrun 0) 0 0)
         = data_B s' BN).
Proof.
  assert (Hcell : forall data_B Snd0 Rcv0 order data_C,
             fst (Data_Grid_Copy_B2C_XiwenLi overrun data_B Snd0 Rcv0 0 order
                    data_C) 1%nat
             = Snd0 0%nat 1%nat).
  { intros data_B Snd0 Rcv0 order [d log].
    unfold Data_Grid_Copy_B2C_XiwenLi. rewrite unpack_loop_trace. cbn [fst].
    unfold Work_Array_Snd_Grid_B2C. rewrite isend_loop_trace. cbn [fst].
    reflexivity. }
  split; [exact overrun_lists|].
  split; [cbn; lia|]. split; [reflexivity|]. split; [reflexivity|].
  split; [exact Hcell|].
  intros (s' & BN & H).
  pose proof (H (fun _ _ => 0) (fun _ _ => 1) (fun _ _ => 0)
                (irecv_loop 0 (overrun 0)) (fun _ => 0, [])
                (Permutation_refl _)) as H1.
  change (Index_Rcv_Grid_B2C (overrun 0) 0 0) with 1%nat in H1.
  rewrite Hcell in H1. lra.
Qed.

(** *** The own part *)

(** Rank 0 copies its own point 0 into its slot 0. *)
Lemma B2C_self_pair_witness :
  fst (Data_Grid_Copy_B2C_XiwenLi (two_ranks [0; 1]%nat) field_B blank blank
         0 (as_posted (two_ranks [0; 1]%nat) 0) (blank 0%nat, []))
    (Index_Rcv_Grid_B2C (two_ranks [0; 1]%nat 0) 0 0)
  = field_B 0%nat (Index_Snd_Grid_B2C (two_ranks [0; 1]%nat 0) 0 0).
Proof.
  apply (proj2 (B2C_self_pair 2 (two_ranks [0; 1]%nat) lengths_B lengths_C
                  field_B blank blank)).
  - apply two_ranks_valid. left. reflexivity.
  - apply two_ranks_aligned.
  - lia.
  - cbn. lia.
Defined.

(** C6, as stated, fails: under the valid plan with rank 0 second among its
    own receive partners, no message is posted for the own part of rank 0,
    but the slot of that part ends with the value of point 1 (which is 0)
    and not with that of point 0 (which is 1). *)
Lemma B2C_self_pair_not_copied :
  valid_plan 2 (two_ranks [1; 0]%nat) lengths_B lengths_C /\
  (0 < Num_Snd_Grid_B2C (two_ranks [1; 0]%nat 0) 0)%nat /\
  fst (Data_Grid_Copy_B2C_XiwenLi (two_ranks [1; 0]%nat) field_B blank blank
         0 (as_posted (two_ranks [1; 0]%nat) 0) (blank 0%nat, []))
    (Index_Rcv_Grid_B2C (two_ranks [1; 0]%nat 0) 0 0)
  <> field_B 0%nat (Index_Snd_Grid_B2C (two_ranks [1; 0]%nat 0) 0 0).
Proof.
  split; [apply two_ranks_valid; right; reflexivity|].
  split; [cbn; lia|].
  vm_compute. lra.
Qed.

(** *** One process whose plan is shorter than its fields *)





(** *** Further properties of the routine *)

(** X1.  Under a valid plan with the own rank at the same position in both
    partner lists, the slot that rank [r] lists at place [LN] of its receive
    list for rank [s] ends with the value of the grid point that rank [s]
    lists at place [LN] of its send list for rank [r], whatever the order in
    which the messages complete and whatever the arrays held before. *)
Theorem B2C_moves_each_value numprocs plans NumGridB NumGridC
  (data_B Snd0 Rcv0 : nat -> field) r s LN order (data_C : logged) :
  valid_plan numprocs plans NumGridB NumGridC ->
  self_aligned numprocs plans ->
  (r < numprocs)%nat -> (s < numprocs)%nat ->
  (LN < Num_Rcv_Grid_B2C (plans r) s)%nat ->
  Permutation order (irecv_loop r (plans r)) ->
  fst (Data_Grid_Copy_B2C_XiwenLi plans data_B Snd0 Rcv0 r order data_C)
    (Index_Rcv_Grid_B2C (plans r) s LN)
  = data_B s (Index_Snd_Grid_B2C (plans s) r LN).
Proof.
  intros Hvalid Hal Hr Hs HLN Hperm.
  apply (transferred numprocs plans NumGridB NumGridC Hvalid); assumption.
Qed.

Lemma B2C_moves_each_value_witness :
  fst (Data_Grid_Copy_B2C_XiwenLi (two_ranks [0; 1]%nat) field_B blank blank
         1 (as_posted (two_ranks [0; 1]%nat) 1) (blank 1%nat, []))
    (Index_Rcv_Grid_B2C (two_ranks [0; 1]%nat 1) 0 1)
  = field_B 0%nat (Index_Snd_Grid_B2C (two_ranks [0; 1]%nat 0) 1 1).
Proof.
  apply (B2C_moves_each_value 2 (two_ranks [0; 1]%nat) lengths_B lengths_C).
  - apply two_ranks_valid. left. reflexivity.
  - apply two_ranks_aligned.
  - lia.
  - lia.
  - cbn. lia.
  - apply Permutation_refl.
Defined.

(** X2.  Under such a plan the routine overwrites the whole partition-C
    field: every cell below [NumGridC] ends with a value that depends on the
    partition-B fields only, not on what [data_C] and the two work arrays
    held before, and not on the order of completion. *)
Theorem B2C_overwrites_field numprocs plans NumGridB NumGridC
  (data_B Snd0 Rcv0 Snd0' Rcv0' : nat -> field) r CN order order'
  (data_C data_C' : logged) :
  valid_plan numprocs plans NumGridB NumGridC ->
  self_aligned numprocs plans ->
  (r < numprocs)%nat -> (CN < NumGridC r)%nat ->
  Permutation order (irecv_loop r (plans r)) ->
  Permutation order' (irecv_loop r (plans r)) ->
  fst (Data_Grid_Copy_B2C_XiwenLi plans data_B Snd0 Rcv0 r order data_C) CN
  = fst (Data_Grid_Copy_B2C_XiwenLi plans data_B Snd0' Rcv0' r order' data_C') CN.
Proof.
  intros Hvalid Hal Hr HCN Hperm Hperm'.
  assert (Hin : In CN (rcv_index_lists numprocs (plans r))).
  { apply (Permutation_in _ (Permutation_sym (vp_rcv_indices _ _ _ _ Hvalid r Hr))).
    apply in_seq. lia. }
  apply in_flat_map in Hin. destruct Hin as (s & Hs & Hin).
  apply in_seq in Hs. apply In_map_seq in Hin. destruct Hin as (LN & HLN & <-).
  rewrite !(transferred numprocs plans NumGridB NumGridC Hvalid)
    by (assumption || lia).
  reflexivity.
Qed.

Lemma B2C_overwrites_field_witness :
  fst (Data_Grid_Copy_B2C_XiwenLi (two_ranks [0; 1]%nat) field_B blank blank
         0 (as_posted (two_ranks [0; 1]%nat) 0) (blank 0%nat, [])) 1%nat
  = fst (Data_Grid_Copy_B2C_XiwenLi (two_ranks [0; 1]%nat) field_B field_B
           field_B 0 (as_posted (two_ranks [0; 1]%nat) 0) (field_B 0%nat, []))
      1%nat.
Proof.
  apply (B2C_overwrites_field 2 (two_ranks [0; 1]%nat) lengths_B lengths_C).
  - apply two_ranks_valid. left. reflexivity.
  - apply two_ranks_aligned.
  - lia.
  - cbn. lia.
  - apply Permutation_refl.
  - apply Permutation_refl.
Defined.

Lemma posts_length (keep : nat -> bool) (mk : nat -> request) l :
  (length (flat_map (fun ID => if negb (keep ID) then [mk ID] else []) l)
   + length (filter keep l) = length l)%nat.
Proof.
  induction l as [|ID l IH]; [reflexivity|].
  cbn [flat_map filter]. rewrite length_app.
  destruct (keep ID); cbn [negb length app]; lia.
Qed.

(** X3.  The receives posted and the partners equal to the own rank add up
    to [NN_B2C_R], and the sends posted and the partners equal to the own
    rank add up to [NN_B2C_S]: the request and status arrays, allocated
    with [NN_B2C_R] and [NN_B2C_S] entries, are never overrun. *)
Theorem B2C_request_counts (myid : nat) (p : plan) (data_B Work_Snd : field) :
  (length (irecv_loop myid p)
   + length (filter (fun ID => ID_NN_B2C_R p ID =? myid) (seq 0 (NN_B2C_R p)))
   = NN_B2C_R p)%nat /\
  (length (snd (isend_loop myid p data_B Work_Snd))
   + length (filter (fun ID => ID_NN_B2C_S p ID =? myid) (seq 0 (NN_B2C_S p)))
   = NN_B2C_S p)%nat /\
  (length (irecv_loop myid p) <= NN_B2C_R p)%nat /\
  (length (snd (isend_loop myid p data_B Work_Snd)) <= NN_B2C_S p)%nat.
Proof.
  rewrite irecv_loop_trace, isend_loop_trace. cbn [snd].
  unfold irecv_posts, isend_posts.
  pose proof (posts_length (fun ID => ID_NN_B2C_R p ID =? myid)
                (fun ID => {| partner := ID_NN_B2C_R p ID;
                              offset := GP_B2C_R p ID;
                              count := Num_Rcv_Grid_B2C p (ID_NN_B2C_R p ID) |})
                (seq 0 (NN_B2C_R p))) as HR.
  pose proof (posts_length (fun ID => ID_NN_B2C_S p ID =? myid)
                (fun ID => {| partner := ID_NN_B2C_S p ID;
                              offset := GP_B2C_S p ID;
                              count := Num_Snd_Grid_B2C p (ID_NN_B2C_S p ID) |})
                (seq 0 (NN_B2C_S p))) as HS.
  rewrite length_seq in HR, HS. repeat split; lia.
Qed.



End Redistribution.

(** ** Set_Hlr and Calc_MatrixElements_Vlr: the quadrature of the blocks *)

Module Quadrature.
Import Loops.
Local Open Scope R_scope.

(** The scratch block [AI_tmpH] of a thread. *)
Definition block : Type := nat -> nat -> R.

Definition set_block (T : block) (i j : nat) (v : R) : block :=
fun i' j' => if (i' =? i)%nat && (j' =? j)%nat then v else T i' j'.

(** The arrays of doubles the routine touches. *)
Record memory : Type := {
  Hlr : nat -> nat -> nat -> nat -> nat -> R;
  Vlr_Grid : nat -> nat -> R;
  Orbs_Grid : nat -> nat -> nat -> R;
  Orbs_Grid_FNAN : nat -> nat -> nat -> nat -> R
}.

Definition set_Hlr (H : nat -> nat -> nat -> nat -> nat -> R)
  (q a b i j : nat) (v : R) : nat -> nat -> nat -> nat -> nat -> R :=
fun q' a' b' i' j' =>
  if (q' =? q)%nat && (a' =? a)%nat && (b' =? b)%nat
     && (i' =? i)%nat && (j' =? j)%nat
  then v else H q' a' b' i' j'.

(** The one-dimensionalized loop: the two index arrays and the counter. *)
Record task_list : Type := {
  OneD2Mc_AN : nat -> nat;
  OneD2h_AN : nat -> nat;
  Nloop : nat
}.

Definition set_int (a : nat -> nat) (k v : nat) : nat -> nat :=
fun k' => if (k' =? k)%nat then v else a k'.

Section Engine.

(** Globals of the run: the process, its atoms and their neighbours, the
    integration grids. *)
Variable myid : nat.
Variable Matomnum : nat.
Variable M2G : nat -> nat.
Variable FNAN : nat -> nat.
Variable natn : nat -> nat -> nat.
Variable F_G2M : nat -> nat.
Variable G2ID : nat -> nat.
Variable WhatSpecies : nat -> nat.
Variable Spe_Total_NO : nat -> nat.
Variable NumOLG : nat -> nat -> nat.
Variable GListTAtoms1 : nat -> nat -> nat -> nat.
Variable GListTAtoms2 : nat -> nat -> nat -> nat.
Variable MGridListAtom : nat -> nat -> nat.
Variable GridVol : R.

(** What [malloc] returns for the index arrays and for the scratch block. *)
Variable OneD0 : nat -> nat.
Variable AI_tmpH0 : block.

(** First pass: the number of tasks. *)
Definition count_tasks : nat :=
for_each (seq 1 Matomnum)
  (fun Mc_AN Nloop =>
     let Gc_AN := M2G Mc_AN in
     for_each (seq 0 (FNAN Gc_AN + 1)) (fun h_AN Nloop => S Nloop) Nloop)
  0%nat.

(** Second pass: the tasks. *)
Definition list_tasks : task_list :=
for_each (seq 1 Matomnum)
  (fun Mc_AN L =>
     let Gc_AN := M2G Mc_AN in
     for_each (seq 0 (FNAN Gc_AN + 1))
       (fun h_AN L =>
          {| OneD2Mc_AN := set_int (OneD2Mc_AN L) (Nloop L) Mc_AN;
             OneD2h_AN := set_int (OneD2h_AN L) (Nloop L) h_AN;
             Nloop := S (Nloop L) |})
       L)
  {| OneD2Mc_AN := OneD0; OneD2h_AN := OneD0; Nloop := 0 |}.

(** The body of the loop over the grid points [Nog] of a pair. *)
Definition grid_point (idx_P Mc_AN h_AN : nat) (m : memory) (Nog : nat)
  (AI_tmpH : block) : block :=
let Gc_AN := M2G Mc_AN in
let Gh_AN := natn Gc_AN h_AN in
let Mh_AN := F_G2M Gh_AN in
let Cwan := WhatSpecies Gc_AN in
let Hwan := WhatSpecies Gh_AN in
let NO0 := Spe_Total_NO Cwan in
let NO1 := Spe_Total_NO Hwan in
let Nc := GListTAtoms1 Mc_AN h_AN Nog in
let MN := MGridListAtom Mc_AN Nc in
let Nh := GListTAtoms2 Mc_AN h_AN Nog in
let AI_tmp_GVVG := GridVol * Vlr_Grid m idx_P MN in
if (G2ID Gh_AN =? myid)%nat then
  for_each (seq 0 NO0)
    (fun i T =>
       let AI_tmp_i := AI_tmp_GVVG * Orbs_Grid m Mc_AN Nc i in
       for_each (seq 0 NO1)
         (fun j T => set_block T i j (T i j + AI_tmp_i * Orbs_Grid m Mh_AN Nh j))
         T)
    AI_tmpH
else
  for_each (seq 0 NO0)
    (fun i T =>
       let AI_tmp_i := AI_tmp_GVVG * Orbs_Grid m Mc_AN Nc i in
       for_each (seq 0 NO1)
         (fun j T =>
            set_block T i j
              (T i j + AI_tmp_i * Orbs_Grid_FNAN m Mc_AN h_AN Nog j))
         T)
    AI_tmpH.

(** One task: the block of the pair [(Mc_AN, h_AN)].  The state is the
    memory and the scratch block of the thread. *)
Definition task (idx_P Mc_AN h_AN : nat) (st : memory * block) : memory * block :=
let m := fst st in
let Gc_AN := M2G Mc_AN in
let Gh_AN := natn Gc_AN h_AN in
let Cwan := WhatSpecies Gc_AN in
let Hwan := WhatSpecies Gh_AN in
let NOLG := NumOLG Mc_AN h_AN in
let NO0 := Spe_Total_NO Cwan in
let NO1 := Spe_Total_NO Hwan in
let T1 :=
  for_each (seq 0 NO0)
    (fun i T =>
       for_each (seq 0 NO1)
         (fun j T => set_block T i j (Hlr m idx_P Mc_AN h_AN i j)) T)
    (snd st) in
let T2 := for_each (seq 0 NOLG) (grid_point idx_P Mc_AN h_AN m) T1 in
let H' :=
  for_each (seq 0 NO0)
    (fun i H =>
       for_each (seq 0 NO1)
         (fun j H => set_Hlr H idx_P Mc_AN h_AN i j (T2 i j)) H)
    (Hlr m) in
({| Hlr := H'; Vlr_Grid := Vlr_Grid m; Orbs_Grid := Orbs_Grid m;
    Orbs_Grid_FNAN := Orbs_Grid_FNAN m |}, T2).

(** The routine.  The tasks write pairwise distinct blocks and read no
    block but their own, so they are run here one after the other, in the
    order of the list, with one scratch block. *)
Definition Calc_MatrixElements_Vlr (idx_P : nat) (m : memory) : memory :=
let L := list_tasks in
let OneD_Nloop := Nloop L in
fst (for_each (seq 0 OneD_Nloop)
       (fun n st => task idx_P (OneD2Mc_AN L n) (OneD2h_AN L n) st)
       (m, AI_tmpH0)).

Definition Set_Hlr (m : memory) : memory :=
for_each (seq 1 Matomnum) (fun Mc_AN m => Calc_MatrixElements_Vlr Mc_AN m) m.

(** *** Loops that set the cells of a two-index array *)

Section Cells.

Variable A : Type.
Variable get : A -> nat -> nat -> R.
Variable upd : A -> nat -> nat -> R -> A.
Hypothesis get_upd : forall a i j v i' j',
  get (upd a i j v) i' j'
  = if (i' =? i)%nat && (j' =? j)%nat then v else get a i' j'.

(** The new value of cell [(i,j)], from its old value. *)
Variable G : nat -> nat -> R -> R.

Lemma row_cells i m a i' j' :
  get (for_each (seq 0 m) (fun j a => upd a i j (G i j (get a i j))) a) i' j'
  = if (i' =? i)%nat && (j' <? m)%nat
    then G i' j' (get a i' j') else get a i' j'.
Proof.
  revert i' j'. induction m as [|m IH]; intros i' j'.
  - rewrite for_each_nil.
    replace (j' <? 0)%nat with false by (symmetry; apply Nat.ltb_ge; lia).
    rewrite andb_false_r. reflexivity.
  - rewrite for_each_snoc. cbn [plus]. rewrite get_upd, !IH.
    rewrite Nat.eqb_refl, Nat.ltb_irrefl. cbn [andb].
    destruct (Nat.eqb_spec i' i) as [->|Hi]; cbn [andb]; [|reflexivity].
    destruct (Nat.eqb_spec j' m) as [->|Hj].
    + replace (m <? S m)%nat with true by (symmetry; apply Nat.ltb_lt; lia).
      reflexivity.
    + destruct (Nat.ltb_spec j' m), (Nat.ltb_spec j' (S m)); try lia; reflexivity.
Qed.

Lemma block_cells n m a i' j' :
  get (for_each (seq 0 n)
         (fun i a =>
            for_each (seq 0 m) (fun j a => upd a i j (G i j (get a i j))) a) a)
    i' j'
  = if (i' <? n)%nat && (j' <? m)%nat
    then G i' j' (get a i' j') else get a i' j'.
Proof.
  revert i' j'. induction n as [|n IH]; intros i' j'.
  - rewrite for_each_nil. reflexivity.
  - rewrite for_each_snoc. cbn [plus]. rewrite row_cells, !IH.
    destruct (Nat.eqb_spec i' n) as [->|Hi]; cbn [andb].
    + rewrite Nat.ltb_irrefl. cbn [andb].
      replace (n <? S n)%nat with true by (symmetry; apply Nat.ltb_lt; lia).
      reflexivity.
    + destruct (Nat.ltb_spec i' n), (Nat.ltb_spec i' (S n)); try lia; reflexivity.
Qed.

End Cells.

Lemma set_block_get (T : block) i j v i' j' :
  set_block T i j v i' j'
  = if (i' =? i)%nat && (j' =? j)%nat then v else T i' j'.
Proof. reflexivity. Qed.

Lemma set_Hlr_get H q a b i j v i' j' :
  set_Hlr H q a b i j v q a b i' j'
  = if (i' =? i)%nat && (j' =? j)%nat then v else H q a b i' j'.
Proof. unfold set_Hlr. rewrite !Nat.eqb_refl. reflexivity. Qed.

Lemma set_Hlr_other H q a b i j v q' a' b' i' j' :
  ~ (q' = q /\ a' = a /\ b' = b) ->
  set_Hlr H q a b i j v q' a' b' i' j' = H q' a' b' i' j'.
Proof.
  intros Hne. unfold set_Hlr.
  destruct (Nat.eqb_spec q' q), (Nat.eqb_spec a' a), (Nat.eqb_spec b' b);
    cbn [andb]; try reflexivity.
  exfalso. apply Hne. auto.
Qed.

(** *** The list of tasks *)

(** The pairs [(Mc_AN, h_AN)], [Mc_AN] over the atoms of the process and
    [h_AN] from 0 to the number of neighbours of the atom, in the order of
    the nested loops. *)
Definition task_pairs : list (nat * nat) :=
flat_map (fun Mc_AN => map (pair Mc_AN) (seq 0 (FNAN (M2G Mc_AN) + 1)))
  (seq 1 Matomnum).

Definition push_task (L : task_list) (p : nat * nat) : task_list :=
{| OneD2Mc_AN := set_int (OneD2Mc_AN L) (Nloop L) (fst p);
   OneD2h_AN := set_int (OneD2h_AN L) (Nloop L) (snd p);
   Nloop := S (Nloop L) |}.

Lemma list_tasks_push :
  list_tasks
  = fold_left push_task task_pairs
      {| OneD2Mc_AN := OneD0; OneD2h_AN := OneD0; Nloop := 0 |}.
Proof.
  unfold list_tasks, task_pairs.
  apply (for_each_nested (fun Mc_AN => (FNAN (M2G Mc_AN) + 1)%nat)
           (fun Mc_AN h_AN L => push_task L (Mc_AN, h_AN))).
Qed.

Lemma push_tasks_cells P L :
  let L' := fold_left push_task P L in
  Nloop L' = (Nloop L + length P)%nat /\
  (forall k, (k < length P)%nat ->
     (OneD2Mc_AN L' (Nloop L + k), OneD2h_AN L' (Nloop L + k))
     = nth k P (0%nat, 0%nat)) /\
  (forall n, (n < Nloop L)%nat ->
     OneD2Mc_AN L' n = OneD2Mc_AN L n /\ OneD2h_AN L' n = OneD2h_AN L n).
Proof.
  revert L. induction P as [|p P IH]; intros L; cbv zeta.
  - cbn. repeat split; [lia|intros k Hk; lia].
  - cbn [fold_left length].
    destruct (IH (push_task L p)) as (HN & Hcells & Hold). cbv zeta in *.
    cbn [push_task Nloop] in HN, Hcells, Hold.
    split; [rewrite HN; cbn [push_task Nloop]; lia|]. split.
    + intros k Hk. destruct k as [|k].
      * rewrite Nat.add_0_r. cbn [nth].
        destruct (Hold (Nloop L) ltac:(lia)) as [H1 H2].
        rewrite H1, H2. cbn [push_task OneD2Mc_AN OneD2h_AN]. unfold set_int.
        rewrite Nat.eqb_refl. destruct p. reflexivity.
      * cbn [nth]. rewrite <- (Hcells k) by lia.
        replace (Nloop L + S k)%nat with (S (Nloop L) + k)%nat by lia.
        reflexivity.
    + intros n Hn. destruct (Hold n ltac:(lia)) as [H1 H2].
      rewrite H1, H2. cbn [push_task OneD2Mc_AN OneD2h_AN]. unfold set_int.
      destruct (Nat.eqb_spec n (Nloop L)) as [Heq|_]; [lia|]. split; reflexivity.
Qed.

Lemma map_seq_nth {A : Type} (f : nat -> A) (P : list A) (d : A) :
  (forall k, (k < length P)%nat -> f k = nth k P d) ->
  map f (seq 0 (length P)) = P.
Proof.
  intros H. apply (nth_ext _ _ (f 0%nat) d).
  - rewrite length_map, length_seq. reflexivity.
  - intros k Hk. rewrite length_map, length_seq in Hk.
    rewrite map_nth, seq_nth by exact Hk. apply H. exact Hk.
Qed.

(** The index arrays list the pairs, in order. *)
Lemma list_tasks_pairs :
  Nloop list_tasks = length task_pairs /\
  map (fun n => (OneD2Mc_AN list_tasks n, OneD2h_AN list_tasks n))
    (seq 0 (Nloop list_tasks))
  = task_pairs.
Proof.
  rewrite list_tasks_push.
  destruct (push_tasks_cells task_pairs
              {| OneD2Mc_AN := OneD0; OneD2h_AN := OneD0; Nloop := 0 |})
    as (HN & Hcells & _).
  cbv zeta in HN, Hcells. cbn [Nloop] in HN, Hcells.
  split; [rewrite HN; reflexivity|].
  rewrite HN. cbn [plus].
  apply (map_seq_nth _ _ (0%nat, 0%nat)).
  intros k Hk. apply (Hcells k Hk).
Qed.

Lemma count_tasks_length : count_tasks = length task_pairs.
Proof.
  unfold count_tasks, task_pairs.
  rewrite (for_each_nested (fun Mc_AN => (FNAN (M2G Mc_AN) + 1)%nat)
             (fun _ _ Nloop => S Nloop)).
  generalize (flat_map (fun x => map (pair x) (seq 0 (FNAN (M2G x) + 1)))
                (seq 1 Matomnum)) as P.
  intros P. change (length P) with (0 + length P)%nat.
  generalize 0%nat as n0. induction P as [|p P IH]; intros n0; cbn; [lia|].
  rewrite IH. lia.
Qed.

Lemma task_pairs_length :
  length task_pairs
  = list_sum (map (fun Mc_AN => (FNAN (M2G Mc_AN) + 1)%nat) (seq 1 Matomnum)).
Proof.
  unfold task_pairs.
  induction (seq 1 Matomnum) as [|Mc l IH]; [reflexivity|].
  cbn [flat_map map list_sum fold_right]. rewrite length_app, IH, length_map, length_seq.
  reflexivity.
Qed.

Lemma task_pairs_In Mc_AN h_AN :
  In (Mc_AN, h_AN) task_pairs
  <-> (1 <= Mc_AN <= Matomnum)%nat /\ (h_AN <= FNAN (M2G Mc_AN))%nat.
Proof.
  unfold task_pairs. rewrite in_flat_map. split.
  - intros (Mc & HMc & Hin). apply in_seq in HMc.
    apply in_map_iff in Hin. destruct Hin as (h & Heq & Hh).
    apply in_seq in Hh. injection Heq as <- <-. lia.
  - intros [HMc Hh]. exists Mc_AN. split; [apply in_seq; lia|].
    apply in_map_iff. exists h_AN. split; [reflexivity|apply in_seq; lia].
Qed.

Lemma task_pairs_NoDup : NoDup task_pairs.
Proof.
  unfold task_pairs.
  assert (H : forall l, NoDup l ->
            NoDup (flat_map (fun Mc_AN => map (pair Mc_AN)
                                            (seq 0 (FNAN (M2G Mc_AN) + 1))) l)).
  { induction l as [|Mc l IH]; intros Hnd; [constructor|].
    apply NoDup_cons_iff in Hnd. destruct Hnd as [HMc Hnd].
    cbn [flat_map]. apply NoDup_app.
    - apply Finite.Injective_map_NoDup; [|apply seq_NoDup].
      intros x y Hxy. injection Hxy as ->. reflexivity.
    - apply IH. exact Hnd.
    - intros [a b] Ha Hb. apply in_map_iff in Ha. destruct Ha as (h & Heq & _).
      injection Heq as <- <-.
      apply in_flat_map in Hb. destruct Hb as (Mc' & HMc' & Hb).
      apply in_map_iff in Hb. destruct Hb as (h' & Heq & _).
      injection Heq as -> ->. contradiction. }
  apply H. apply seq_NoDup.
Qed.

(** *** The block of one task *)

(** Sizes of the block of a pair. *)
Definition NO0_of (Mc_AN : nat) : nat :=
Spe_Total_NO (WhatSpecies (M2G Mc_AN)).

Definition NO1_of (Mc_AN h_AN : nat) : nat :=
Spe_Total_NO (WhatSpecies (natn (M2G Mc_AN) h_AN)).

(** The orbital factor of the owning atom and that of the neighbour at the
    grid point [Nog] of the pair: the neighbour is read from the local
    array when the process owns it and from the received copy otherwise. *)
Definition owner_factor (m : memory) (Mc_AN h_AN Nog i : nat) : R :=
Orbs_Grid m Mc_AN (GListTAtoms1 Mc_AN h_AN Nog) i.

Definition neighbor_factor (m : memory) (Mc_AN h_AN Nog j : nat) : R :=
if (G2ID (natn (M2G Mc_AN) h_AN) =? myid)%nat
then Orbs_Grid m (F_G2M (natn (M2G Mc_AN) h_AN)) (GListTAtoms2 Mc_AN h_AN Nog) j
else Orbs_Grid_FNAN m Mc_AN h_AN Nog j.

Definition integrand (idx_P : nat) (m : memory) (Mc_AN h_AN Nog i j : nat) : R :=
GridVol * Vlr_Grid m idx_P (MGridListAtom Mc_AN (GListTAtoms1 Mc_AN h_AN Nog))
* owner_factor m Mc_AN h_AN Nog i * neighbor_factor m Mc_AN h_AN Nog j.

(** The sum over the grid points of the pair, added to [x0] point after
    point. *)
Definition quadrature (idx_P : nat) (m : memory) (Mc_AN h_AN i j : nat) (x0 : R) : R :=
for_each (seq 0 (NumOLG Mc_AN h_AN))
  (fun Nog x => x + integrand idx_P m Mc_AN h_AN Nog i j) x0.

Lemma grid_point_cells idx_P Mc_AN h_AN m Nog (T : block) i j :
  grid_point idx_P Mc_AN h_AN m Nog T i j
  = if (i <? NO0_of Mc_AN)%nat && (j <? NO1_of Mc_AN h_AN)%nat
    then T i j + integrand idx_P m Mc_AN h_AN Nog i j
    else T i j.
Proof.
  unfold grid_point, integrand, owner_factor, neighbor_factor, NO0_of, NO1_of.
  cbv zeta.
  destruct (G2ID (natn (M2G Mc_AN) h_AN) =? myid)%nat.
  - apply (block_cells block (fun T i j => T i j) set_block set_block_get
             (fun i j x =>
                x + GridVol
                    * Vlr_Grid m idx_P
                        (MGridListAtom Mc_AN (GListTAtoms1 Mc_AN h_AN Nog))
                    * Orbs_Grid m Mc_AN (GListTAtoms1 Mc_AN h_AN Nog) i
                    * Orbs_Grid m (F_G2M (natn (M2G Mc_AN) h_AN))
                        (GListTAtoms2 Mc_AN h_AN Nog) j)).
  - apply (block_cells block (fun T i j => T i j) set_block set_block_get
             (fun i j x =>
                x + GridVol
                    * Vlr_Grid m idx_P
                        (MGridListAtom Mc_AN (GListTAtoms1 Mc_AN h_AN Nog))
                    * Orbs_Grid m Mc_AN (GListTAtoms1 Mc_AN h_AN Nog) i
                    * Orbs_Grid_FNAN m Mc_AN h_AN Nog j)).
Qed.

Lemma grid_loop_cells idx_P Mc_AN h_AN m n (T : block) i j :
  for_each (seq 0 n) (grid_point idx_P Mc_AN h_AN m) T i j
  = if (i <? NO0_of Mc_AN)%nat && (j <? NO1_of Mc_AN h_AN)%nat
    then for_each (seq 0 n)
           (fun Nog x => x + integrand idx_P m Mc_AN h_AN Nog i j) (T i j)
    else T i j.
Proof.
  induction n as [|n IH].
  - rewrite !for_each_nil.
    destruct ((i <? NO0_of Mc_AN)%nat && (j <? NO1_of Mc_AN h_AN)%nat);
      reflexivity.
  - rewrite !for_each_snoc. cbn [plus]. rewrite grid_point_cells, IH.
    destruct ((i <? NO0_of Mc_AN)%nat && (j <? NO1_of Mc_AN h_AN)%nat);
      reflexivity.
Qed.

(** The memory after one task. *)
Lemma task_Hlr_inside idx_P Mc_AN h_AN st i j :
  (i < NO0_of Mc_AN)%nat -> (j < NO1_of Mc_AN h_AN)%nat ->
  Hlr (fst (task idx_P Mc_AN h_AN st)) idx_P Mc_AN h_AN i j
  = quadrature idx_P (fst st) Mc_AN h_AN i j (Hlr (fst st) idx_P Mc_AN h_AN i j).
Proof.
  intros Hi Hj. unfold task. cbv zeta. cbn [fst Hlr].
  pose proof (block_cells _ (fun H i j => H idx_P Mc_AN h_AN i j)
                (fun H i j v => set_Hlr H idx_P Mc_AN h_AN i j v)
                (fun H => set_Hlr_get H idx_P Mc_AN h_AN)) as Hwb.
  cbv beta in Hwb.
  rewrite (Hwb (fun i j _ => _)). clear Hwb.
  fold (NO0_of Mc_AN) (NO1_of Mc_AN h_AN).
  apply Nat.ltb_lt in Hi. apply Nat.ltb_lt in Hj. rewrite Hi, Hj. cbn [andb].
  rewrite grid_loop_cells, Hi, Hj. cbn [andb].
  unfold quadrature. f_equal.
  rewrite (block_cells block (fun T i j => T i j) set_block set_block_get
             (fun i j _ => Hlr (fst st) idx_P Mc_AN h_AN i j)).
  fold (NO0_of Mc_AN) (NO1_of Mc_AN h_AN). rewrite Hi, Hj. reflexivity.
Qed.

Lemma task_Hlr_outside idx_P Mc_AN h_AN st q a b i j :
  ~ (q = idx_P /\ a = Mc_AN /\ b = h_AN /\
     (i < NO0_of Mc_AN)%nat /\ (j < NO1_of Mc_AN h_AN)%nat) ->
  Hlr (fst (task idx_P Mc_AN h_AN st)) q a b i j = Hlr (fst st) q a b i j.
Proof.
  intros Hout. unfold task. cbv zeta. cbn [fst Hlr].
  destruct (Nat.eq_dec q idx_P) as [->|Hq];
    [destruct (Nat.eq_dec a Mc_AN) as [->|Ha];
     [destruct (Nat.eq_dec b h_AN) as [->|Hb]|]|].
  - pose proof (block_cells _ (fun H i j => H idx_P Mc_AN h_AN i j)
                  (fun H i j v => set_Hlr H idx_P Mc_AN h_AN i j v)
                  (fun H => set_Hlr_get H idx_P Mc_AN h_AN)) as Hwb.
    cbv beta in Hwb.
    rewrite (Hwb (fun i j _ => _)). clear Hwb.
    fold (NO0_of Mc_AN) (NO1_of Mc_AN h_AN).
    destruct (Nat.ltb_spec i (NO0_of Mc_AN)), (Nat.ltb_spec j (NO1_of Mc_AN h_AN));
      cbn [andb]; try reflexivity.
    exfalso. apply Hout. auto.
  - apply (for_each_invariant
             (fun H => H idx_P Mc_AN b i j = Hlr (fst st) idx_P Mc_AN b i j));
      [reflexivity|].
    intros x H HH. apply for_each_invariant; [exact HH|].
    intros y H' HH'. rewrite set_Hlr_other by tauto. exact HH'.
  - apply (for_each_invariant
             (fun H => H idx_P a b i j = Hlr (fst st) idx_P a b i j));
      [reflexivity|].
    intros x H HH. apply for_each_invariant; [exact HH|].
    intros y H' HH'. rewrite set_Hlr_other by tauto. exact HH'.
  - apply (for_each_invariant
             (fun H => H q a b i j = Hlr (fst st) q a b i j));
      [reflexivity|].
    intros x H HH. apply for_each_invariant; [exact HH|].
    intros y H' HH'. rewrite set_Hlr_other by tauto. exact HH'.
Qed.

(** *** All the tasks *)

Definition run_tasks (idx_P : nat) (P : list (nat * nat)) (st : memory * block)
  : memory * block :=
fold_left (fun st p => task idx_P (fst p) (snd p) st) P st.

Lemma run_tasks_cons idx_P p P st :
  run_tasks idx_P (p :: P) st = run_tasks idx_P P (task idx_P (fst p) (snd p) st).
Proof. reflexivity. Qed.

Lemma Calc_MatrixElements_Vlr_run idx_P m :
  Calc_MatrixElements_Vlr idx_P m = fst (run_tasks idx_P task_pairs (m, AI_tmpH0)).
Proof.
  unfold Calc_MatrixElements_Vlr, run_tasks. cbv zeta.
  transitivity
    (fst (fold_left (fun st p => task idx_P (fst p) (snd p) st)
            (map (fun n => (OneD2Mc_AN list_tasks n, OneD2h_AN list_tasks n))
               (seq 0 (Nloop list_tasks)))
            (m, AI_tmpH0))).
  - f_equal.
    apply (for_each_map
             (fun n => (OneD2Mc_AN list_tasks n, OneD2h_AN list_tasks n))
             (fun p st => task idx_P (fst p) (snd p) st)).
  - rewrite (proj2 list_tasks_pairs). reflexivity.
Qed.

Lemma run_tasks_fields idx_P P st :
  Vlr_Grid (fst (run_tasks idx_P P st)) = Vlr_Grid (fst st) /\
  Orbs_Grid (fst (run_tasks idx_P P st)) = Orbs_Grid (fst st) /\
  Orbs_Grid_FNAN (fst (run_tasks idx_P P st)) = Orbs_Grid_FNAN (fst st).
Proof.
  revert st. induction P as [|p P IH]; intros st; [auto|].
  rewrite !run_tasks_cons.
  destruct (IH (task idx_P (fst p) (snd p) st)) as (H1 & H2 & H3).
  rewrite H1, H2, H3. auto.
Qed.

Lemma quadrature_fields idx_P m m' Mc_AN h_AN i j x :
  Vlr_Grid m' = Vlr_Grid m -> Orbs_Grid m' = Orbs_Grid m ->
  Orbs_Grid_FNAN m' = Orbs_Grid_FNAN m ->
  quadrature idx_P m' Mc_AN h_AN i j x = quadrature idx_P m Mc_AN h_AN i j x.
Proof.
  intros H1 H2 H3.
  unfold quadrature, integrand, owner_factor, neighbor_factor.
  rewrite H1, H2, H3. reflexivity.
Qed.

Lemma run_tasks_outside idx_P P st q a b i j :
  ~ (q = idx_P /\ In (a, b) P /\
     (i < NO0_of a)%nat /\ (j < NO1_of a b)%nat) ->
  Hlr (fst (run_tasks idx_P P st)) q a b i j = Hlr (fst st) q a b i j.
Proof.
  revert st. induction P as [|p P IH]; intros st Hout; [reflexivity|].
  rewrite !run_tasks_cons.
  rewrite IH.
  - apply task_Hlr_outside. intros (Hq & Ha & Hb & Hi & Hj). apply Hout.
    subst. repeat split; try assumption. left. destruct p. reflexivity.
  - intros (Hq & Hin & Hi & Hj). apply Hout.
    repeat split; try assumption. right. exact Hin.
Qed.

Lemma run_tasks_inside idx_P P st a b i j :
  NoDup P -> In (a, b) P ->
  (i < NO0_of a)%nat -> (j < NO1_of a b)%nat ->
  Hlr (fst (run_tasks idx_P P st)) idx_P a b i j
  = quadrature idx_P (fst st) a b i j (Hlr (fst st) idx_P a b i j).
Proof.
  revert st. induction P as [|p P IH]; intros st Hnd Hin Hi Hj; [destruct Hin|].
  apply NoDup_cons_iff in Hnd. destruct Hnd as [Hp Hnd].
  rewrite !run_tasks_cons.
  destruct Hin as [->|Hin].
  - rewrite run_tasks_outside by tauto.
    cbn [fst snd]. apply task_Hlr_inside; assumption.
  - rewrite IH by assumption.
    rewrite task_Hlr_outside.
    + apply quadrature_fields; reflexivity.
    + intros (_ & Ha & Hb & _). apply Hp. destruct p; cbn in *; subst. exact Hin.
Qed.

(** The blocks do not depend on the order in which the tasks are run, nor
    on the scratch block they start with: the threads of the parallel loop
    may take the tasks in any order, each with its own scratch block. *)
Lemma run_tasks_schedule idx_P P P' (m : memory) (T T' : block) q a b i j :
  NoDup P -> Permutation P P' ->
  Hlr (fst (run_tasks idx_P P' (m, T'))) q a b i j
  = Hlr (fst (run_tasks idx_P P (m, T))) q a b i j.
Proof.
  intros Hnd Hperm.
  assert (Hnd' : NoDup P') by (apply (Permutation_NoDup Hperm Hnd)).
  destruct (Nat.eq_dec q idx_P) as [->|Hq].
  - destruct (in_dec (fun x y : nat * nat =>
                        ltac:(decide equality; apply Nat.eq_dec)) (a, b) P)
      as [Hin|Hnin].
    + destruct (lt_dec i (NO0_of a)) as [Hi|Hi].
      * destruct (lt_dec j (NO1_of a b)) as [Hj|Hj].
        -- rewrite !run_tasks_inside; try assumption; [reflexivity|].
           apply (Permutation_in _ Hperm). exact Hin.
        -- rewrite !run_tasks_outside by tauto. reflexivity.
      * rewrite !run_tasks_outside by tauto. reflexivity.
    + rewrite !run_tasks_outside; [reflexivity|tauto|].
      intros (_ & Hin' & _). apply Hnin.
      apply (Permutation_in _ (Permutation_sym Hperm)). exact Hin'.
  - rewrite !run_tasks_outside by tauto. reflexivity.
Qed.

(** A sum started from [x0] is [x0] plus the sum started from 0. *)
Lemma quadrature_shift idx_P m Mc_AN h_AN i j x0 :
  quadrature idx_P m Mc_AN h_AN i j x0
  = x0 + quadrature idx_P m Mc_AN h_AN i j 0.
Proof.
  unfold quadrature. induction (NumOLG Mc_AN h_AN) as [|n IH].
  - rewrite !for_each_nil. lra.
  - rewrite !for_each_snoc, IH. lra.
Qed.

Lemma for_each_ext {St : Type} (f g : nat -> St -> St) l (s : St) :
  (forall x s, In x l -> f x s = g x s) -> for_each l f s = for_each l g s.
Proof.
  revert s. induction l as [|x l IH]; intros s H; [reflexivity|].
  rewrite !for_each_cons, H by (left; reflexivity).
  apply IH. intros y s' Hy. apply H. right. exact Hy.
Qed.

(** *** One call, and the calls of [Set_Hlr] *)

Lemma Calc_fields idx_P (m : memory) :
  Vlr_Grid (Calc_MatrixElements_Vlr idx_P m) = Vlr_Grid m /\
  Orbs_Grid (Calc_MatrixElements_Vlr idx_P m) = Orbs_Grid m /\
  Orbs_Grid_FNAN (Calc_MatrixElements_Vlr idx_P m) = Orbs_Grid_FNAN m.
Proof.
  rewrite Calc_MatrixElements_Vlr_run.
  apply (run_tasks_fields idx_P task_pairs (m, AI_tmpH0)).
Qed.

Lemma Calc_Hlr_outside idx_P (m : memory) q Mc_AN h_AN i j :
  ~ (q = idx_P /\ (1 <= Mc_AN <= Matomnum)%nat /\
     (h_AN <= FNAN (M2G Mc_AN))%nat /\
     (i < NO0_of Mc_AN)%nat /\ (j < NO1_of Mc_AN h_AN)%nat) ->
  Hlr (Calc_MatrixElements_Vlr idx_P m) q Mc_AN h_AN i j = Hlr m q Mc_AN h_AN i j.
Proof.
  intros Hout. rewrite Calc_MatrixElements_Vlr_run.
  rewrite run_tasks_outside; [reflexivity|].
  intros (Hq & Hin & Hi & Hj). apply Hout. apply task_pairs_In in Hin. tauto.
Qed.

Lemma Calc_Hlr_inside idx_P (m : memory) Mc_AN h_AN i j :
  (1 <= Mc_AN <= Matomnum)%nat -> (h_AN <= FNAN (M2G Mc_AN))%nat ->
  (i < NO0_of Mc_AN)%nat -> (j < NO1_of Mc_AN h_AN)%nat ->
  Hlr (Calc_MatrixElements_Vlr idx_P m) idx_P Mc_AN h_AN i j
  = Hlr m idx_P Mc_AN h_AN i j + quadrature idx_P m Mc_AN h_AN i j 0.
Proof.
  intros HMc Hh Hi Hj. rewrite Calc_MatrixElements_Vlr_run.
  rewrite run_tasks_inside;
    [|apply task_pairs_NoDup|apply task_pairs_In; auto|assumption|assumption].
  cbn [fst]. apply quadrature_shift.
Qed.

(** The same, in the order the code adds: the entry on exit is the running
    sum started from the entry on entry. *)
Lemma Calc_Hlr_seeded idx_P (m : memory) Mc_AN h_AN i j :
  (1 <= Mc_AN <= Matomnum)%nat -> (h_AN <= FNAN (M2G Mc_AN))%nat ->
  (i < NO0_of Mc_AN)%nat -> (j < NO1_of Mc_AN h_AN)%nat ->
  Hlr (Calc_MatrixElements_Vlr idx_P m) idx_P Mc_AN h_AN i j
  = quadrature idx_P m Mc_AN h_AN i j (Hlr m idx_P Mc_AN h_AN i j).
Proof.
  intros HMc Hh Hi Hj. rewrite Calc_MatrixElements_Vlr_run.
  rewrite run_tasks_inside;
    [|apply task_pairs_NoDup|apply task_pairs_In; auto|assumption|assumption].
  reflexivity.
Qed.

(** The calls of [Set_Hlr], one source after the other. *)
Definition run_sources (sources : list nat) (m : memory) : memory :=
for_each sources (fun Mc_AN m => Calc_MatrixElements_Vlr Mc_AN m) m.

Lemma run_sources_cons a l m :
  run_sources (a :: l) m = run_sources l (Calc_MatrixElements_Vlr a m).
Proof. reflexivity. Qed.

Lemma run_sources_fields sources m :
  Vlr_Grid (run_sources sources m) = Vlr_Grid m /\
  Orbs_Grid (run_sources sources m) = Orbs_Grid m /\
  Orbs_Grid_FNAN (run_sources sources m) = Orbs_Grid_FNAN m.
Proof.
  unfold run_sources.
  apply (for_each_invariant
           (fun m' => Vlr_Grid m' = Vlr_Grid m /\ Orbs_Grid m' = Orbs_Grid m /\
                      Orbs_Grid_FNAN m' = Orbs_Grid_FNAN m)); [auto|].
  intros q m' (H1 & H2 & H3).
  destruct (Calc_fields q m') as (F1 & F2 & F3).
  rewrite F1, F2, F3. auto.
Qed.

Lemma run_sources_other sources m q Mc_AN h_AN i j :
  ~ In q sources ->
  Hlr (run_sources sources m) q Mc_AN h_AN i j = Hlr m q Mc_AN h_AN i j.
Proof.
  revert m. induction sources as [|a l IH]; intros m Hq; [reflexivity|].
  rewrite run_sources_cons.
  rewrite IH by (intros H; apply Hq; right; exact H).
  apply Calc_Hlr_outside. intros (Heq & _). apply Hq. left. congruence.
Qed.

Lemma run_sources_block sources m idx_P Mc_AN h_AN i j :
  NoDup sources -> In idx_P sources ->
  (1 <= Mc_AN <= Matomnum)%nat -> (h_AN <= FNAN (M2G Mc_AN))%nat ->
  (i < NO0_of Mc_AN)%nat -> (j < NO1_of Mc_AN h_AN)%nat ->
  Hlr (run_sources sources m) idx_P Mc_AN h_AN i j
  = Hlr m idx_P Mc_AN h_AN i j + quadrature idx_P m Mc_AN h_AN i j 0.
Proof.
  intros Hnd Hin HMc Hh Hi Hj. revert m.
  induction sources as [|a l IH]; intros m; [destruct Hin|].
  apply NoDup_cons_iff in Hnd. destruct Hnd as [Ha Hnd].
  rewrite run_sources_cons.
  destruct Hin as [->|Hin].
  - rewrite run_sources_other by exact Ha.
    apply Calc_Hlr_inside; assumption.
  - rewrite IH by assumption.
    destruct (Calc_fields a m) as (F1 & F2 & F3).
    rewrite (quadrature_fields idx_P m _ _ _ _ _ _ F1 F2 F3).
    rewrite Calc_Hlr_outside; [reflexivity|].
    intros (Heq & _). apply Ha. rewrite <- Heq. exact Hin.
Qed.

Lemma run_sources_seeded sources m idx_P Mc_AN h_AN i j :
  NoDup sources -> In idx_P sources ->
  (1 <= Mc_AN <= Matomnum)%nat -> (h_AN <= FNAN (M2G Mc_AN))%nat ->
  (i < NO0_of Mc_AN)%nat -> (j < NO1_of Mc_AN h_AN)%nat ->
  Hlr (run_sources sources m) idx_P Mc_AN h_AN i j
  = quadrature idx_P m Mc_AN h_AN i j (Hlr m idx_P Mc_AN h_AN i j).
Proof.
  intros Hnd Hin HMc Hh Hi Hj. revert m.
  induction sources as [|a l IH]; intros m; [destruct Hin|].
  apply NoDup_cons_iff in Hnd. destruct Hnd as [Ha Hnd].
  rewrite run_sources_cons.
  destruct Hin as [->|Hin].
  - rewrite run_sources_other by exact Ha.
    apply Calc_Hlr_seeded; assumption.
  - rewrite IH by assumption.
    destruct (Calc_fields a m) as (F1 & F2 & F3).
    rewrite (quadrature_fields idx_P m _ _ _ _ _ _ F1 F2 F3).
    rewrite Calc_Hlr_outside; [reflexivity|].
    intros (Heq & _). apply Ha. rewrite <- Heq. exact Hin.
Qed.

(** C8.  The one-dimensionalized list enumerates exactly the pairs
    [(Mc_AN, h_AN)] with [Mc_AN] in [1..Matomnum] and [h_AN] in
    [0..FNAN[M2G[Mc_AN]]], each pair once, in the order of the nested loops;
    its length [OneD_Nloop], which is also the count of the first pass, is
    the sum over the atoms of the process of [FNAN + 1]; and the list is
    built once: a call runs the tasks of that one list. *)
Theorem task_list_enumerates :
  count_tasks = Nloop list_tasks /\
  Nloop list_tasks
  = list_sum (map (fun Mc_AN => (FNAN (M2G Mc_AN) + 1)%nat) (seq 1 Matomnum)) /\
  map (fun n => (OneD2Mc_AN list_tasks n, OneD2h_AN list_tasks n))
    (seq 0 (Nloop list_tasks))
  = task_pairs /\
  NoDup task_pairs /\
  (forall Mc_AN h_AN,
     In (Mc_AN, h_AN) task_pairs
     <-> (1 <= Mc_AN <= Matomnum)%nat /\ (h_AN <= FNAN (M2G Mc_AN))%nat) /\
  (forall idx_P m,
     Calc_MatrixElements_Vlr idx_P m
     = fst (fold_left (fun st p => task idx_P (fst p) (snd p) st)
              (map (fun n => (OneD2Mc_AN list_tasks n, OneD2h_AN list_tasks n))
                 (seq 0 (Nloop list_tasks)))
              (m, AI_tmpH0))).
Proof.
  destruct list_tasks_pairs as [HN Hpairs].
  split; [rewrite count_tasks_length, HN; reflexivity|].
  split; [rewrite HN; apply task_pairs_length|].
  split; [exact Hpairs|].
  split; [apply task_pairs_NoDup|].
  split; [apply task_pairs_In|].
  intros idx_P m. rewrite Hpairs. apply Calc_MatrixElements_Vlr_run.
Qed.

(** C9.  For every task [(Mc_AN, h_AN)] of a call and every entry [(i,j)] of
    its block, the entry the call leaves in [Hlr] is the entry it found plus,
    grid point after grid point of the pair, the weighted potential times
    the orbital of the owning atom, read from [Orbs_Grid[Mc_AN]], times the
    orbital of the neighbour, read from [Orbs_Grid[Mh_AN]] when
    [G2ID[Gh_AN] == myid] and from [Orbs_Grid_FNAN[Mc_AN][h_AN]] otherwise.
    In the first case the entry does not depend on [Orbs_Grid_FNAN]; in the
    second it depends on [Orbs_Grid] through the row of [Mc_AN] only. *)
Theorem neighbor_orbital_source idx_P (m : memory) Mc_AN h_AN i j :
  (1 <= Mc_AN <= Matomnum)%nat -> (h_AN <= FNAN (M2G Mc_AN))%nat ->
  (i < Spe_Total_NO (WhatSpecies (M2G Mc_AN)))%nat ->
  (j < Spe_Total_NO (WhatSpecies (natn (M2G Mc_AN) h_AN)))%nat ->
  let Gh_AN := natn (M2G Mc_AN) h_AN in
  let Mh_AN := F_G2M Gh_AN in
  Hlr (Calc_MatrixElements_Vlr idx_P m) idx_P Mc_AN h_AN i j
  = for_each (seq 0 (NumOLG Mc_AN h_AN))
      (fun Nog x =>
         let Nc := GListTAtoms1 Mc_AN h_AN Nog in
         let Nh := GListTAtoms2 Mc_AN h_AN Nog in
         let MN := MGridListAtom Mc_AN Nc in
         x + GridVol * Vlr_Grid m idx_P MN * Orbs_Grid m Mc_AN Nc i
             * (if (G2ID Gh_AN =? myid)%nat
                then Orbs_Grid m Mh_AN Nh j
                else Orbs_Grid_FNAN m Mc_AN h_AN Nog j))
      (Hlr m idx_P Mc_AN h_AN i j) /\
  (G2ID Gh_AN = myid ->
   forall ghost,
     Hlr (Calc_MatrixElements_Vlr idx_P
            {| Hlr := Hlr m; Vlr_Grid := Vlr_Grid m; Orbs_Grid := Orbs_Grid m;
               Orbs_Grid_FNAN := ghost |}) idx_P Mc_AN h_AN i j
     = Hlr (Calc_MatrixElements_Vlr idx_P m) idx_P Mc_AN h_AN i j) /\
  (G2ID Gh_AN <> myid ->
   forall local,
     (forall Nc i, local Mc_AN Nc i = Orbs_Grid m Mc_AN Nc i) ->
     Hlr (Calc_MatrixElements_Vlr idx_P
            {| Hlr := Hlr m; Vlr_Grid := Vlr_Grid m; Orbs_Grid := local;
               Orbs_Grid_FNAN := Orbs_Grid_FNAN m |}) idx_P Mc_AN h_AN i j
     = Hlr (Calc_MatrixElements_Vlr idx_P m) idx_P Mc_AN h_AN i j).
Proof.
  intros HMc Hh Hi Hj Gh_AN Mh_AN. split; [|split].
  - rewrite Calc_Hlr_seeded by assumption. reflexivity.
  - intros Hown ghost. rewrite !Calc_Hlr_seeded by assumption.
    cbn [Hlr]. unfold quadrature.
    apply for_each_ext. intros Nog x _.
    unfold integrand, owner_factor, neighbor_factor. fold Gh_AN.
    apply Nat.eqb_eq in Hown. rewrite Hown. reflexivity.
  - intros Hrem local Hrow. rewrite !Calc_Hlr_seeded by assumption.
    cbn [Hlr]. unfold quadrature.
    apply for_each_ext. intros Nog x _.
    unfold integrand, owner_factor, neighbor_factor. fold Gh_AN.
    apply Nat.eqb_neq in Hrem. rewrite Hrem.
    cbn [Orbs_Grid Vlr_Grid Orbs_Grid_FNAN]. rewrite Hrow. reflexivity.
Qed.

(** C10.  A call for the source [idx_P] leaves [Vlr_Grid], [Orbs_Grid] and
    [Orbs_Grid_FNAN] as they were, and changes no entry of [Hlr] other than
    the entries [Hlr[idx_P][Mc_AN][h_AN][i][j]] with [Mc_AN] an atom of the
    process, [h_AN <= FNAN], [i < NO0] and [j < NO1]; in particular it
    leaves every other source [q <> idx_P] unchanged. *)
Theorem Calc_MatrixElements_Vlr_frame idx_P (m : memory) :
  let m' := Calc_MatrixElements_Vlr idx_P m in
  Vlr_Grid m' = Vlr_Grid m /\
  Orbs_Grid m' = Orbs_Grid m /\
  Orbs_Grid_FNAN m' = Orbs_Grid_FNAN m /\
  forall q Mc_AN h_AN i j,
    ~ (q = idx_P /\ (1 <= Mc_AN <= Matomnum)%nat /\
       (h_AN <= FNAN (M2G Mc_AN))%nat /\
       (i < Spe_Total_NO (WhatSpecies (M2G Mc_AN)))%nat /\
       (j < Spe_Total_NO (WhatSpecies (natn (M2G Mc_AN) h_AN)))%nat) ->
    Hlr m' q Mc_AN h_AN i j = Hlr m q Mc_AN h_AN i j.
Proof.
  cbv zeta. destruct (Calc_fields idx_P m) as (H1 & H2 & H3).
  repeat split; try assumption.
  intros q Mc_AN h_AN i j Hout. apply Calc_Hlr_outside. exact Hout.
Qed.

(** C1 (amended).  A call does not compute the block of a task from the
    potential and the orbitals alone: it starts from the entry it finds in
    [Hlr], adds the terms of the quadrature to it, grid point after grid
    point, and writes the result back.  A second call with the same
    potential, orbitals and neighbour lists therefore starts from the result
    of the first and adds the same terms again; its result need not be that
    of the first.  The same holds for [Set_Hlr] and each of its sources
    [1..Matomnum]. *)
Theorem Calc_MatrixElements_Vlr_twice idx_P (m : memory) Mc_AN h_AN i j :
  (1 <= Mc_AN <= Matomnum)%nat -> (h_AN <= FNAN (M2G Mc_AN))%nat ->
  (i < Spe_Total_NO (WhatSpecies (M2G Mc_AN)))%nat ->
  (j < Spe_Total_NO (WhatSpecies (natn (M2G Mc_AN) h_AN)))%nat ->
  (let m1 := Calc_MatrixElements_Vlr idx_P m in
   let m2 := Calc_MatrixElements_Vlr idx_P m1 in
   Hlr m1 idx_P Mc_AN h_AN i j
   = quadrature idx_P m Mc_AN h_AN i j (Hlr m idx_P Mc_AN h_AN i j) /\
   Hlr m2 idx_P Mc_AN h_AN i j
   = quadrature idx_P m Mc_AN h_AN i j (Hlr m1 idx_P Mc_AN h_AN i j)) /\
  ((1 <= idx_P <= Matomnum)%nat ->
   let m1 := Set_Hlr m in
   let m2 := Set_Hlr m1 in
   Hlr m1 idx_P Mc_AN h_AN i j
   = quadrature idx_P m Mc_AN h_AN i j (Hlr m idx_P Mc_AN h_AN i j) /\
   Hlr m2 idx_P Mc_AN h_AN i j
   = quadrature idx_P m Mc_AN h_AN i j (Hlr m1 idx_P Mc_AN h_AN i j)).
Proof.
  intros HMc Hh Hi Hj. split.
  - intros m1 m2. split; [apply Calc_Hlr_seeded; assumption|].
    unfold m2. rewrite Calc_Hlr_seeded by assumption.
    destruct (Calc_fields idx_P m) as (F1 & F2 & F3).
    apply quadrature_fields; assumption.
  - intros Hidx m1 m2.
    assert (Hsrc : In idx_P (seq 1 Matomnum)) by (apply in_seq; lia).
    split.
    + apply (run_sources_seeded (seq 1 Matomnum)); try assumption.
      apply seq_NoDup.
    + unfold m2, Set_Hlr. fold (run_sources (seq 1 Matomnum) m1).
      rewrite (run_sources_seeded (seq 1 Matomnum))
        by (assumption || apply seq_NoDup).
      destruct (run_sources_fields (seq 1 Matomnum) m) as (F1 & F2 & F3).
      apply quadrature_fields; assumption.
Qed.

(** *** Further properties of the quadrature *)

Lemma run_sources_outside sources m q Mc_AN h_AN i j :
  ~ (In q sources /\ (1 <= Mc_AN <= Matomnum)%nat /\
     (h_AN <= FNAN (M2G Mc_AN))%nat /\
     (i < NO0_of Mc_AN)%nat /\ (j < NO1_of Mc_AN h_AN)%nat) ->
  Hlr (run_sources sources m) q Mc_AN h_AN i j = Hlr m q Mc_AN h_AN i j.
Proof.
  revert m. induction sources as [|a l IH]; intros m Hout; [reflexivity|].
  rewrite run_sources_cons. rewrite IH.
  - apply Calc_Hlr_outside. intros (Hq & Hrest). apply Hout.
    split; [left; congruence|exact Hrest].
  - intros (Hq & Hrest). apply Hout. split; [right; exact Hq|exact Hrest].
Qed.

(** X5.  [Set_Hlr] leaves [Vlr_Grid], [Orbs_Grid] and [Orbs_Grid_FNAN] as
    they were and writes the blocks of the sources [1..Matomnum] only: every
    entry of [Hlr] whose source is 0 or above [Matomnum], or which lies
    outside the blocks of the tasks, keeps its value. *)
Theorem Set_Hlr_frame (m : memory) :
  Vlr_Grid (Set_Hlr m) = Vlr_Grid m /\
  Orbs_Grid (Set_Hlr m) = Orbs_Grid m /\
  Orbs_Grid_FNAN (Set_Hlr m) = Orbs_Grid_FNAN m /\
  forall q Mc_AN h_AN i j,
    ~ ((1 <= q <= Matomnum)%nat /\ (1 <= Mc_AN <= Matomnum)%nat /\
       (h_AN <= FNAN (M2G Mc_AN))%nat /\
       (i < Spe_Total_NO (WhatSpecies (M2G Mc_AN)))%nat /\
       (j < Spe_Total_NO (WhatSpecies (natn (M2G Mc_AN) h_AN)))%nat) ->
    Hlr (Set_Hlr m) q Mc_AN h_AN i j = Hlr m q Mc_AN h_AN i j.
Proof.
  destruct (run_sources_fields (seq 1 Matomnum) m) as (F1 & F2 & F3).
  repeat split; try assumption.
  intros q Mc_AN h_AN i j Hout.
  apply (run_sources_outside (seq 1 Matomnum)).
  intros (Hq & Hrest). apply Hout. apply in_seq in Hq.
  split; [lia|exact Hrest].
Qed.

(** X6.  The tasks of a call commute: run in any order of the
    one-dimensionalized index, and from any content of the scratch block,
    they leave in [Hlr] what the call leaves.  The threads of the parallel
    loop may thus share the tasks in any way. *)
Theorem tasks_commute idx_P (m : memory) (sched : list nat) (T : block)
  q Mc_AN h_AN i j :
  Permutation sched (seq 0 (Nloop list_tasks)) ->
  Hlr (fst (for_each sched
              (fun n st =>
                 task idx_P (OneD2Mc_AN list_tasks n) (OneD2h_AN list_tasks n) st)
              (m, T))) q Mc_AN h_AN i j
  = Hlr (Calc_MatrixElements_Vlr idx_P m) q Mc_AN h_AN i j.
Proof.
  intros Hperm.
  rewrite Calc_MatrixElements_Vlr_run.
  assert (Hrun :
    for_each sched
      (fun n st =>
         task idx_P (OneD2Mc_AN list_tasks n) (OneD2h_AN list_tasks n) st) (m, T)
    = run_tasks idx_P
        (map (fun n => (OneD2Mc_AN list_tasks n, OneD2h_AN list_tasks n)) sched)
        (m, T)).
  { apply (for_each_map
             (fun n => (OneD2Mc_AN list_tasks n, OneD2h_AN list_tasks n))
             (fun p st => task idx_P (fst p) (snd p) st)). }
  rewrite Hrun.
  apply run_tasks_schedule; [apply task_pairs_NoDup|].
  rewrite <- (proj2 list_tasks_pairs).
  apply Permutation_map. apply Permutation_sym. exact Hperm.
Qed.

(** X7.  When the received orbitals of a pair are those the neighbour has
    in the local array, the block of the pair is the one computed from the
    local array alone: which process owns the neighbour does not matter. *)
Theorem ghost_agrees_with_local idx_P (m : memory) Mc_AN h_AN i j :
  (1 <= Mc_AN <= Matomnum)%nat -> (h_AN <= FNAN (M2G Mc_AN))%nat ->
  (i < Spe_Total_NO (WhatSpecies (M2G Mc_AN)))%nat ->
  (j < Spe_Total_NO (WhatSpecies (natn (M2G Mc_AN) h_AN)))%nat ->
  (forall Nog,
     (Nog < NumOLG Mc_AN h_AN)%nat ->
     Orbs_Grid_FNAN m Mc_AN h_AN Nog j
     = Orbs_Grid m (F_G2M (natn (M2G Mc_AN) h_AN))
         (GListTAtoms2 Mc_AN h_AN Nog) j) ->
  Hlr (Calc_MatrixElements_Vlr idx_P m) idx_P Mc_AN h_AN i j
  = for_each (seq 0 (NumOLG Mc_AN h_AN))
      (fun Nog x =>
         x + GridVol
             * Vlr_Grid m idx_P (MGridListAtom Mc_AN (GListTAtoms1 Mc_AN h_AN Nog))
             * Orbs_Grid m Mc_AN (GListTAtoms1 Mc_AN h_AN Nog) i
             * Orbs_Grid m (F_G2M (natn (M2G Mc_AN) h_AN))
                 (GListTAtoms2 Mc_AN h_AN Nog) j)
      (Hlr m idx_P Mc_AN h_AN i j).
Proof.
  intros HMc Hh Hi Hj Hghost.
  rewrite Calc_Hlr_inside by assumption.
  rewrite <- quadrature_shift. unfold quadrature.
  apply for_each_ext. intros Nog x HNog. apply in_seq in HNog.
  unfold integrand, owner_factor, neighbor_factor.
  destruct (G2ID (natn (M2G Mc_AN) h_AN) =? myid)%nat; [reflexivity|].
  rewrite Hghost by lia. reflexivity.
Qed.

Lemma quadrature_zero idx_P (m : memory) Mc_AN h_AN i j :
  (forall Nog, (Nog < NumOLG Mc_AN h_AN)%nat ->
     Vlr_Grid m idx_P (MGridListAtom Mc_AN (GListTAtoms1 Mc_AN h_AN Nog)) = 0) ->
  quadrature idx_P m Mc_AN h_AN i j 0 = 0.
Proof.
  intros Hzero. unfold quadrature.
  induction (NumOLG Mc_AN h_AN) as [|n IH]; [reflexivity|].
  rewrite for_each_snoc, IH by (intros; apply Hzero; lia).
  cbn [plus]. unfold integrand. rewrite Hzero by lia. lra.
Qed.

(** X8.  When the potential of the source vanishes on the grid points of
    every pair (in particular when no pair has a grid point), the call
    leaves [Hlr] as it was. *)
Theorem zero_potential_leaves_Hlr idx_P (m : memory) :
  (forall Mc_AN h_AN Nog,
     (1 <= Mc_AN <= Matomnum)%nat -> (h_AN <= FNAN (M2G Mc_AN))%nat ->
     (Nog < NumOLG Mc_AN h_AN)%nat ->
     Vlr_Grid m idx_P (MGridListAtom Mc_AN (GListTAtoms1 Mc_AN h_AN Nog)) = 0) ->
  forall q Mc_AN h_AN i j,
    Hlr (Calc_MatrixElements_Vlr idx_P m) q Mc_AN h_AN i j
    = Hlr m q Mc_AN h_AN i j.
Proof.
  intros Hzero q Mc_AN h_AN i j.
  destruct (Nat.eq_dec q idx_P) as [->|Hq];
    [|apply Calc_Hlr_outside; tauto].
  destruct (le_dec 1 Mc_AN) as [H1|H1]; [|apply Calc_Hlr_outside; lia].
  destruct (le_dec Mc_AN Matomnum) as [H2|H2]; [|apply Calc_Hlr_outside; lia].
  destruct (le_dec h_AN (FNAN (M2G Mc_AN))) as [H3|H3];
    [|apply Calc_Hlr_outside; tauto].
  destruct (lt_dec i (NO0_of Mc_AN)) as [H4|H4];
    [|apply Calc_Hlr_outside; tauto].
  destruct (lt_dec j (NO1_of Mc_AN h_AN)) as [H5|H5];
    [|apply Calc_Hlr_outside; tauto].
  rewrite Calc_Hlr_inside by (assumption || lia).
  rewrite quadrature_zero; [lra|].
  intros Nog HNog. apply Hzero; (assumption || lia).
Qed.

End Engine.

(** *** One atom with one remote neighbour *)

Local Close Scope R_scope.

(** Process 0 owns atom 1, whose neighbours are itself ([h_AN = 0]) and
    atom 2 ([h_AN = 1]), owned by process 1.  Every atom has one orbital,
    every pair one grid point; [GridVol], the potential and the local
    orbitals are 1, the received orbitals are 2, [Hlr] starts at 0. *)
Definition demo_Calc : nat -> memory -> memory :=
Calc_MatrixElements_Vlr 0 1 (fun Mc_AN => Mc_AN) (fun _ => 1)
  (fun _ h_AN => (1 + h_AN)%nat) (fun Gh_AN => Gh_AN) (fun G => (G - 1)%nat)
  (fun _ => 0) (fun _ => 1) (fun _ _ => 1)
  (fun _ _ _ => 0) (fun _ _ _ => 0) (fun _ _ => 0) 1%R
  (fun _ => 0) (fun _ _ => 0%R).

Definition demo_Set_Hlr : memory -> memory :=
Set_Hlr 0 1 (fun Mc_AN => Mc_AN) (fun _ => 1)
  (fun _ h_AN => (1 + h_AN)%nat) (fun Gh_AN => Gh_AN) (fun G => (G - 1)%nat)
  (fun _ => 0) (fun _ => 1) (fun _ _ => 1)
  (fun _ _ _ => 0) (fun _ _ _ => 0) (fun _ _ => 0) 1%R
  (fun _ => 0) (fun _ _ => 0%R).

Definition demo_memory : memory :=
{| Hlr := fun _ _ _ _ _ => 0%R;
   Vlr_Grid := fun _ _ => 1%R;
   Orbs_Grid := fun _ _ _ => 1%R;
   Orbs_Grid_FNAN := fun _ _ _ _ => 2%R |}.

(** C1, as stated, fails: with the same potential, orbitals and neighbour
    lists, the block of the pair (1,0) is 1 after one call and 2 after two
    calls, for [Calc_MatrixElements_Vlr] and for [Set_Hlr] alike: the
    scratch block starts from the content of [Hlr]. *)
Lemma Calc_MatrixElements_Vlr_not_idempotent :
  Hlr (demo_Calc 1 demo_memory) 1 1 0 0 0 = 1%R /\
  Hlr (demo_Calc 1 (demo_Calc 1 demo_memory)) 1 1 0 0 0 = 2%R /\
  Hlr (demo_Calc 1 (demo_Calc 1 demo_memory)) 1 1 0 0 0
  <> Hlr (demo_Calc 1 demo_memory) 1 1 0 0 0 /\
  Hlr (demo_Set_Hlr (demo_Set_Hlr demo_memory)) 1 1 0 0 0
  <> Hlr (demo_Set_Hlr demo_memory) 1 1 0 0 0.
Proof.
  vm_compute. repeat split; lra.
Qed.

Lemma Calc_MatrixElements_Vlr_twice_witness :
  Hlr (demo_Calc 1 (demo_Calc 1 demo_memory)) 1 1 1 0 0
  = quadrature 0 (fun Mc_AN => Mc_AN) (fun _ h_AN => (1 + h_AN)%nat)
      (fun Gh_AN => Gh_AN) (fun G => (G - 1)%nat) (fun _ _ => 1)
      (fun _ _ _ => 0) (fun _ _ _ => 0) (fun _ _ => 0) 1%R
      1 demo_memory 1 1 0 0 (Hlr (demo_Calc 1 demo_memory) 1 1 1 0 0).
Proof.
  apply (Calc_MatrixElements_Vlr_twice 0 1 (fun Mc_AN => Mc_AN) (fun _ => 1)
           (fun _ h_AN => (1 + h_AN)%nat) (fun Gh_AN => Gh_AN)
           (fun G => (G - 1)%nat) (fun _ => 0) (fun _ => 1)
           (fun _ _ => 1) (fun _ _ _ => 0) (fun _ _ _ => 0)
           (fun _ _ => 0) 1%R (fun _ => 0) (fun _ _ => 0%R)
           1 demo_memory 1 1 0 0); lia.
Defined.

(** The task list of the example is [(1,0); (1,1)]. *)
Lemma task_list_enumerates_witness :
  In (1, 1) (task_pairs 1 (fun Mc_AN => Mc_AN) (fun _ => 1)).
Proof.
  apply (proj1 (proj2 (proj2 (proj2 (proj2
           (task_list_enumerates 0 1 (fun Mc_AN => Mc_AN) (fun _ => 1)
              (fun _ h_AN => (1 + h_AN)%nat) (fun Gh_AN => Gh_AN)
              (fun G => (G - 1)%nat) (fun _ => 0) (fun _ => 1)
              (fun _ _ => 1) (fun _ _ _ => 0) (fun _ _ _ => 0)
              (fun _ _ => 0) 1%R (fun _ => 0) (fun _ _ => 0%R))))))).
  lia.
Defined.

(** For the pair (1,0) the neighbour is owned by the process: the received
    orbitals are not read.  For the pair (1,1) it is not: the local orbitals
    of other atoms are not read. *)
Lemma neighbor_orbital_source_witness :
  (forall ghost,
     Hlr (demo_Calc 1
            {| Hlr := Hlr demo_memory; Vlr_Grid := Vlr_Grid demo_memory;
               Orbs_Grid := Orbs_Grid demo_memory; Orbs_Grid_FNAN := ghost |})
       1 1 0 0 0
     = Hlr (demo_Calc 1 demo_memory) 1 1 0 0 0) /\
  Hlr (demo_Calc 1
         {| Hlr := Hlr demo_memory; Vlr_Grid := Vlr_Grid demo_memory;
            Orbs_Grid := fun a _ _ => if (a =? 1)%nat then 1%R else 7%R;
            Orbs_Grid_FNAN := Orbs_Grid_FNAN demo_memory |}) 1 1 1 0 0
  = Hlr (demo_Calc 1 demo_memory) 1 1 1 0 0.
Proof.
  split.
  - apply (proj1 (proj2
             (neighbor_orbital_source 0 1 (fun Mc_AN => Mc_AN) (fun _ => 1)
                (fun _ h_AN => (1 + h_AN)%nat) (fun Gh_AN => Gh_AN)
                (fun G => (G - 1)%nat) (fun _ => 0) (fun _ => 1)
                (fun _ _ => 1) (fun _ _ _ => 0) (fun _ _ _ => 0)
                (fun _ _ => 0) 1%R (fun _ => 0) (fun _ _ => 0%R)
                1 demo_memory 1 0 0 0
                ltac:(lia) ltac:(cbn; lia) ltac:(cbn; lia) ltac:(cbn; lia)))).
    reflexivity.
  - apply (proj2 (proj2
             (neighbor_orbital_source 0 1 (fun Mc_AN => Mc_AN) (fun _ => 1)
                (fun _ h_AN => (1 + h_AN)%nat) (fun Gh_AN => Gh_AN)
                (fun G => (G - 1)%nat) (fun _ => 0) (fun _ => 1)
                (fun _ _ => 1) (fun _ _ _ => 0) (fun _ _ _ => 0)
                (fun _ _ => 0) 1%R (fun _ => 0) (fun _ _ => 0%R)
                1 demo_memory 1 1 0 0
                ltac:(lia) ltac:(cbn; lia) ltac:(cbn; lia) ltac:(cbn; lia)))).
    + cbn. lia.
    + intros Nc i. reflexivity.
Defined.

(** The call for source 1 leaves the blocks of source 2 alone. *)
Lemma Calc_MatrixElements_Vlr_frame_witness :
  Hlr (demo_Calc 1 demo_memory) 2 1 0 0 0 = Hlr demo_memory 2 1 0 0 0.
Proof.
  apply (Calc_MatrixElements_Vlr_frame 0 1 (fun Mc_AN => Mc_AN) (fun _ => 1)
           (fun _ h_AN => (1 + h_AN)%nat) (fun Gh_AN => Gh_AN)
           (fun G => (G - 1)%nat) (fun _ => 0) (fun _ => 1)
           (fun _ _ => 1) (fun _ _ _ => 0) (fun _ _ _ => 0)
           (fun _ _ => 0) 1%R (fun _ => 0) (fun _ _ => 0%R)
           1 demo_memory).
  lia.
Defined.

(** Source 2 is above [Matomnum = 1]: [Set_Hlr] leaves its blocks alone. *)
Lemma Set_Hlr_frame_witness :
  Hlr (demo_Set_Hlr demo_memory) 2 1 0 0 0 = Hlr demo_memory 2 1 0 0 0.
Proof.
  apply (Set_Hlr_frame 0 1 (fun Mc_AN => Mc_AN) (fun _ => 1)
           (fun _ h_AN => (1 + h_AN)%nat) (fun Gh_AN => Gh_AN)
           (fun G => (G - 1)%nat) (fun _ => 0) (fun _ => 1)
           (fun _ _ => 1) (fun _ _ _ => 0) (fun _ _ _ => 0)
           (fun _ _ => 0) 1%R (fun _ => 0) (fun _ _ => 0%R) demo_memory).
  lia.
Defined.

(** The two tasks of the example, run in the reverse order and from another
    scratch block. *)
Lemma tasks_commute_witness :
  Hlr (fst (Loops.for_each [1; 0]
              (fun n st =>
                 task 0 (fun Mc_AN => Mc_AN) (fun _ h_AN => (1 + h_AN)%nat)
                   (fun Gh_AN => Gh_AN) (fun G => (G - 1)%nat) (fun _ => 0)
                   (fun _ => 1) (fun _ _ => 1) (fun _ _ _ => 0)
                   (fun _ _ _ => 0) (fun _ _ => 0) 1%R 1
                   (OneD2Mc_AN (list_tasks 1 (fun Mc_AN => Mc_AN) (fun _ => 1)
                                  (fun _ => 0)) n)
                   (OneD2h_AN (list_tasks 1 (fun Mc_AN => Mc_AN) (fun _ => 1)
                                 (fun _ => 0)) n) st)
              (demo_memory, fun _ _ => 9%R))) 1 1 1 0 0
  = Hlr (demo_Calc 1 demo_memory) 1 1 1 0 0.
Proof.
  apply (tasks_commute 0 1 (fun Mc_AN => Mc_AN) (fun _ => 1)
           (fun _ h_AN => (1 + h_AN)%nat) (fun Gh_AN => Gh_AN)
           (fun G => (G - 1)%nat) (fun _ => 0) (fun _ => 1)
           (fun _ _ => 1) (fun _ _ _ => 0) (fun _ _ _ => 0)
           (fun _ _ => 0) 1%R (fun _ => 0) (fun _ _ => 0%R)
           1 demo_memory [1; 0] (fun _ _ => 9%R) 1 1 1 0 0).
  apply perm_swap.
Defined.

(** The example with received orbitals equal to the local ones (1), and
    with a potential that vanishes. *)
Definition matching_memory : memory :=
{| Hlr := fun _ _ _ _ _ => 0%R;
   Vlr_Grid := fun _ _ => 1%R;
   Orbs_Grid := fun _ _ _ => 1%R;
   Orbs_Grid_FNAN := fun _ _ _ _ => 1%R |}.

Definition silent_memory : memory :=
{| Hlr := fun _ _ _ _ _ => 4%R;
   Vlr_Grid := fun _ _ => 0%R;
   Orbs_Grid := fun _ _ _ => 1%R;
   Orbs_Grid_FNAN := fun _ _ _ _ => 2%R |}.

Lemma ghost_agrees_with_local_witness :
  Hlr (demo_Calc 1 matching_memory) 1 1 1 0 0
  = Loops.for_each (seq 0 1)
      (fun Nog x => Rplus x (Rmult (Rmult (Rmult 1 1) 1) 1))
      (Hlr matching_memory 1 1 1 0 0).
Proof.
  apply (ghost_agrees_with_local 0 1 (fun Mc_AN => Mc_AN) (fun _ => 1)
           (fun _ h_AN => (1 + h_AN)%nat) (fun Gh_AN => Gh_AN)
           (fun G => (G - 1)%nat) (fun _ => 0) (fun _ => 1)
           (fun _ _ => 1) (fun _ _ _ => 0) (fun _ _ _ => 0)
           (fun _ _ => 0) 1%R (fun _ => 0) (fun _ _ => 0%R)
           1 matching_memory 1 1 0 0); try lia.
  intros Nog _. reflexivity.
Defined.

Lemma zero_potential_leaves_Hlr_witness :
  Hlr (demo_Calc 1 silent_memory) 1 1 1 0 0 = Hlr silent_memory 1 1 1 0 0.
Proof.
  apply (zero_potential_leaves_Hlr 0 1 (fun Mc_AN => Mc_AN) (fun _ => 1)
           (fun _ h_AN => (1 + h_AN)%nat) (fun Gh_AN => Gh_AN)
           (fun G => (G - 1)%nat) (fun _ => 0) (fun _ => 1)
           (fun _ _ => 1) (fun _ _ _ => 0) (fun _ _ _ => 0)
           (fun _ _ => 0) 1%R (fun _ => 0) (fun _ _ => 0%R)
           1 silent_memory).
  intros Mc_AN h_AN Nog _ _ _. reflexivity.
Defined.

End Quadrature.

(** ** Set_initial_Hamiltonian: the blocks of H from H0, HNL and the
    optional terms *)

Module Hamiltonian.
Import Loops.
Local Open Scope R_scope.

(** [H[spin][Mc_AN][h_AN][i][j]] and [HVNA[Mc_AN][h_AN][i][j]].  The array
    written, [H], is taken to be distinct from the arrays read, as it is at
    the call in [main].  The message printed for the mode "stdout", the
    barrier and the timer do not act on the arrays and are left out. *)
Definition array5 : Type := nat -> nat -> nat -> nat -> nat -> R.
Definition array4 : Type := nat -> nat -> nat -> nat -> R.

Definition set5 (H : array5) (spin Mc_AN h_AN i j : nat) (v : R) : array5 :=
  fun spin' Mc_AN' h_AN' i' j' =>
    if (spin' =? spin)%nat && (Mc_AN' =? Mc_AN)%nat && (h_AN' =? h_AN)%nat
       && (i' =? i)%nat && (j' =? j)%nat
    then v else H spin' Mc_AN' h_AN' i' j'.

Section Set_initial_Hamiltonian.

(** Globals: the atoms of the process and their neighbours, the switches of
    the run (a flag that multiplies a double is converted to it), and the
    arrays of the optional terms. *)
Variable Matomnum : nat.
Variables M2G WhatSpecies FNAN Spe_Total_NO : nat -> nat.
Variable natn : nat -> nat -> nat.
Variable SpinP_switch : nat.
Variables ProExpn_VNA F_Kin_flag F_NL_flag F_VNA_flag : Z.
Variables Hub_U_switch Constraint_NCS_switch F_U_flag : Z.
Variables core_hole_state_flag SO_switch : Z.
Variable HVNA : array4.
Variables H_Hub HCH : array5.

(** [Contract_Hamiltonian] and [Contract_iHNL] are defined in other files:
    what the two calls do to [H] is left open. *)
Variables Contract_Hamiltonian Contract_iHNL : array5 -> array5.

(** [(Hub_U_switch == 1 || 1 <= Constraint_NCS_switch) && F_U_flag == 1
     && 2 <= SCF_iter] *)
Definition Hubbard_on (SCF_iter : Z) : bool :=
  ((Hub_U_switch =? 1)%Z || (1 <=? Constraint_NCS_switch)%Z)
  && (F_U_flag =? 1)%Z && (2 <=? SCF_iter)%Z.

(** The body of the four loops in the non-collinear branch. *)
Definition element_NC (SCF_iter : Z) (H0 HNL : array5) (Mc_AN h_AN i j : nat)
  (H : array5) : array5 :=
  let H :=
    if (ProExpn_VNA =? 0)%Z then
      let H := set5 H 0 Mc_AN h_AN i j
                 (IZR F_Kin_flag * H0 0%nat Mc_AN h_AN i j
                  + IZR F_NL_flag * HNL 0%nat Mc_AN h_AN i j) in
      let H := set5 H 1 Mc_AN h_AN i j
                 (IZR F_Kin_flag * H0 0%nat Mc_AN h_AN i j
                  + IZR F_NL_flag * HNL 1%nat Mc_AN h_AN i j) in
      let H := set5 H 2 Mc_AN h_AN i j
                 (IZR F_NL_flag * HNL 2%nat Mc_AN h_AN i j) in
      set5 H 3 Mc_AN h_AN i j 0
    else
      let H := set5 H 0 Mc_AN h_AN i j
                 (IZR F_Kin_flag * H0 0%nat Mc_AN h_AN i j
                  + IZR F_VNA_flag * HVNA Mc_AN h_AN i j
                  + IZR F_NL_flag * HNL 0%nat Mc_AN h_AN i j) in
      let H := set5 H 1 Mc_AN h_AN i j
                 (IZR F_Kin_flag * H0 0%nat Mc_AN h_AN i j
                  + IZR F_VNA_flag * HVNA Mc_AN h_AN i j
                  + IZR F_NL_flag * HNL 1%nat Mc_AN h_AN i j) in
      let H := set5 H 2 Mc_AN h_AN i j
                 (IZR F_NL_flag * HNL 2%nat Mc_AN h_AN i j) in
      set5 H 3 Mc_AN h_AN i j 0 in
  let H :=
    if Hubbard_on SCF_iter then
      let H := set5 H 0 Mc_AN h_AN i j
                 (H 0%nat Mc_AN h_AN i j + H_Hub 0%nat Mc_AN h_AN i j) in
      let H := set5 H 1 Mc_AN h_AN i j
                 (H 1%nat Mc_AN h_AN i j + H_Hub 1%nat Mc_AN h_AN i j) in
      set5 H 2 Mc_AN h_AN i j
        (H 2%nat Mc_AN h_AN i j + H_Hub 2%nat Mc_AN h_AN i j)
    else H in
  if (core_hole_state_flag =? 1)%Z then
    let H := set5 H 0 Mc_AN h_AN i j
               (H 0%nat Mc_AN h_AN i j + HCH 0%nat Mc_AN h_AN i j) in
    let H := set5 H 1 Mc_AN h_AN i j
               (H 1%nat Mc_AN h_AN i j + HCH 1%nat Mc_AN h_AN i j) in
    set5 H 2 Mc_AN h_AN i j
      (H 2%nat Mc_AN h_AN i j + HCH 2%nat Mc_AN h_AN i j)
  else H.

(** The body of the loop over [spin] in the collinear branch. *)
Definition element_spin (SCF_iter : Z) (H0 HNL : array5)
  (Mc_AN h_AN i j spin : nat) (H : array5) : array5 :=
  let H :=
    if (ProExpn_VNA =? 0)%Z then
      set5 H spin Mc_AN h_AN i j
        (IZR F_Kin_flag * H0 0%nat Mc_AN h_AN i j
         + IZR F_NL_flag * HNL spin Mc_AN h_AN i j)
    else
      set5 H spin Mc_AN h_AN i j
        (IZR F_Kin_flag * H0 0%nat Mc_AN h_AN i j
         + IZR F_VNA_flag * HVNA Mc_AN h_AN i j
         + IZR F_NL_flag * HNL spin Mc_AN h_AN i j) in
  let H :=
    if Hubbard_on SCF_iter then
      set5 H spin Mc_AN h_AN i j
        (H spin Mc_AN h_AN i j + H_Hub spin Mc_AN h_AN i j)
    else H in
  if (core_hole_state_flag =? 1)%Z then
    set5 H spin Mc_AN h_AN i j
      (H spin Mc_AN h_AN i j + HCH spin Mc_AN h_AN i j)
  else H.

Definition element_C (SCF_iter : Z) (H0 HNL : array5) (Mc_AN h_AN i j : nat)
  (H : array5) : array5 :=
  for_each (seq 0 (SpinP_switch + 1))
    (element_spin SCF_iter H0 HNL Mc_AN h_AN i j) H.

(** The four loops over [Mc_AN], [h_AN], [i] and [j], which the two branches
    have in common. *)
Definition sweep (element : nat -> nat -> nat -> nat -> array5 -> array5)
  (H : array5) : array5 :=
  for_each (seq 1 Matomnum)
    (fun Mc_AN H =>
       let Gc_AN := M2G Mc_AN in
       let Cwan := WhatSpecies Gc_AN in
       for_each (seq 0 (FNAN Gc_AN + 1))
         (fun h_AN H =>
            let Gh_AN := natn Gc_AN h_AN in
            let Hwan := WhatSpecies Gh_AN in
            for_each (seq 0 (Spe_Total_NO Cwan))
              (fun i H =>
                 for_each (seq 0 (Spe_Total_NO Hwan))
                   (fun j H => element Mc_AN h_AN i j H) H) H) H) H.

Definition Set_initial_Hamiltonian (SCF_iter Cnt_kind : Z)
  (H0 HNL H : array5) : array5 :=
  let H :=
    if (SpinP_switch =? 3)%nat
    then sweep (element_NC SCF_iter H0 HNL) H
    else sweep (element_C SCF_iter H0 HNL) H in
  if (Cnt_kind =? 1)%Z then
    let H := Contract_Hamiltonian H in
    if (SO_switch =? 1)%Z then Contract_iHNL H else H
  else H.

(** *** The cells after the loops *)

(** [f] sets the cells selected by [P] to the values of [F] and leaves the
    other cells as they are. *)
Definition overwrites (P : nat -> nat -> nat -> nat -> nat -> bool)
  (F : array5) (f : array5 -> array5) : Prop :=
  forall H spin Mc_AN h_AN i j,
    f H spin Mc_AN h_AN i j
    = if P spin Mc_AN h_AN i j
      then F spin Mc_AN h_AN i j else H spin Mc_AN h_AN i j.

Lemma overwrites_for_each
  (P : nat -> nat -> nat -> nat -> nat -> nat -> bool) F body l :
  (forall k, overwrites (P k) F (body k)) ->
  overwrites (fun s M h i j => existsb (fun k => P k s M h i j) l) F
    (for_each l body).
Proof.
  intros Hb. induction l as [|x l IH]; intros H s M h i j.
  - reflexivity.
  - rewrite for_each_cons, IH. cbn [existsb]. rewrite (Hb x).
    destruct (P x s M h i j), (existsb (fun k => P k s M h i j) l);
      reflexivity.
Qed.

Lemma overwrites_ext P P' F f :
  (forall s M h i j, P s M h i j = P' s M h i j) ->
  overwrites P F f -> overwrites P' F f.
Proof.
  intros HP Hf H s M h i j. rewrite Hf, HP. reflexivity.
Qed.

(** The value of a cell of [H] after the loops: the kinetic term of spin 0,
    the VNA term when it is expanded by projectors, the non-local term of
    the spin, then the Hubbard and the core-hole term when they are on. *)
Definition base_value (H0 HNL : array5) (spin Mc_AN h_AN i j : nat) : R :=
  if (ProExpn_VNA =? 0)%Z then
    IZR F_Kin_flag * H0 0%nat Mc_AN h_AN i j
    + IZR F_NL_flag * HNL spin Mc_AN h_AN i j
  else
    IZR F_Kin_flag * H0 0%nat Mc_AN h_AN i j
    + IZR F_VNA_flag * HVNA Mc_AN h_AN i j
    + IZR F_NL_flag * HNL spin Mc_AN h_AN i j.

Definition with_terms (SCF_iter : Z) (spin Mc_AN h_AN i j : nat) (x : R) : R :=
  let x := if Hubbard_on SCF_iter
           then x + H_Hub spin Mc_AN h_AN i j else x in
  if (core_hole_state_flag =? 1)%Z then x + HCH spin Mc_AN h_AN i j else x.

Definition value_C (SCF_iter : Z) (H0 HNL : array5) : array5 :=
  fun spin Mc_AN h_AN i j =>
    with_terms SCF_iter spin Mc_AN h_AN i j
      (base_value H0 HNL spin Mc_AN h_AN i j).

Definition value_NC (SCF_iter : Z) (H0 HNL : array5) : array5 :=
  fun spin Mc_AN h_AN i j =>
    match spin with
    | 0%nat | 1%nat =>
        with_terms SCF_iter spin Mc_AN h_AN i j
          (base_value H0 HNL spin Mc_AN h_AN i j)
    | 2%nat =>
        with_terms SCF_iter 2 Mc_AN h_AN i j
          (IZR F_NL_flag * HNL 2%nat Mc_AN h_AN i j)
    | _ => 0
    end.

Definition value (SCF_iter : Z) (H0 HNL : array5) : array5 :=
  if (SpinP_switch =? 3)%nat
  then value_NC SCF_iter H0 HNL else value_C SCF_iter H0 HNL.

(** The cells written at one step [(Mc_AN, h_AN, i, j)]. *)
Definition touched (Mc_AN h_AN i j spin' Mc_AN' h_AN' i' j' : nat) : bool :=
  (Mc_AN' =? Mc_AN)%nat && (h_AN' =? h_AN)%nat && (i' =? i)%nat
  && (j' =? j)%nat && (spin' <=? SpinP_switch)%nat.

Lemma element_spin_overwrites SCF_iter H0 HNL Mc_AN h_AN i j spin :
  overwrites
    (fun spin' Mc_AN' h_AN' i' j' =>
       (spin' =? spin)%nat && (Mc_AN' =? Mc_AN)%nat && (h_AN' =? h_AN)%nat
       && (i' =? i)%nat && (j' =? j)%nat)
    (value_C SCF_iter H0 HNL)
    (element_spin SCF_iter H0 HNL Mc_AN h_AN i j spin).
Proof.
  intros H s M h a b.
  unfold element_spin, value_C, with_terms, base_value.
  destruct (ProExpn_VNA =? 0)%Z, (Hubbard_on SCF_iter),
           (core_hole_state_flag =? 1)%Z; cbv zeta; unfold set5;
    rewrite ?Nat.eqb_refl; cbn [andb];
    destruct (Nat.eqb_spec s spin) as [->|]; cbn [andb]; try reflexivity;
    destruct (Nat.eqb_spec M Mc_AN) as [->|]; cbn [andb]; try reflexivity;
    destruct (Nat.eqb_spec h h_AN) as [->|]; cbn [andb]; try reflexivity;
    destruct (Nat.eqb_spec a i) as [->|]; cbn [andb]; try reflexivity;
    destruct (Nat.eqb_spec b j) as [->|]; cbn [andb]; reflexivity.
Qed.

Lemma existsb_eqb_seq x lo n :
  existsb (fun k => (x =? k)%nat) (seq lo n)
  = (lo <=? x)%nat && (x <? lo + n)%nat.
Proof.
  revert lo. induction n as [|n IH]; intros lo; cbn [seq existsb].
  - destruct (Nat.leb_spec lo x), (Nat.ltb_spec x (lo + 0)); try lia;
      reflexivity.
  - rewrite IH.
    destruct (Nat.eqb_spec x lo), (Nat.leb_spec (S lo) x),
             (Nat.ltb_spec x (S lo + n)), (Nat.leb_spec lo x),
             (Nat.ltb_spec x (lo + S n)); try lia; reflexivity.
Qed.

Lemma existsb_andb_r (f : nat -> bool) (b : bool) l :
  existsb (fun k => f k && b) l = existsb f l && b.
Proof.
  induction l as [|x l IH]; [reflexivity|]. cbn [existsb]. rewrite IH.
  destruct (f x), b, (existsb f l); reflexivity.
Qed.

Lemma element_C_overwrites SCF_iter H0 HNL Mc_AN h_AN i j :
  overwrites (touched Mc_AN h_AN i j) (value_C SCF_iter H0 HNL)
    (element_C SCF_iter H0 HNL Mc_AN h_AN i j).
Proof.
  unfold element_C.
  eapply overwrites_ext;
    [|apply overwrites_for_each; intros spin; apply element_spin_overwrites].
  intros s M h a b. cbv beta. unfold touched.
  rewrite (existsb_andb_r (fun k => (s =? k)%nat && (M =? Mc_AN)%nat
                                    && (h =? h_AN)%nat && (a =? i)%nat)
             (b =? j)%nat).
  rewrite (existsb_andb_r (fun k => (s =? k)%nat && (M =? Mc_AN)%nat
                                    && (h =? h_AN)%nat) (a =? i)%nat).
  rewrite (existsb_andb_r (fun k => (s =? k)%nat && (M =? Mc_AN)%nat)
             (h =? h_AN)%nat).
  rewrite (existsb_andb_r (fun k => (s =? k)%nat) (M =? Mc_AN)%nat).
  rewrite existsb_eqb_seq.
  destruct (Nat.leb_spec 0 s), (Nat.ltb_spec s (0 + (SpinP_switch + 1))),
           (Nat.leb_spec s SpinP_switch); try lia;
    destruct (M =? Mc_AN)%nat, (h =? h_AN)%nat, (a =? i)%nat, (b =? j)%nat;
    reflexivity.
Qed.

Lemma set5_other H spin Mc_AN h_AN i j v spin' Mc_AN' h_AN' i' j' :
  (Mc_AN' =? Mc_AN)%nat && (h_AN' =? h_AN)%nat && (i' =? i)%nat
  && (j' =? j)%nat = false ->
  set5 H spin Mc_AN h_AN i j v spin' Mc_AN' h_AN' i' j'
  = H spin' Mc_AN' h_AN' i' j'.
Proof.
  intros E. unfold set5.
  destruct (spin' =? spin)%nat, (Mc_AN' =? Mc_AN)%nat, (h_AN' =? h_AN)%nat,
           (i' =? i)%nat, (j' =? j)%nat; try discriminate; reflexivity.
Qed.

Lemma set5_same H spin Mc_AN h_AN i j v spin' :
  set5 H spin Mc_AN h_AN i j v spin' Mc_AN h_AN i j
  = if (spin' =? spin)%nat then v else H spin' Mc_AN h_AN i j.
Proof.
  unfold set5. rewrite !Nat.eqb_refl.
  destruct (spin' =? spin)%nat; reflexivity.
Qed.

Lemma element_NC_overwrites SCF_iter H0 HNL Mc_AN h_AN i j :
  SpinP_switch = 3%nat ->
  overwrites (touched Mc_AN h_AN i j) (value_NC SCF_iter H0 HNL)
    (element_NC SCF_iter H0 HNL Mc_AN h_AN i j).
Proof.
  intros HSP H s M h a b.
  unfold touched. rewrite HSP.
  destruct ((M =? Mc_AN)%nat && (h =? h_AN)%nat && (a =? i)%nat
            && (b =? j)%nat) eqn:E; cbn [andb].
  - rewrite !andb_true_iff, !Nat.eqb_eq in E.
    destruct E as (((-> & ->) & ->) & ->).
    unfold element_NC, value_NC, with_terms, base_value.
    destruct (ProExpn_VNA =? 0)%Z, (Hubbard_on SCF_iter),
             (core_hole_state_flag =? 1)%Z; cbv zeta;
      rewrite !set5_same; destruct s as [|[|[|[|s]]]]; cbn; reflexivity.
  - unfold element_NC.
    destruct (ProExpn_VNA =? 0)%Z, (Hubbard_on SCF_iter),
             (core_hole_state_flag =? 1)%Z; cbv zeta;
      rewrite !set5_other by exact E; reflexivity.
Qed.

Lemma element_overwrites SCF_iter H0 HNL Mc_AN h_AN i j :
  overwrites (touched Mc_AN h_AN i j) (value SCF_iter H0 HNL)
    (if (SpinP_switch =? 3)%nat
     then element_NC SCF_iter H0 HNL Mc_AN h_AN i j
     else element_C SCF_iter H0 HNL Mc_AN h_AN i j).
Proof.
  unfold value. destruct (Nat.eqb_spec SpinP_switch 3) as [HSP|_].
  - apply element_NC_overwrites. exact HSP.
  - apply element_C_overwrites.
Qed.

(** The cells written by the four loops. *)
Definition swept (spin' Mc_AN' h_AN' i' j' : nat) : bool :=
  existsb (fun Mc_AN =>
    existsb (fun h_AN =>
      existsb (fun i =>
        existsb (fun j => touched Mc_AN h_AN i j spin' Mc_AN' h_AN' i' j')
          (seq 0 (Spe_Total_NO (WhatSpecies (natn (M2G Mc_AN) h_AN)))))
        (seq 0 (Spe_Total_NO (WhatSpecies (M2G Mc_AN)))))
      (seq 0 (FNAN (M2G Mc_AN) + 1)))
    (seq 1 Matomnum).

Lemma sweep_overwrites element F :
  (forall Mc_AN h_AN i j,
     overwrites (touched Mc_AN h_AN i j) F (element Mc_AN h_AN i j)) ->
  overwrites swept F (sweep element).
Proof.
  intros He. unfold sweep, swept.
  apply (overwrites_for_each
           (fun Mc_AN s M h a b =>
              existsb (fun h_AN =>
                existsb (fun i =>
                  existsb (fun j => touched Mc_AN h_AN i j s M h a b)
                    (seq 0 (Spe_Total_NO (WhatSpecies (natn (M2G Mc_AN) h_AN)))))
                  (seq 0 (Spe_Total_NO (WhatSpecies (M2G Mc_AN)))))
                (seq 0 (FNAN (M2G Mc_AN) + 1)))).
  intros Mc_AN. cbv zeta.
  apply (overwrites_for_each
           (fun h_AN s M h a b =>
              existsb (fun i =>
                existsb (fun j => touched Mc_AN h_AN i j s M h a b)
                  (seq 0 (Spe_Total_NO (WhatSpecies (natn (M2G Mc_AN) h_AN)))))
                (seq 0 (Spe_Total_NO (WhatSpecies (M2G Mc_AN)))))).
  intros h_AN.
  apply (overwrites_for_each
           (fun i s M h a b =>
              existsb (fun j => touched Mc_AN h_AN i j s M h a b)
                (seq 0 (Spe_Total_NO (WhatSpecies (natn (M2G Mc_AN) h_AN)))))).
  intros i.
  apply (overwrites_for_each
           (fun j s M h a b => touched Mc_AN h_AN i j s M h a b)).
  intros j. apply He.
Qed.

(** The cells in the range of the loops. *)
Definition covered (spin Mc_AN h_AN i j : nat) : Prop :=
  (spin <= SpinP_switch)%nat /\
  (1 <= Mc_AN <= Matomnum)%nat /\
  (h_AN <= FNAN (M2G Mc_AN))%nat /\
  (i < Spe_Total_NO (WhatSpecies (M2G Mc_AN)))%nat /\
  (j < Spe_Total_NO (WhatSpecies (natn (M2G Mc_AN) h_AN)))%nat.

Lemma swept_covered spin Mc_AN h_AN i j :
  swept spin Mc_AN h_AN i j = true <-> covered spin Mc_AN h_AN i j.
Proof.
  unfold swept, covered, touched. split.
  - intros H.
    apply existsb_exists in H. destruct H as (M & HM & H).
    apply existsb_exists in H. destruct H as (h & Hh & H).
    apply existsb_exists in H. destruct H as (a & Ha & H).
    apply existsb_exists in H. destruct H as (b & Hb & H).
    rewrite !andb_true_iff, !Nat.eqb_eq, Nat.leb_le in H.
    destruct H as ((((-> & ->) & ->) & ->) & Hs).
    apply in_seq in HM, Hh, Ha, Hb. lia.
  - intros (Hs & HM & Hh & Ha & Hb).
    apply existsb_exists. exists Mc_AN. split; [apply in_seq; lia|].
    apply existsb_exists. exists h_AN. split; [apply in_seq; lia|].
    apply existsb_exists. exists i. split; [apply in_seq; lia|].
    apply existsb_exists. exists j. split; [apply in_seq; lia|].
    rewrite !Nat.eqb_refl. cbn [andb]. apply Nat.leb_le. exact Hs.
Qed.

Lemma Set_initial_Hamiltonian_overwrites SCF_iter Cnt_kind H0 HNL :
  Cnt_kind <> 1%Z ->
  overwrites swept (value SCF_iter H0 HNL)
    (Set_initial_Hamiltonian SCF_iter Cnt_kind H0 HNL).
Proof.
  intros HC. unfold Set_initial_Hamiltonian.
  replace (Cnt_kind =? 1)%Z with false by (symmetry; apply Z.eqb_neq; exact HC).
  cbv zeta.
  pose proof (sweep_overwrites
                (fun Mc_AN h_AN i j =>
                   if (SpinP_switch =? 3)%nat
                   then element_NC SCF_iter H0 HNL Mc_AN h_AN i j
                   else element_C SCF_iter H0 HNL Mc_AN h_AN i j)
                (value SCF_iter H0 HNL)
                (element_overwrites SCF_iter H0 HNL)) as Hs.
  destruct (SpinP_switch =? 3)%nat; exact Hs.
Qed.

Lemma Set_initial_Hamiltonian_inside SCF_iter Cnt_kind H0 HNL H spin Mc_AN h_AN i j :
  Cnt_kind <> 1%Z -> covered spin Mc_AN h_AN i j ->
  Set_initial_Hamiltonian SCF_iter Cnt_kind H0 HNL H spin Mc_AN h_AN i j
  = value SCF_iter H0 HNL spin Mc_AN h_AN i j.
Proof.
  intros HC Hcov. rewrite Set_initial_Hamiltonian_overwrites by exact HC.
  apply swept_covered in Hcov. rewrite Hcov. reflexivity.
Qed.

(** X15.  Without contraction, [Set_initial_Hamiltonian] is idempotent: it
    assigns the cells it covers from the arrays it reads, so that a second
    call leaves every cell of [H] as the first call left it. *)
Theorem Set_initial_Hamiltonian_idempotent SCF_iter Cnt_kind H0 HNL H
  spin Mc_AN h_AN i j :
  Cnt_kind <> 1%Z ->
  Set_initial_Hamiltonian SCF_iter Cnt_kind H0 HNL
    (Set_initial_Hamiltonian SCF_iter Cnt_kind H0 HNL H) spin Mc_AN h_AN i j
  = Set_initial_Hamiltonian SCF_iter Cnt_kind H0 HNL H spin Mc_AN h_AN i j.
Proof.
  intros HC.
  rewrite (Set_initial_Hamiltonian_overwrites SCF_iter Cnt_kind H0 HNL HC
             (Set_initial_Hamiltonian SCF_iter Cnt_kind H0 HNL H)).
  rewrite (Set_initial_Hamiltonian_overwrites SCF_iter Cnt_kind H0 HNL HC H).
  destruct (swept spin Mc_AN h_AN i j); reflexivity.
Qed.

(** X16.  Without contraction, a cell outside the range of the loops (a spin
    above [SpinP_switch], an atom that is not one of [1 .. Matomnum], a
    neighbour above [FNAN], an orbital index at or above the number of
    orbitals of its species) keeps its value. *)
Theorem Set_initial_Hamiltonian_frame SCF_iter Cnt_kind H0 HNL H
  spin Mc_AN h_AN i j :
  Cnt_kind <> 1%Z -> ~ covered spin Mc_AN h_AN i j ->
  Set_initial_Hamiltonian SCF_iter Cnt_kind H0 HNL H spin Mc_AN h_AN i j
  = H spin Mc_AN h_AN i j.
Proof.
  intros HC Hout. rewrite Set_initial_Hamiltonian_overwrites by exact HC.
  destruct (swept spin Mc_AN h_AN i j) eqn:E; [|reflexivity].
  exfalso. apply Hout. apply swept_covered. exact E.
Qed.

(** X17.  In the non-collinear case ([SpinP_switch = 3]) the fourth spin
    component of every covered block is exactly zero, whatever the flags:
    neither the Hubbard nor the core-hole term is added to it. *)
Theorem Set_initial_Hamiltonian_NC_component_3 SCF_iter Cnt_kind H0 HNL H
  Mc_AN h_AN i j :
  SpinP_switch = 3%nat -> Cnt_kind <> 1%Z ->
  covered 3 Mc_AN h_AN i j ->
  Set_initial_Hamiltonian SCF_iter Cnt_kind H0 HNL H 3%nat Mc_AN h_AN i j = 0.
Proof.
  intros HSP HC Hcov.
  rewrite Set_initial_Hamiltonian_inside by assumption.
  unfold value. rewrite HSP. reflexivity.
Qed.

(** X18.  The kinetic term is read from the spin component 0 of [H0] only:
    two arrays [H0] that agree on that component give the same [H]. *)
Theorem Set_initial_Hamiltonian_kinetic_spin_0 SCF_iter Cnt_kind H0 H0' HNL H
  spin Mc_AN h_AN i j :
  Cnt_kind <> 1%Z ->
  (forall Mc_AN h_AN i j,
     H0 0%nat Mc_AN h_AN i j = H0' 0%nat Mc_AN h_AN i j) ->
  Set_initial_Hamiltonian SCF_iter Cnt_kind H0 HNL H spin Mc_AN h_AN i j
  = Set_initial_Hamiltonian SCF_iter Cnt_kind H0' HNL H spin Mc_AN h_AN i j.
Proof.
  intros HC Heq.
  rewrite !Set_initial_Hamiltonian_overwrites by exact HC.
  destruct (swept spin Mc_AN h_AN i j); [|reflexivity].
  unfold value, value_NC, value_C, base_value.
  destruct (SpinP_switch =? 3)%nat; cbv beta; rewrite !Heq; reflexivity.
Qed.

End Set_initial_Hamiltonian.

(** X19.  Before the second iteration ([SCF_iter < 2], as at the call
    [Set_initial_Hamiltonian("stdout", 1, 0, H0, HNL, H)] of [main]) the
    Hubbard term is not added, whatever the switches: the result is the same
    for any two arrays [H_Hub]. *)
Theorem Set_initial_Hamiltonian_first_iteration
  (Matomnum : nat) (M2G WhatSpecies FNAN Spe_Total_NO : nat -> nat)
  (natn : nat -> nat -> nat) (SpinP_switch : nat)
  (ProExpn_VNA F_Kin_flag F_NL_flag F_VNA_flag Hub_U_switch
   Constraint_NCS_switch F_U_flag core_hole_state_flag SO_switch : Z)
  (HVNA : array4) (H_Hub H_Hub' HCH : array5)
  (Contract_Hamiltonian Contract_iHNL : array5 -> array5)
  (SCF_iter Cnt_kind : Z) (H0 HNL H : array5) (spin Mc_AN h_AN i j : nat) :
  (SCF_iter < 2)%Z -> Cnt_kind <> 1%Z ->
  Set_initial_Hamiltonian Matomnum M2G WhatSpecies FNAN Spe_Total_NO natn
    SpinP_switch ProExpn_VNA F_Kin_flag F_NL_flag F_VNA_flag Hub_U_switch
    Constraint_NCS_switch F_U_flag core_hole_state_flag SO_switch HVNA H_Hub
    HCH Contract_Hamiltonian Contract_iHNL SCF_iter Cnt_kind H0 HNL H
    spin Mc_AN h_AN i j
  = Set_initial_Hamiltonian Matomnum M2G WhatSpecies FNAN Spe_Total_NO natn
      SpinP_switch ProExpn_VNA F_Kin_flag F_NL_flag F_VNA_flag Hub_U_switch
      Constraint_NCS_switch F_U_flag core_hole_state_flag SO_switch HVNA
      H_Hub' HCH Contract_Hamiltonian Contract_iHNL SCF_iter Cnt_kind H0 HNL H
      spin Mc_AN h_AN i j.
Proof.
  intros Hit HC.
  rewrite !Set_initial_Hamiltonian_overwrites by exact HC.
  destruct (swept Matomnum M2G WhatSpecies FNAN Spe_Total_NO natn SpinP_switch
              spin Mc_AN h_AN i j); [|reflexivity].
  unfold value, value_NC, value_C, with_terms, Hubbard_on.
  replace (2 <=? SCF_iter)%Z with false by (symmetry; apply Z.leb_gt; exact Hit).
  rewrite !andb_false_r. reflexivity.
Qed.

(** One atom with one neighbour and one orbital per species; every optional
    term switched on; the external contractions do nothing. *)
Definition demo_Set (SpinP_switch : nat) (H_Hub : array5)
  (SCF_iter Cnt_kind : Z) (H0 HNL H : array5) : array5 :=
  Set_initial_Hamiltonian 1 (fun Mc_AN => Mc_AN) (fun _ => 0%nat)
    (fun _ => 1%nat) (fun _ => 1%nat) (fun _ h_AN => (1 + h_AN)%nat)
    SpinP_switch 1 1 1 1 1 0 1 1 0 (fun _ _ _ _ => 10)
    H_Hub (fun _ _ _ _ _ => 100) (fun H => H) (fun H => H)
    SCF_iter Cnt_kind H0 HNL H.

Definition demo_covered (SpinP_switch spin Mc_AN h_AN i j : nat) : Prop :=
  covered 1 (fun Mc_AN => Mc_AN) (fun _ => 0%nat) (fun _ => 1%nat)
    (fun _ => 1%nat) (fun _ h_AN => (1 + h_AN)%nat) SpinP_switch
    spin Mc_AN h_AN i j.

Definition ones : array5 := fun _ _ _ _ _ => 1.
Definition by_spin : array5 := fun spin _ _ _ _ => INR spin.
Definition sevens : array5 := fun _ _ _ _ _ => 7.

Lemma Set_initial_Hamiltonian_idempotent_witness :
  demo_Set 1 ones 2 0 ones by_spin
    (demo_Set 1 ones 2 0 ones by_spin sevens) 1%nat 1%nat 0%nat 0%nat 0%nat
  = demo_Set 1 ones 2 0 ones by_spin sevens 1%nat 1%nat 0%nat 0%nat 0%nat.
Proof.
  apply (Set_initial_Hamiltonian_idempotent 1 (fun Mc_AN => Mc_AN)
           (fun _ => 0%nat) (fun _ => 1%nat) (fun _ => 1%nat)
           (fun _ h_AN => (1 + h_AN)%nat) 1 1 1 1 1 1 0 1 1 0
           (fun _ _ _ _ => 10) ones (fun _ _ _ _ _ => 100)
           (fun H => H) (fun H => H) 2 0 ones by_spin sevens 1 1 0 0 0).
  discriminate.
Defined.

(** The atom 2 is not one of the process, and there is no spin 2 in a
    collinear run. *)
Lemma Set_initial_Hamiltonian_frame_witness :
  ~ demo_covered 1 2 1 0 0 0 /\
  demo_Set 1 ones 2 0 ones by_spin sevens 2%nat 1%nat 0%nat 0%nat 0%nat = 7.
Proof.
  assert (Hout : ~ demo_covered 1 2 1 0 0 0)
    by (unfold demo_covered, covered; lia).
  split; [exact Hout|].
  apply (Set_initial_Hamiltonian_frame 1 (fun Mc_AN => Mc_AN)
           (fun _ => 0%nat) (fun _ => 1%nat) (fun _ => 1%nat)
           (fun _ h_AN => (1 + h_AN)%nat) 1 1 1 1 1 1 0 1 1 0
           (fun _ _ _ _ => 10) ones (fun _ _ _ _ _ => 100)
           (fun H => H) (fun H => H) 2 0 ones by_spin sevens 2 1 0 0 0).
  - discriminate.
  - exact Hout.
Defined.

Lemma Set_initial_Hamiltonian_NC_component_3_witness :
  demo_Set 3 ones 2 0 ones by_spin sevens 3%nat 1%nat 1%nat 0%nat 0%nat = 0.
Proof.
  apply (Set_initial_Hamiltonian_NC_component_3 1 (fun Mc_AN => Mc_AN)
           (fun _ => 0%nat) (fun _ => 1%nat) (fun _ => 1%nat)
           (fun _ h_AN => (1 + h_AN)%nat) 3 1 1 1 1 1 0 1 1 0
           (fun _ _ _ _ => 10) ones (fun _ _ _ _ _ => 100)
           (fun H => H) (fun H => H) 2 0 ones by_spin sevens 1 1 0 0).
  - reflexivity.
  - discriminate.
  - unfold covered. lia.
Defined.

(** [by_spin] and [ones] agree on the spin component 0 only. *)
Lemma Set_initial_Hamiltonian_kinetic_spin_0_witness :
  demo_Set 1 ones 2 0 (fun spin _ _ _ _ => INR (1 + spin)) by_spin sevens
    1%nat 1%nat 0%nat 0%nat 0%nat
  = demo_Set 1 ones 2 0 ones by_spin sevens 1%nat 1%nat 0%nat 0%nat 0%nat.
Proof.
  apply (Set_initial_Hamiltonian_kinetic_spin_0 1 (fun Mc_AN => Mc_AN)
           (fun _ => 0%nat) (fun _ => 1%nat) (fun _ => 1%nat)
           (fun _ h_AN => (1 + h_AN)%nat) 1 1 1 1 1 1 0 1 1 0
           (fun _ _ _ _ => 10) ones (fun _ _ _ _ _ => 100)
           (fun H => H) (fun H => H) 2 0
           (fun spin _ _ _ _ => INR (1 + spin)) ones by_spin sevens 1 1 0 0 0).
  - discriminate.
  - intros Mc_AN h_AN i j. reflexivity.
Defined.

(** The call of [main]: [SCF_iter = 1] and [Cnt_kind = 0]. *)
Lemma Set_initial_Hamiltonian_first_iteration_witness :
  demo_Set 1 ones 1 0 ones by_spin sevens 1%nat 1%nat 0%nat 0%nat 0%nat
  = demo_Set 1 sevens 1 0 ones by_spin sevens 1%nat 1%nat 0%nat 0%nat 0%nat.
Proof.
  apply (Set_initial_Hamiltonian_first_iteration 1 (fun Mc_AN => Mc_AN)
           (fun _ => 0%nat) (fun _ => 1%nat) (fun _ => 1%nat)
           (fun _ h_AN => (1 + h_AN)%nat) 1 1 1 1 1 1 0 1 1 0
           (fun _ _ _ _ => 10) ones sevens (fun _ _ _ _ _ => 100)
           (fun H => H) (fun H => H) 1 0 ones by_spin sevens 1 1 0 0 0).
  - lia.
  - discriminate.
Defined.

End Hamiltonian.

(** ** Print_CubeCData_MO: the values of a complex grid field in a cube file *)

Module CubeFile.
Import Loops.
Import String.StringSyntax.
Local Open Scope string_scope.

(** [dcomplex]: the fields [r] and [i]. *)
Record dcomplex : Type := Complex { r : R; i : R }.

(** What is handed to the stream: [fprintf(fp, "%13.3E", x)] is the token
    [Number x] (the layout of the digits is not modelled) and
    [fprintf(fp, "\n")] is [Newline].  The message for an unsupported [op]
    goes to the standard output. *)
Inductive token : Type :=
| Number (x : R)
| Newline.

Inductive message : Type :=
| Not_supported (op : String.string).

(** Where a stream keeps the text it has been handed and has not yet
    written to its file: in the buffer the library gave it, or in the local
    array [buf] of a call of the routine, which exists as long as the call
    runs. *)
Inductive storage : Type :=
| Library_buffer
| Local_array (live : bool).

(** [fp s] is the text handed to the stream [fp], in the order of the calls
    of [fprintf].  How much of it has reached the file at a given moment is
    decided by the library and is not modelled; the rest is held in
    [fp_buffer s]. *)
Record streams : Type := {
  fp : list token;
  fp_buffer : storage;
  stdout : list message
}.

Definition fprintf (t : token) (s : streams) : streams :=
  {| fp := fp s ++ [t]; fp_buffer := fp_buffer s; stdout := stdout s |}.

Definition printf (m : message) (s : streams) : streams :=
  {| fp := fp s; fp_buffer := fp_buffer s; stdout := stdout s ++ [m] |}.

(** [setvbuf(fp, buf, _IOFBF, fp_bsize)], with [buf] the local array of the
    call. *)
Definition setvbuf (s : streams) : streams :=
  {| fp := fp s; fp_buffer := Local_array true; stdout := stdout s |}.

(** The return of the call: its local array stops existing.  The routine
    neither flushes the stream nor gives it another buffer before. *)
Definition return_from (s : streams) : streams :=
  {| fp := fp s;
     fp_buffer := match fp_buffer s with
                  | Local_array _ => Local_array false
                  | Library_buffer => Library_buffer
                  end;
     stdout := stdout s |}.

Section Print_CubeCData_MO.

Variables Ngrid1 Ngrid2 Ngrid3 : nat.

(** The body of the loop over [i3]. *)
Definition print_point (data : nat -> dcomplex) (cmd : Z) (i1 i2 i3 : nat)
  (s : streams) : streams :=
  let GN := (i1 * Ngrid2 * Ngrid3 + i2 * Ngrid3 + i3)%nat in
  let s :=
    match cmd with
    | 1%Z => fprintf (Number (r (data GN))) s
    | 2%Z => fprintf (Number (i (data GN))) s
    | _ => s
    end in
  if ((i3 + 1) mod 6 =? 0)%nat then fprintf Newline s else s.

(** The body of the loop over [i2]. *)
Definition print_row (data : nat -> dcomplex) (cmd : Z) (i1 i2 : nat)
  (s : streams) : streams :=
  let s := for_each (seq 0 Ngrid3) (print_point data cmd i1 i2) s in
  if negb (Ngrid3 mod 6 =? 0)%nat then fprintf Newline s else s.

Definition print_grid (data : nat -> dcomplex) (cmd : Z) (s : streams) : streams :=
  for_each (seq 0 Ngrid1)
    (fun i1 s => for_each (seq 0 Ngrid2) (print_row data cmd i1) s) s.

Definition Print_CubeCData_MO (s : streams) (data : nat -> dcomplex)
  (op : String.string) : streams :=
  let s := setvbuf s in
  return_from
    (if String.eqb op "r" then print_grid data 1 s
     else if String.eqb op "i" then print_grid data 2 s
     else printf (Not_supported op) s).

(** *** The tokens handed to the stream *)

Definition component (cmd : Z) (z : dcomplex) : R :=
  if (cmd =? 1)%Z then r z else i z.

Definition point_tokens (data : nat -> dcomplex) (cmd : Z) (i1 i2 i3 : nat)
  : list token :=
  Number (component cmd (data (i1 * Ngrid2 * Ngrid3 + i2 * Ngrid3 + i3)%nat))
  :: (if ((i3 + 1) mod 6 =? 0)%nat then [Newline] else []).

Definition row_tokens (data : nat -> dcomplex) (cmd : Z) (i1 i2 : nat)
  : list token :=
  flat_map (point_tokens data cmd i1 i2) (seq 0 Ngrid3)
  ++ (if negb (Ngrid3 mod 6 =? 0)%nat then [Newline] else []).

Definition grid_tokens (data : nat -> dcomplex) (cmd : Z) : list token :=
  flat_map (fun i1 => flat_map (row_tokens data cmd i1) (seq 0 Ngrid2))
    (seq 0 Ngrid1).

Definition appends (ts : list token) (s : streams) : streams :=
  {| fp := fp s ++ ts; fp_buffer := fp_buffer s; stdout := stdout s |}.

Lemma appends_nil s : appends [] s = s.
Proof.
  destruct s as [f b o]. unfold appends. cbn. rewrite app_nil_r. reflexivity.
Qed.

Lemma appends_app ts1 ts2 s : appends ts2 (appends ts1 s) = appends (ts1 ++ ts2) s.
Proof. unfold appends. cbn. rewrite app_assoc. reflexivity. Qed.

Lemma for_each_appends (g : nat -> list token) body l s :
  (forall x s, body x s = appends (g x) s) ->
  for_each l body s = appends (flat_map g l) s.
Proof.
  intros Hb. revert s. induction l as [|x l IH]; intros s.
  - rewrite for_each_nil. symmetry. apply appends_nil.
  - rewrite for_each_cons, IH, Hb, appends_app. reflexivity.
Qed.

Lemma print_point_tokens data cmd i1 i2 i3 s :
  cmd = 1%Z \/ cmd = 2%Z ->
  print_point data cmd i1 i2 i3 s = appends (point_tokens data cmd i1 i2 i3) s.
Proof.
  intros [-> | ->]; unfold print_point, point_tokens, component, fprintf, appends;
    cbn [Z.eqb Pos.eqb fp fp_buffer stdout];
    destruct ((i3 + 1) mod 6 =? 0)%nat; cbn [fp fp_buffer stdout];
    rewrite <- ?app_assoc; reflexivity.
Qed.

Lemma print_row_tokens data cmd i1 i2 s :
  cmd = 1%Z \/ cmd = 2%Z ->
  print_row data cmd i1 i2 s = appends (row_tokens data cmd i1 i2) s.
Proof.
  intros Hc. unfold print_row, row_tokens.
  rewrite (for_each_appends (point_tokens data cmd i1 i2))
    by (intros; apply print_point_tokens; exact Hc).
  destruct (negb (Ngrid3 mod 6 =? 0)%nat).
  - unfold fprintf. rewrite <- appends_app. reflexivity.
  - rewrite app_nil_r. reflexivity.
Qed.

Lemma print_grid_tokens data cmd s :
  cmd = 1%Z \/ cmd = 2%Z ->
  print_grid data cmd s = appends (grid_tokens data cmd) s.
Proof.
  intros Hc. unfold print_grid, grid_tokens.
  apply for_each_appends. intros i1 s'.
  apply for_each_appends. intros i2 s''.
  apply print_row_tokens. exact Hc.
Qed.

(** The numbers of a text, in their order in the text. *)
Fixpoint numbers (ts : list token) : list R :=
  match ts with
  | [] => []
  | Number x :: ts => x :: numbers ts
  | Newline :: ts => numbers ts
  end.

Lemma numbers_app ts1 ts2 : numbers (ts1 ++ ts2) = numbers ts1 ++ numbers ts2.
Proof.
  induction ts1 as [|[x|] ts1 IH]; cbn; [reflexivity| |exact IH].
  rewrite IH. reflexivity.
Qed.

Lemma numbers_flat_map (g : nat -> list token) (f : nat -> R) (h : nat -> nat) l :
  (forall x, numbers (g x) = [f (h x)]) ->
  numbers (flat_map g l) = map f (map h l).
Proof.
  intros Hg. induction l as [|x l IH]; [reflexivity|].
  cbn [flat_map map]. rewrite numbers_app, Hg, IH. reflexivity.
Qed.

Lemma map_seq_shift base n :
  map (fun k => (base + k)%nat) (seq 0 n) = seq base n.
Proof.
  revert base. induction n as [|n IH]; intros base; [reflexivity|].
  cbn [seq map]. rewrite Nat.add_0_r. f_equal.
  rewrite <- seq_shift, map_map, <- (IH (S base)).
  apply map_ext. intros k. lia.
Qed.

Lemma seq_blocks (f : nat -> list R) (F : nat -> R) base m n :
  (forall k, f k = map F (seq (base + k * n) n)) ->
  flat_map f (seq 0 m) = map F (seq base (m * n)).
Proof.
  intros Hf. induction m as [|m IH]; [reflexivity|].
  rewrite seq_S, flat_map_app, IH. cbn [flat_map plus]. rewrite app_nil_r, Hf.
  replace (S m * n)%nat with (m * n + n)%nat by lia.
  rewrite seq_app, map_app. reflexivity.
Qed.

Lemma numbers_flat_map_lists (g : nat -> list token) l :
  numbers (flat_map g l) = flat_map (fun x => numbers (g x)) l.
Proof.
  induction l as [|x l IH]; [reflexivity|].
  cbn [flat_map]. rewrite numbers_app, IH. reflexivity.
Qed.

Lemma numbers_row data cmd i1 i2 :
  numbers (row_tokens data cmd i1 i2)
  = map (fun GN => component cmd (data GN))
      (seq (i1 * Ngrid2 * Ngrid3 + i2 * Ngrid3) Ngrid3).
Proof.
  unfold row_tokens. rewrite numbers_app.
  replace (numbers (if negb (Ngrid3 mod 6 =? 0)%nat then [Newline] else []))
    with (@nil R) by (destruct (negb (Ngrid3 mod 6 =? 0)%nat); reflexivity).
  rewrite app_nil_r.
  rewrite (numbers_flat_map (point_tokens data cmd i1 i2)
             (fun GN => component cmd (data GN))
             (fun i3 => (i1 * Ngrid2 * Ngrid3 + i2 * Ngrid3 + i3)%nat)).
  - rewrite map_seq_shift. reflexivity.
  - intros i3. unfold point_tokens.
    destruct ((i3 + 1) mod 6 =? 0)%nat; reflexivity.
Qed.

Lemma numbers_grid data cmd :
  numbers (grid_tokens data cmd)
  = map (fun GN => component cmd (data GN))
      (seq 0 (Ngrid1 * Ngrid2 * Ngrid3)).
Proof.
  unfold grid_tokens. rewrite numbers_flat_map_lists.
  replace (Ngrid1 * Ngrid2 * Ngrid3)%nat with (Ngrid1 * (Ngrid2 * Ngrid3))%nat
    by lia.
  apply seq_blocks. intros i1. rewrite numbers_flat_map_lists.
  cbn [plus].
  apply seq_blocks. intros i2. rewrite numbers_row.
  replace (i1 * Ngrid2 * Ngrid3)%nat with (i1 * (Ngrid2 * Ngrid3))%nat by lia.
  reflexivity.
Qed.

(** A reader of the lines: [lines n ts] is the number of values on the
    last, unfinished line after the text [ts], when [n] values are on the
    current line before it; it fails at a line without a value and at a
    seventh value on a line. *)
Fixpoint lines (n : nat) (ts : list token) : option nat :=
  match ts with
  | [] => Some n
  | Number _ :: ts => if (n <? 6)%nat then lines (S n) ts else None
  | Newline :: ts => if (n =? 0)%nat then None else lines 0 ts
  end.

Lemma lines_app n ts1 ts2 :
  lines n (ts1 ++ ts2)
  = match lines n ts1 with Some m => lines m ts2 | None => None end.
Proof.
  revert n. induction ts1 as [|[x|] ts1 IH]; intros n; cbn [app lines].
  - reflexivity.
  - destruct (n <? 6)%nat; [apply IH|reflexivity].
  - destruct (n =? 0)%nat; [reflexivity|apply IH].
Qed.

Lemma lines_points data cmd i1 i2 n :
  lines 0 (flat_map (point_tokens data cmd i1 i2) (seq 0 n)) = Some (n mod 6)%nat.
Proof.
  induction n as [|n IH]; [reflexivity|].
  rewrite seq_S, flat_map_app, lines_app, IH. cbn [flat_map plus].
  rewrite app_nil_r. unfold point_tokens. cbn [lines].
  pose proof (Nat.mod_upper_bound n 6 ltac:(lia)) as Hn.
  pose proof (Nat.mod_upper_bound (n + 1) 6 ltac:(lia)) as Hn1.
  pose proof (Nat.div_mod_eq n 6) as En.
  pose proof (Nat.div_mod_eq (n + 1) 6) as En1.
  replace (n mod 6 <? 6)%nat with true by (symmetry; apply Nat.ltb_lt; exact Hn).
  replace (S n) with (n + 1)%nat by lia.
  destruct (Nat.eqb_spec ((n + 1) mod 6) 0) as [E|E]; cbn [lines Nat.eqb].
  - rewrite E. reflexivity.
  - f_equal. lia.
Qed.

Lemma lines_row data cmd i1 i2 :
  lines 0 (row_tokens data cmd i1 i2) = Some 0%nat.
Proof.
  unfold row_tokens. rewrite lines_app, lines_points.
  destruct (Nat.eqb_spec (Ngrid3 mod 6) 0) as [E|E]; cbn [negb lines].
  - rewrite E. reflexivity.
  - replace (Ngrid3 mod 6 =? 0)%nat with false
      by (symmetry; apply Nat.eqb_neq; exact E).
    reflexivity.
Qed.

Lemma lines_flat_map (g : nat -> list token) l :
  (forall x, lines 0 (g x) = Some 0%nat) ->
  lines 0 (flat_map g l) = Some 0%nat.
Proof.
  intros Hg. induction l as [|x l IH]; [reflexivity|].
  cbn [flat_map]. rewrite lines_app, Hg. exact IH.
Qed.

Lemma lines_grid data cmd : lines 0 (grid_tokens data cmd) = Some 0%nat.
Proof.
  unfold grid_tokens. apply lines_flat_map. intros i1.
  apply lines_flat_map. intros i2. apply lines_row.
Qed.

Lemma Print_CubeCData_MO_tokens s data op :
  op = "r" \/ op = "i" ->
  Print_CubeCData_MO s data op
  = return_from
      (appends (grid_tokens data (if String.eqb op "r" then 1%Z else 2%Z))
         (setvbuf s)).
Proof.
  intros [-> | ->]; unfold Print_CubeCData_MO; cbv zeta;
    cbn [String.eqb Ascii.eqb Bool.eqb]; f_equal;
    apply print_grid_tokens; [left|right]; reflexivity.
Qed.

(** X20.  For [op] "r" (or "i") the call hands text to the stream [fp] and
    to nothing else: the values handed over are, in this order, the real
    (or imaginary) parts of [data[0]], [data[1]], ...,
    [data[Ngrid1*Ngrid2*Ngrid3 - 1]], each one once.  The call leaves the
    stream with its own local array as buffer, which no longer exists: the
    text the stream had not yet written to the file when the call returned
    is not guaranteed to reach it. *)
Theorem Print_CubeCData_MO_values s data op :
  op = "r" \/ op = "i" ->
  exists ts : list token,
    fp (Print_CubeCData_MO s data op) = fp s ++ ts /\
    stdout (Print_CubeCData_MO s data op) = stdout s /\
    numbers ts
    = map (fun GN => if String.eqb op "r" then r (data GN) else i (data GN))
        (seq 0 (Ngrid1 * Ngrid2 * Ngrid3)) /\
    fp_buffer (Print_CubeCData_MO s data op) = Local_array false.
Proof.
  intros Hop. rewrite Print_CubeCData_MO_tokens by exact Hop.
  eexists. split; [reflexivity|]. split; [reflexivity|].
  split; [|reflexivity].
  rewrite numbers_grid. apply map_ext. intros GN.
  destruct Hop as [-> | ->]; reflexivity.
Qed.

(** X21.  The text handed to the stream has no empty line and no line of
    more than six values, and it ends with a finished line: the newline
    after the sixth value of a line and the newline at the end of a row are
    never handed over both. *)
Theorem Print_CubeCData_MO_lines s data op :
  op = "r" \/ op = "i" ->
  exists ts : list token,
    fp (Print_CubeCData_MO s data op) = fp s ++ ts /\
    lines 0 ts = Some 0%nat.
Proof.
  intros Hop. rewrite Print_CubeCData_MO_tokens by exact Hop.
  eexists. split; [reflexivity|]. apply lines_grid.
Qed.

End Print_CubeCData_MO.

(** A grid of 1 x 2 x 7 points, whose value at the point [GN] is
    [GN + 2 GN i], handed to a stream after a title line. *)
Definition ramp (GN : nat) : dcomplex :=
  {| r := INR GN; i := 2 * INR GN |}.

Definition titled : streams :=
  {| fp := [Number 0; Newline]; fp_buffer := Library_buffer; stdout := [] |}.

Lemma Print_CubeCData_MO_values_witness :
  exists ts : list token,
    fp (Print_CubeCData_MO 1 2 7 titled ramp "i") = fp titled ++ ts /\
    stdout (Print_CubeCData_MO 1 2 7 titled ramp "i") = stdout titled /\
    numbers ts = map (fun GN => (2 * INR GN)%R) (seq 0 14) /\
    fp_buffer (Print_CubeCData_MO 1 2 7 titled ramp "i") = Local_array false.
Proof.
  apply (Print_CubeCData_MO_values 1 2 7 titled ramp "i").
  right. reflexivity.
Defined.

Lemma Print_CubeCData_MO_lines_witness :
  exists ts : list token,
    fp (Print_CubeCData_MO 1 2 7 titled ramp "r") = fp titled ++ ts /\
    lines 0 ts = Some 0%nat.
Proof.
  apply (Print_CubeCData_MO_lines 1 2 7 titled ramp "r").
  left. reflexivity.
Defined.

End CubeFile.

(** ** Allocate4D_double, Allocate3D_double, Free3D_double: tables of
    pointers into one block of doubles *)

Module Allocation.
Import Loops.
Local Open Scope Z_scope.

(** *** Memory

    Allocated memory is a set of blocks, each with a number of cells; a
    pointer is a block and an offset in it, counted in cells.  Reading or
    writing outside a live block, or through the null pointer, is a fault.
    The null pointer moved by [ofs] cells, [ofs <> 0], is [Vwild ofs]: it is
    computed and stored like any pointer, and points into no block. *)
Inductive val : Type :=
| Vundef
| Vdouble (x : R)
| Vptr (b : nat) (ofs : Z)
| Vnull
| Vwild (ofs : Z).

Record chunk : Type := { size : Z; cell : Z -> val }.

Record heap : Type := { next : nat; blocks : nat -> option chunk }.

(** Computations on the heap that can fault. *)
Definition M (A : Type) : Type := heap -> option (A * heap).

Definition ret {A : Type} (a : A) : M A := fun h => Some (a, h).

Definition bind {A B : Type} (m : M A) (k : A -> M B) : M B :=
  fun h => match m h with Some (a, h') => k a h' | None => None end.

Local Notation "x <- m ;; k" := (bind m (fun x => k))
  (at level 61, m at next level, right associativity).
Local Notation "m ;;; k" := (bind m (fun _ => k))
  (at level 61, right associativity).

(** [malloc] of [n] cells: a fresh block of cells that are not initialised,
    or the null pointer when the allocation fails ([ok = false]).  Sizes are
    counted in cells, a cell holding a double or a pointer; a block of no
    cell has no cell that can be read or written. *)
Definition malloc (ok : bool) (n : Z) : M val :=
  fun h =>
    if ok then
      Some (Vptr (next h) 0,
            {| next := S (next h);
               blocks := fun b =>
                 if (b =? next h)%nat
                 then Some {| size := n; cell := fun _ => Vundef |}
                 else blocks h b |})
    else Some (Vnull, h).

(** [free(p)]: nothing for the null pointer; otherwise [p] must be the start
    of a live block. *)
Definition free (p : val) : M unit :=
  fun h =>
    match p with
    | Vnull => Some (tt, h)
    | Vptr b ofs =>
        if ofs =? 0 then
          match blocks h b with
          | Some _ =>
              Some (tt, {| next := next h;
                           blocks := fun b' =>
                             if (b' =? b)%nat then None else blocks h b' |})
          | None => None
          end
        else None
    | _ => None
    end.

(** [p + n]: the addition itself reads and writes nothing, also when [p] is
    the null pointer. *)
Definition index (p : val) (n : Z) : M val :=
  fun h =>
    match p with
    | Vptr b ofs => Some (Vptr b (ofs + n), h)
    | Vnull => Some (if n =? 0 then Vnull else Vwild n, h)
    | Vwild ofs => Some (if ofs + n =? 0 then Vnull else Vwild (ofs + n), h)
    | _ => None
    end.

(** [*p] *)
Definition load (p : val) : M val :=
  fun h =>
    match p with
    | Vptr b ofs =>
        match blocks h b with
        | Some bl =>
            if (0 <=? ofs) && (ofs <? size bl) then Some (cell bl ofs, h)
            else None
        | None => None
        end
    | _ => None
    end.

(** [*p = v] *)
Definition store_at (p v : val) : M unit :=
  fun h =>
    match p with
    | Vptr b ofs =>
        match blocks h b with
        | Some bl =>
            if (0 <=? ofs) && (ofs <? size bl) then
              Some (tt, {| next := next h;
                           blocks := fun b' =>
                             if (b' =? b)%nat
                             then Some {| size := size bl;
                                          cell := fun o =>
                                            if o =? ofs then v else cell bl o |}
                             else blocks h b' |})
            else None
        | None => None
        end
    | _ => None
    end.

(** [p[n]] as a value, and [p[n] = v]. *)
Definition sub (p : val) (n : Z) : M val := q <- index p n ;; load q.

Definition set (p : val) (n : Z) (v : val) : M unit :=
  q <- index p n ;; store_at q v.

(** [p != NULL], for a pointer. *)
Definition not_null (p : val) : M bool :=
  fun h =>
    match p with
    | Vnull => Some (false, h)
    | Vptr _ _ => Some (true, h)
    | Vwild _ => Some (true, h)
    | _ => None
    end.

(** [for (x = 0; x < n; x++) body] *)
Definition for_loop (n : Z) (body : Z -> M unit) : M unit :=
  fun h =>
    option_map (pair tt)
      (for_each_opt (seq 0 (Z.to_nat n))
         (fun x h => option_map snd (body (Z.of_nat x) h)) h).

(** *** The three routines *)

(** The four allocations of [Allocate4D_double], and its loops. *)
Definition Allocate4D_blocks (ok1 ok2 ok3 ok4 : bool)
  (size_1 size_2 size_3 size_4 : Z) : M val :=
  buffer <- malloc ok1 size_1 ;;
  p <- malloc ok2 (size_1 * size_2) ;;
  set buffer 0 p ;;;
  p <- malloc ok3 (size_1 * size_2 * size_3) ;;
  b0 <- sub buffer 0 ;;
  set b0 0 p ;;;
  p <- malloc ok4 (size_1 * size_2 * size_3 * size_4) ;;
  b0 <- sub buffer 0 ;;
  b00 <- sub b0 0 ;;
  set b00 0 p ;;;
  ret buffer.

Definition Allocate4D_loops (size_1 size_2 size_3 size_4 : Z)
  (buffer : val) : M unit :=
  for_loop size_1 (fun i =>
    b0 <- sub buffer 0 ;;
    q <- index b0 (i * size_2) ;;
    set buffer i q ;;;
    for_loop size_2 (fun j =>
      b0 <- sub buffer 0 ;;
      b00 <- sub b0 0 ;;
      q <- index b00 ((i * size_2 + j) * size_3) ;;
      bi <- sub buffer i ;;
      set bi j q ;;;
      for_loop size_3 (fun k =>
        b0 <- sub buffer 0 ;;
        b00 <- sub b0 0 ;;
        b000 <- sub b00 0 ;;
        q <- index b000 (((i * size_2 + j) * size_3 + k) * size_4) ;;
        bi <- sub buffer i ;;
        bij <- sub bi j ;;
        set bij k q ;;;
        for_loop size_4 (fun l =>
          bi <- sub buffer i ;;
          bij <- sub bi j ;;
          bijk <- sub bij k ;;
          set bijk l (Vdouble 0%R))))).

Definition Allocate4D_double (ok1 ok2 ok3 ok4 : bool)
  (size_1 size_2 size_3 size_4 : Z) : M val :=
  buffer <- Allocate4D_blocks ok1 ok2 ok3 ok4 size_1 size_2 size_3 size_4 ;;
  Allocate4D_loops size_1 size_2 size_3 size_4 buffer ;;;
  ret buffer.

(** The loop over [i] of [Allocate3D_double] carries the running pointer
    [p]. *)
Definition Allocate3D_rows (m n t : Z) (result pp : val) (p : val)
  : M val :=
  fun h =>
    for_each_opt (seq 0 (Z.to_nat m))
      (fun x st =>
         let i := Z.of_nat x in
         (q <- index pp (i * n) ;;
          set result i q ;;;
          for_loop n (fun k =>
            q <- index (fst st) (k * t) ;;
            ri <- sub result i ;;
            set ri k q) ;;;
          index (fst st) (n * t)) (snd st))
      (p, h).

Definition Allocate3D_double (ok1 ok2 ok3 : bool) (m n t : Z) : M val :=
  if (0 <? m) && (0 <? n) && (0 <? t) then
    result <- malloc ok1 m ;;
    pp <- malloc ok2 (m * n) ;;
    p <- malloc ok3 (m * n * t) ;;
    c1 <- not_null result ;;
    c2 <- not_null pp ;;
    c3 <- not_null p ;;
    if c1 && c2 && c3 then
      Allocate3D_rows m n t result pp p ;;;
      ret result
    else
      free result ;;;
      free pp ;;;
      free p ;;;
      ret Vnull
  else ret Vnull.

Definition Free3D_double (p : val) : M unit :=
  p0 <- sub p 0 ;;
  c <- not_null p0 ;;
  (if c then
     p00 <- sub p0 0 ;;
     c <- not_null p00 ;;
     (if c then
        free p00 ;;;
        p0 <- sub p 0 ;;
        set p0 0 Vnull
      else ret tt) ;;;
     p0 <- sub p 0 ;;
     free p0 ;;;
     set p 0 Vnull
   else ret tt) ;;;
  free p.


(** [&p[i][j][k][l]] and [&p[i][k][l]]. *)
Definition address4 (p : val) (i j k l : Z) : M val :=
  a <- sub p i ;;
  b <- sub a j ;;
  c <- sub b k ;;
  index c l.

Definition address3 (p : val) (i k l : Z) : M val :=
  a <- sub p i ;;
  b <- sub a k ;;
  index b l.

(** *** Reading and writing cells *)

Definition bsize (h : heap) (b : nat) : option Z := option_map size (blocks h b).

Definition peek (h : heap) (b : nat) (q : Z) : option val :=
  option_map (fun bl => cell bl q) (blocks h b).

Lemma bind_eq {A B : Type} (m : M A) (k : A -> M B) h a h' :
  m h = Some (a, h') -> bind m k h = k a h'.
Proof. intros E. unfold bind. rewrite E. reflexivity. Qed.

Lemma bind_fault {A B : Type} (m : M A) (k : A -> M B) h :
  m h = None -> bind m k h = None.
Proof. intros E. unfold bind. rewrite E. reflexivity. Qed.

Lemma load_peek h b q n v :
  bsize h b = Some n -> 0 <= q < n -> peek h b q = Some v ->
  load (Vptr b q) h = Some (v, h).
Proof.
  unfold bsize, peek, load. destruct (blocks h b) as [bl|]; [|discriminate].
  cbn [option_map]. intros [= <-] Hq [= <-].
  replace (0 <=? q) with true by (symmetry; apply Z.leb_le; lia).
  replace (q <? size bl) with true by (symmetry; apply Z.ltb_lt; lia).
  reflexivity.
Qed.

Lemma sub_peek h b o q n v :
  bsize h b = Some n -> 0 <= o + q < n -> peek h b (o + q) = Some v ->
  sub (Vptr b o) q h = Some (v, h).
Proof.
  intros Hs Hq Hv. unfold sub, bind, index.
  apply (load_peek h b (o + q) n v Hs Hq Hv).
Qed.

Lemma store_ok h b q n v :
  bsize h b = Some n -> 0 <= q < n ->
  exists h',
    store_at (Vptr b q) v h = Some (tt, h') /\
    next h' = next h /\
    (forall b', b' <> b -> blocks h' b' = blocks h b') /\
    (forall b', bsize h' b' = bsize h b') /\
    (forall b' q',
       peek h' b' q'
       = if (b' =? b)%nat && (q' =? q) then Some v else peek h b' q').
Proof.
  unfold bsize, peek, store_at. destruct (blocks h b) as [bl|] eqn:E; [|discriminate].
  cbn [option_map]. intros [= <-] Hq.
  replace (0 <=? q) with true by (symmetry; apply Z.leb_le; lia).
  replace (q <? size bl) with true by (symmetry; apply Z.ltb_lt; lia).
  cbn [andb]. eexists. split; [reflexivity|]. cbn [next blocks].
  split; [reflexivity|]. split; [|split].
  - intros b' Hb. apply Nat.eqb_neq in Hb. rewrite Hb. reflexivity.
  - intros b'. destruct (Nat.eqb_spec b' b) as [->|Hb]; [|reflexivity].
    rewrite E. reflexivity.
  - intros b' q'. destruct (Nat.eqb_spec b' b) as [->|Hb]; cbn [andb option_map].
    + rewrite E. cbn [option_map cell]. destruct (q' =? q); reflexivity.
    + reflexivity.
Qed.

Lemma set_ok h b o q n v :
  bsize h b = Some n -> 0 <= o + q < n ->
  exists h',
    set (Vptr b o) q v h = Some (tt, h') /\
    next h' = next h /\
    (forall b', b' <> b -> blocks h' b' = blocks h b') /\
    (forall b', bsize h' b' = bsize h b') /\
    (forall b' q',
       peek h' b' q'
       = if (b' =? b)%nat && (q' =? o + q) then Some v else peek h b' q').
Proof.
  intros Hs Hq. unfold set, bind, index. apply (store_ok h b (o + q) n v Hs Hq).
Qed.

Lemma malloc_ok n h :
  exists h',
    malloc true n h = Some (Vptr (next h) 0, h') /\
    next h' = S (next h) /\
    (forall b', b' <> next h -> blocks h' b' = blocks h b') /\
    bsize h' (next h) = Some n /\
    (forall q, peek h' (next h) q = Some Vundef).
Proof.
  unfold malloc, bsize, peek. eexists. split; [reflexivity|]. cbn [next blocks].
  split; [reflexivity|]. split; [|split].
  - intros b' Hb. apply Nat.eqb_neq in Hb. rewrite Hb. reflexivity.
  - rewrite Nat.eqb_refl. reflexivity.
  - intros q. rewrite Nat.eqb_refl. reflexivity.
Qed.

(** A loop whose body keeps an invariant runs to its end. *)
Lemma for_loop_inv (I : Z -> heap -> Prop) n (body : Z -> M unit) h :
  0 <= n -> I 0 h ->
  (forall k h, 0 <= k < n -> I k h ->
     exists h', body k h = Some (tt, h') /\ I (k + 1) h') ->
  exists h', for_loop n body h = Some (tt, h') /\ I n h'.
Proof.
  intros Hn H0 Hbody. unfold for_loop.
  assert (G : forall m lo h,
             (lo + m <= Z.to_nat n)%nat -> I (Z.of_nat lo) h ->
             exists h',
               for_each_opt (seq lo m)
                 (fun x h => option_map snd (body (Z.of_nat x) h)) h = Some h'
               /\ I (Z.of_nat (lo + m)) h').
  { induction m as [|m IH]; intros lo h1 Hle HI.
    - exists h1. split; [reflexivity|]. rewrite Nat.add_0_r. exact HI.
    - cbn [seq for_each_opt].
      destruct (Hbody (Z.of_nat lo) h1 ltac:(lia) HI) as (h2 & E & HI2).
      rewrite E. cbn [option_map snd].
      replace (Z.of_nat lo + 1) with (Z.of_nat (S lo)) in HI2 by lia.
      destruct (IH (S lo) h2 ltac:(lia) HI2) as (h3 & E3 & HI3).
      exists h3. split; [exact E3|].
      replace (lo + S m)%nat with (S lo + m)%nat by lia. exact HI3. }
  destruct (G (Z.to_nat n) 0%nat h ltac:(lia) H0) as (h' & E & HI).
  exists h'. rewrite E. split; [reflexivity|].
  replace (Z.of_nat (0 + Z.to_nat n)) with n in HI by lia. exact HI.
Qed.

(** A loop whose first step faults. *)
Lemma for_loop_fault n (body : Z -> M unit) h :
  0 < n -> body 0 h = None -> for_loop n body h = None.
Proof.
  intros Hn E. unfold for_loop.
  destruct (Z.to_nat n) as [|m] eqn:En; [lia|].
  cbn [seq for_each_opt Z.of_nat]. rewrite E. reflexivity.
Qed.

(** *** Blocks filled up to a point

    [N] blocks allocated from the heap [h0], the block [x] with [sz x]
    cells; [known x q] says that the cell [q] of the block [x] holds
    [target x q]. *)
Section Filling.

Variable h0 : heap.
Variable sz : nat -> Z.
Variable target : nat -> Z -> val.

Record filled (N : nat) (known : nat -> Z -> Prop) (h : heap) : Prop := {
  f_next : next h = (N + next h0)%nat;
  f_frame : forall b, (b < next h0 \/ N + next h0 <= b)%nat ->
                      blocks h b = blocks h0 b;
  f_size : forall x, (x < N)%nat -> bsize h (x + next h0) = Some (sz x);
  f_cell : forall x q, (x < N)%nat -> known x q ->
                       peek h (x + next h0) q = Some (target x q)
}.

Lemma filled_start : filled 0 (fun _ _ => False) h0.
Proof.
  split.
  - reflexivity.
  - reflexivity.
  - intros x Hx. lia.
  - intros x q Hx. lia.
Qed.

Lemma filled_weaken N (known known' : nat -> Z -> Prop) h :
  (forall x q, (x < N)%nat -> known' x q -> known x q) ->
  filled N known h -> filled N known' h.
Proof.
  intros Hk [F1 F2 F3 F4]. split; try assumption.
  intros x q Hx Hq. apply F4; [exact Hx|]. apply Hk; assumption.
Qed.

Lemma filled_sub N known h x o q :
  filled N known h -> (x < N)%nat -> 0 <= o + q < sz x -> known x (o + q) ->
  sub (Vptr (x + next h0) o) q h = Some (target x (o + q), h).
Proof.
  intros [F1 F2 F3 F4] Hx Hq Hk.
  apply (sub_peek h (x + next h0) o q (sz x)); auto.
Qed.

Lemma filled_set N (known known' : nat -> Z -> Prop) h x o q v :
  filled N known h -> (x < N)%nat -> 0 <= o + q < sz x ->
  v = target x (o + q) ->
  (forall x' q', (x' < N)%nat -> known' x' q' ->
                 known x' q' \/ (x' = x /\ q' = o + q)) ->
  exists h',
    set (Vptr (x + next h0) o) q v h = Some (tt, h') /\ filled N known' h'.
Proof.
  intros [F1 F2 F3 F4] Hx Hq -> Hk'.
  destruct (set_ok h (x + next h0) o q (sz x) (target x (o + q))
              (F3 x Hx) Hq) as (h' & E & Hn & Hb & Hs & Hp).
  exists h'. split; [exact E|]. split.
  - rewrite Hn. exact F1.
  - intros b Hbb. rewrite Hb by lia. apply F2. exact Hbb.
  - intros x' Hx'. rewrite Hs. apply F3. exact Hx'.
  - intros x' q' Hx' Hk. rewrite Hp. apply Hk' in Hk; [|exact Hx'].
    destruct (Nat.eqb_spec (x' + next h0) (x + next h0)) as [Ex|Ex];
      cbn [andb].
    + assert (x' = x) by lia. subst x'.
      destruct (Z.eqb_spec q' (o + q)) as [->|Eq]; [reflexivity|].
      destruct Hk as [Hk|[_ Hk]]; [|contradiction]. apply F4; assumption.
    + destruct Hk as [Hk|[Hk _]]; [|subst x'; contradiction].
      apply F4; assumption.
Qed.

Lemma filled_malloc N (known known' : nat -> Z -> Prop) h n :
  filled N known h -> n = sz N ->
  (forall x q, (x < S N)%nat -> known' x q ->
               (x < N)%nat /\ known x q \/ x = N /\ target N q = Vundef) ->
  exists h',
    malloc true n h = Some (Vptr (N + next h0) 0, h') /\
    filled (S N) known' h'.
Proof.
  intros [F1 F2 F3 F4] -> Hk'.
  destruct (malloc_ok (sz N) h) as (h' & E & Hn & Hb & Hs & Hp).
  rewrite F1 in *.
  exists h'. split; [exact E|]. split.
  - rewrite Hn. reflexivity.
  - intros b Hbb. rewrite Hb by lia. apply F2. lia.
  - intros x Hx. destruct (Nat.eq_dec x N) as [->|Hne]; [exact Hs|].
    unfold bsize. rewrite Hb by lia. apply F3. lia.
  - intros x q Hx Hk. apply Hk' in Hk; [|exact Hx].
    destruct Hk as [[HxN Hk]|[-> Hk]].
    + unfold peek. rewrite Hb by lia. apply F4; assumption.
    + rewrite Hp, Hk. reflexivity.
Qed.

End Filling.

Lemma flat_bound a n b m :
  0 <= a < n -> 0 <= b < m -> 0 <= a * m + b < n * m.
Proof. intros Ha Hb. nia. Qed.

(** *** Allocate4D_double *)
Section Allocate4D.

Variable h0 : heap.
Variables s1 s2 s3 s4 : Z.
Hypothesis Hs1 : 0 < s1.
Hypothesis Hs2 : 0 < s2.
Hypothesis Hs3 : 0 < s3.
Hypothesis Hs4 : 0 < s4.

Definition sz4 (x : nat) : Z :=
  match x with
  | 0%nat => s1
  | 1%nat => s1 * s2
  | 2%nat => s1 * s2 * s3
  | _ => s1 * s2 * s3 * s4
  end.

Definition target4 (x : nat) (q : Z) : val :=
  match x with
  | 0%nat => Vptr (1 + next h0) (q * s2)
  | 1%nat => Vptr (2 + next h0) (q * s3)
  | 2%nat => Vptr (3 + next h0) (q * s4)
  | _ => Vdouble 0%R
  end.

(** The first [n] tables have their first cell set; the table or block [x]
    is set below [c x]. *)
Definition known4 (n : nat) (c0 c1 c2 c3 : Z) (x : nat) (q : Z) : Prop :=
  (q = 0 /\ (x < n)%nat) \/
  0 <= q < match x with
           | 0%nat => c0
           | 1%nat => c1
           | 2%nat => c2
           | _ => c3
           end.

Local Abbreviation filled4 := (filled h0 sz4 target4 4).

Ltac cases_of x :=
  destruct x as [|[|[|[|x]]]]; unfold known4 in *; cbn in *; try lia;
  try (intuition lia).

Lemma Allocate4D_blocks_filled :
  exists h,
    Allocate4D_blocks true true true true s1 s2 s3 s4 h0
    = Some (Vptr (next h0) 0, h) /\
    filled4 (known4 3 0 0 0 0) h.
Proof.
  unfold Allocate4D_blocks.
  destruct (filled_malloc h0 sz4 target4 0 (fun _ _ => False)
              (known4 0 0 0 0 0) h0 s1 (filled_start h0 sz4 target4)
              eq_refl) as (ha & Ea & Fa).
  { intros x q Hx [[_ Hk]|Hk]; cases_of x. }
  rewrite (bind_eq _ _ _ _ _ Ea).
  destruct (filled_malloc h0 sz4 target4 1 (known4 0 0 0 0 0)
              (known4 0 0 0 0 0) ha (s1 * s2) Fa eq_refl) as (hb & Eb & Fb).
  { intros x q Hx [[_ Hk]|Hk]; cases_of x. }
  rewrite (bind_eq _ _ _ _ _ Eb).
  destruct (filled_set h0 sz4 target4 2 (known4 0 0 0 0 0) (known4 1 0 0 0 0)
              hb 0 0 0 (Vptr (1 + next h0) 0) Fb) as (hc & Ec & Fc);
    [lia | cbn; lia | reflexivity | |].
  { intros x q Hx [[Hq Hk]|Hk]; cases_of x. }
  rewrite (bind_eq _ _ _ _ _ Ec).
  destruct (filled_malloc h0 sz4 target4 2 (known4 1 0 0 0 0)
              (known4 1 0 0 0 0) hc (s1 * s2 * s3) Fc eq_refl)
    as (hd & Ed & Fd).
  { intros x q Hx [[Hq Hk]|Hk]; cases_of x. }
  rewrite (bind_eq _ _ _ _ _ Ed).
  rewrite (bind_eq _ _ _ _ _
             (filled_sub h0 sz4 target4 3 (known4 1 0 0 0 0) hd 0 0 0 Fd
                ltac:(lia) ltac:(cbn; lia) ltac:(left; split; [reflexivity|lia]))).
  cbn [target4 Z.add Z.mul].
  destruct (filled_set h0 sz4 target4 3 (known4 1 0 0 0 0) (known4 2 0 0 0 0)
              hd 1 0 0 (Vptr (2 + next h0) 0) Fd) as (he & Ee & Fe);
    [lia | cbn; nia | reflexivity | |].
  { intros x q Hx [[Hq Hk]|Hk]; cases_of x. }
  rewrite (bind_eq _ _ _ _ _ Ee).
  destruct (filled_malloc h0 sz4 target4 3 (known4 2 0 0 0 0)
              (known4 2 0 0 0 0) he (s1 * s2 * s3 * s4) Fe eq_refl)
    as (hf & Ef & Ff).
  { intros x q Hx [[Hq Hk]|Hk]; cases_of x. }
  rewrite (bind_eq _ _ _ _ _ Ef).
  rewrite (bind_eq _ _ _ _ _
             (filled_sub h0 sz4 target4 4 (known4 2 0 0 0 0) hf 0 0 0 Ff
                ltac:(lia) ltac:(cbn; lia) ltac:(left; split; [reflexivity|lia]))).
  cbn [target4 Z.add Z.mul].
  rewrite (bind_eq _ _ _ _ _
             (filled_sub h0 sz4 target4 4 (known4 2 0 0 0 0) hf 1 0 0 Ff
                ltac:(lia) ltac:(cbn; nia) ltac:(left; split; [reflexivity|lia]))).
  cbn [target4 Z.add Z.mul].
  destruct (filled_set h0 sz4 target4 4 (known4 2 0 0 0 0) (known4 3 0 0 0 0)
              hf 2 0 0 (Vptr (3 + next h0) 0) Ff) as (hg & Eg & Fg);
    [lia | cbn; nia | reflexivity | |].
  { intros x q Hx [[Hq Hk]|Hk]; cases_of x. }
  rewrite (bind_eq _ _ _ _ _ Eg).
  exists hg. split; [reflexivity|exact Fg].
Qed.

Lemma index_ptr b o n h : index (Vptr b o) n h = Some (Vptr b (o + n), h).
Proof. reflexivity. Qed.

Lemma index_null h : index Vnull 0 h = Some (Vnull, h).
Proof. reflexivity. Qed.

Local Abbreviation buffer0 := (Vptr (next h0) 0).

(** The loops, from the innermost. *)
Definition loop_l (i j k : Z) : M unit :=
  for_loop s4 (fun l =>
    bi <- sub buffer0 i ;;
    bij <- sub bi j ;;
    bijk <- sub bij k ;;
    set bijk l (Vdouble 0%R)).

Definition loop_k (i j : Z) : M unit :=
  for_loop s3 (fun k =>
    b0 <- sub buffer0 0 ;;
    b00 <- sub b0 0 ;;
    b000 <- sub b00 0 ;;
    q <- index b000 (((i * s2 + j) * s3 + k) * s4) ;;
    bi <- sub buffer0 i ;;
    bij <- sub bi j ;;
    set bij k q ;;;
    loop_l i j k).

Definition loop_j (i : Z) : M unit :=
  for_loop s2 (fun j =>
    b0 <- sub buffer0 0 ;;
    b00 <- sub b0 0 ;;
    q <- index b00 ((i * s2 + j) * s3) ;;
    bi <- sub buffer0 i ;;
    set bi j q ;;;
    loop_k i j).

Lemma Allocate4D_loops_eq :
  Allocate4D_loops s1 s2 s3 s4 buffer0
  = for_loop s1 (fun i =>
      b0 <- sub buffer0 0 ;;
      q <- index b0 (i * s2) ;;
      set buffer0 i q ;;;
      loop_j i).
Proof. reflexivity. Qed.

Lemma loop_l_filled i j k h :
  0 <= i < s1 -> 0 <= j < s2 -> 0 <= k < s3 ->
  filled4 (known4 3 (i + 1) (i * s2 + j + 1) ((i * s2 + j) * s3 + k + 1)
             (((i * s2 + j) * s3 + k) * s4)) h ->
  exists h',
    loop_l i j k h = Some (tt, h') /\
    filled4 (known4 3 (i + 1) (i * s2 + j + 1) ((i * s2 + j) * s3 + k + 1)
               (((i * s2 + j) * s3 + k + 1) * s4)) h'.
Proof.
  intros Hi Hj Hk Hf.
  assert (B1 : 0 <= i * s2 + j < s1 * s2) by (apply flat_bound; lia).
  assert (B2 : 0 <= (i * s2 + j) * s3 + k < s1 * s2 * s3)
    by (apply flat_bound; lia).
  destruct (for_loop_inv
              (fun l h =>
                 filled4 (known4 3 (i + 1) (i * s2 + j + 1)
                            ((i * s2 + j) * s3 + k + 1)
                            (((i * s2 + j) * s3 + k) * s4 + l)) h)
              s4
              (fun l =>
                 bi <- sub buffer0 i ;;
                 bij <- sub bi j ;;
                 bijk <- sub bij k ;;
                 set bijk l (Vdouble 0%R)) h) as (h' & E & F).
  - lia.
  - eapply filled_weaken; [|exact Hf].
    intros x q Hx [Hq|Hq]; [left; exact Hq|right]. cases_of x.
  - intros l hl Hl Fl.
    assert (B3 : 0 <= ((i * s2 + j) * s3 + k) * s4 + l < s1 * s2 * s3 * s4)
      by (apply flat_bound; lia).
    rewrite (bind_eq _ _ _ _ _
               (filled_sub h0 sz4 target4 4 _ hl 0 0 i Fl ltac:(lia)
                  ltac:(cbn; lia) ltac:(right; cbn; lia))).
    cbn [target4 Z.add].
    rewrite (bind_eq _ _ _ _ _
               (filled_sub h0 sz4 target4 4 _ hl 1 (i * s2) j Fl ltac:(lia)
                  ltac:(cbn; lia) ltac:(right; cbn; lia))).
    cbn [target4].
    rewrite (bind_eq _ _ _ _ _
               (filled_sub h0 sz4 target4 4 _ hl 2 ((i * s2 + j) * s3) k Fl
                  ltac:(lia) ltac:(cbn; lia) ltac:(right; cbn; lia))).
    cbn [target4].
    apply (filled_set h0 sz4 target4 4 _ _ hl 3
             (((i * s2 + j) * s3 + k) * s4) l (Vdouble 0%R) Fl);
      [lia | cbn; lia | reflexivity |].
    intros x q Hx [Hq|Hq]; [left; left; exact Hq|]. cases_of x.
  - exists h'. split; [exact E|].
    eapply filled_weaken; [|exact F].
    intros x q Hx [Hq|Hq]; [left; exact Hq|right]. cases_of x.
Qed.

Lemma loop_k_filled i j h :
  0 <= i < s1 -> 0 <= j < s2 ->
  filled4 (known4 3 (i + 1) (i * s2 + j + 1) ((i * s2 + j) * s3)
             ((i * s2 + j) * s3 * s4)) h ->
  exists h',
    loop_k i j h = Some (tt, h') /\
    filled4 (known4 3 (i + 1) (i * s2 + j + 1) ((i * s2 + j + 1) * s3)
               ((i * s2 + j + 1) * s3 * s4)) h'.
Proof.
  intros Hi Hj Hf.
  assert (B1 : 0 <= i * s2 + j < s1 * s2) by (apply flat_bound; lia).
  assert (P12 : 0 < s1 * s2) by lia.
  assert (P123 : 0 < s1 * s2 * s3) by nia.
  unfold loop_k.
  destruct (for_loop_inv
              (fun k h =>
                 filled4 (known4 3 (i + 1) (i * s2 + j + 1)
                            ((i * s2 + j) * s3 + k)
                            (((i * s2 + j) * s3 + k) * s4)) h)
              s3
              (fun k =>
                 b0 <- sub buffer0 0 ;;
                 b00 <- sub b0 0 ;;
                 b000 <- sub b00 0 ;;
                 q <- index b000 (((i * s2 + j) * s3 + k) * s4) ;;
                 bi <- sub buffer0 i ;;
                 bij <- sub bi j ;;
                 set bij k q ;;;
                 loop_l i j k) h) as (h' & E & F).
  - lia.
  - eapply filled_weaken; [|exact Hf].
    intros x q Hx [Hq|Hq]; [left; exact Hq|right]. cases_of x.
  - intros k hk Hk Fk.
    assert (B2 : 0 <= (i * s2 + j) * s3 + k < s1 * s2 * s3)
      by (apply flat_bound; lia).
    rewrite (bind_eq _ _ _ _ _
               (filled_sub h0 sz4 target4 4 _ hk 0 0 0 Fk ltac:(lia)
                  ltac:(cbn; lia) ltac:(left; split; [reflexivity|lia]))).
    cbn [target4 Z.add Z.mul].
    rewrite (bind_eq _ _ _ _ _
               (filled_sub h0 sz4 target4 4 _ hk 1 0 0 Fk ltac:(lia)
                  ltac:(cbn; lia) ltac:(left; split; [reflexivity|lia]))).
    cbn [target4 Z.add Z.mul].
    rewrite (bind_eq _ _ _ _ _
               (filled_sub h0 sz4 target4 4 _ hk 2 0 0 Fk ltac:(lia)
                  ltac:(cbn; lia) ltac:(left; split; [reflexivity|lia]))).
    cbn [target4 Z.add Z.mul].
    rewrite (bind_eq _ _ _ _ _ (index_ptr _ _ _ _)).
    rewrite (bind_eq _ _ _ _ _
               (filled_sub h0 sz4 target4 4 _ hk 0 0 i Fk ltac:(lia)
                  ltac:(cbn; lia) ltac:(right; cbn; lia))).
    cbn [target4 Z.add].
    rewrite (bind_eq _ _ _ _ _
               (filled_sub h0 sz4 target4 4 _ hk 1 (i * s2) j Fk ltac:(lia)
                  ltac:(cbn; lia) ltac:(right; cbn; lia))).
    cbn [target4].
    destruct (filled_set h0 sz4 target4 4 _
                (known4 3 (i + 1) (i * s2 + j + 1)
                   ((i * s2 + j) * s3 + k + 1)
                   (((i * s2 + j) * s3 + k) * s4))
                hk 2 ((i * s2 + j) * s3) k
                (Vptr (3 + next h0) (((i * s2 + j) * s3 + k) * s4)) Fk)
      as (hs & Es & Fs); [lia | cbn; lia | reflexivity | |].
    { intros x q Hx [Hq|Hq]; [left; left; exact Hq|]. cases_of x. }
    rewrite (bind_eq _ _ _ _ _ Es).
    destruct (loop_l_filled i j k hs Hi Hj Hk Fs) as (hl & El & Fl).
    exists hl. split; [exact El|].
    eapply filled_weaken; [|exact Fl].
    intros x q Hx [Hq|Hq]; [left; exact Hq|right]. cases_of x.
  - exists h'. split; [exact E|].
    eapply filled_weaken; [|exact F].
    intros x q Hx [Hq|Hq]; [left; exact Hq|right]. cases_of x.
Qed.

Lemma loop_j_filled i h :
  0 <= i < s1 ->
  filled4 (known4 3 (i + 1) (i * s2) (i * s2 * s3) (i * s2 * s3 * s4)) h ->
  exists h',
    loop_j i h = Some (tt, h') /\
    filled4 (known4 3 (i + 1) ((i + 1) * s2) ((i + 1) * s2 * s3)
               ((i + 1) * s2 * s3 * s4)) h'.
Proof.
  intros Hi Hf.
  assert (P12 : 0 < s1 * s2) by lia.
  assert (P123 : 0 < s1 * s2 * s3) by nia.
  unfold loop_j.
  destruct (for_loop_inv
              (fun j h =>
                 filled4 (known4 3 (i + 1) (i * s2 + j) ((i * s2 + j) * s3)
                            ((i * s2 + j) * s3 * s4)) h)
              s2
              (fun j =>
                 b0 <- sub buffer0 0 ;;
                 b00 <- sub b0 0 ;;
                 q <- index b00 ((i * s2 + j) * s3) ;;
                 bi <- sub buffer0 i ;;
                 set bi j q ;;;
                 loop_k i j) h) as (h' & E & F).
  - lia.
  - eapply filled_weaken; [|exact Hf].
    intros x q Hx [Hq|Hq]; [left; exact Hq|right]. cases_of x.
  - intros j hj Hj Fj.
    assert (B1 : 0 <= i * s2 + j < s1 * s2) by (apply flat_bound; lia).
    rewrite (bind_eq _ _ _ _ _
               (filled_sub h0 sz4 target4 4 _ hj 0 0 0 Fj ltac:(lia)
                  ltac:(cbn; lia) ltac:(left; split; [reflexivity|lia]))).
    cbn [target4 Z.add Z.mul].
    rewrite (bind_eq _ _ _ _ _
               (filled_sub h0 sz4 target4 4 _ hj 1 0 0 Fj ltac:(lia)
                  ltac:(cbn; lia) ltac:(left; split; [reflexivity|lia]))).
    cbn [target4 Z.add Z.mul].
    rewrite (bind_eq _ _ _ _ _ (index_ptr _ _ _ _)).
    rewrite (bind_eq _ _ _ _ _
               (filled_sub h0 sz4 target4 4 _ hj 0 0 i Fj ltac:(lia)
                  ltac:(cbn; lia) ltac:(right; cbn; lia))).
    cbn [target4 Z.add].
    destruct (filled_set h0 sz4 target4 4 _
                (known4 3 (i + 1) (i * s2 + j + 1) ((i * s2 + j) * s3)
                   ((i * s2 + j) * s3 * s4))
                hj 1 (i * s2) j
                (Vptr (2 + next h0) ((i * s2 + j) * s3)) Fj)
      as (hs & Es & Fs); [lia | cbn; lia | reflexivity | |].
    { intros x q Hx [Hq|Hq]; [left; left; exact Hq|]. cases_of x. }
    rewrite (bind_eq _ _ _ _ _ Es).
    destruct (loop_k_filled i j hs Hi Hj Fs) as (hl & El & Fl).
    exists hl. split; [exact El|].
    eapply filled_weaken; [|exact Fl].
    intros x q Hx [Hq|Hq]; [left; exact Hq|right]. cases_of x.
  - exists h'. split; [exact E|].
    eapply filled_weaken; [|exact F].
    intros x q Hx [Hq|Hq]; [left; exact Hq|right]. cases_of x.
Qed.

Lemma Allocate4D_loops_filled h :
  filled4 (known4 3 0 0 0 0) h ->
  exists h',
    Allocate4D_loops s1 s2 s3 s4 buffer0 h = Some (tt, h') /\
    filled4 (known4 3 s1 (s1 * s2) (s1 * s2 * s3) (s1 * s2 * s3 * s4)) h'.
Proof.
  intros Hf. rewrite Allocate4D_loops_eq.
  destruct (for_loop_inv
              (fun i h =>
                 filled4 (known4 3 i (i * s2) (i * s2 * s3)
                            (i * s2 * s3 * s4)) h)
              s1
              (fun i =>
                 b0 <- sub buffer0 0 ;;
                 q <- index b0 (i * s2) ;;
                 set buffer0 i q ;;;
                 loop_j i) h) as (h' & E & F).
  - lia.
  - exact Hf.
  - intros i hi Hi Fi.
    rewrite (bind_eq _ _ _ _ _
               (filled_sub h0 sz4 target4 4 _ hi 0 0 0 Fi ltac:(lia)
                  ltac:(cbn; lia) ltac:(left; split; [reflexivity|lia]))).
    cbn [target4 Z.add Z.mul].
    rewrite (bind_eq _ _ _ _ _ (index_ptr _ _ _ _)).
    destruct (filled_set h0 sz4 target4 4 _
                (known4 3 (i + 1) (i * s2) (i * s2 * s3) (i * s2 * s3 * s4))
                hi 0 0 i (Vptr (1 + next h0) (i * s2)) Fi)
      as (hs & Es & Fs); [lia | cbn; lia | reflexivity | |].
    { intros x q Hx [Hq|Hq]; [left; left; exact Hq|]. cases_of x. }
    rewrite (bind_eq _ _ _ _ _ Es).
    apply (loop_j_filled i hs Hi Fs).
  - exists h'. split; [exact E|exact F].
Qed.

Lemma Allocate4D_double_filled :
  exists h,
    Allocate4D_double true true true true s1 s2 s3 s4 h0
    = Some (Vptr (next h0) 0, h) /\
    filled4 (known4 3 s1 (s1 * s2) (s1 * s2 * s3) (s1 * s2 * s3 * s4)) h.
Proof.
  destruct Allocate4D_blocks_filled as (h1 & E1 & F1).
  destruct (Allocate4D_loops_filled h1 F1) as (h2 & E2 & F2).
  exists h2. split; [|exact F2].
  unfold Allocate4D_double.
  rewrite (bind_eq _ _ _ _ _ E1), (bind_eq _ _ _ _ _ E2). reflexivity.
Qed.

(** X22.  With positive sizes and successful allocations, [Allocate4D_double]
    returns a table through which [buffer[i][j][k][l]] is the cell
    [((i*size_2 + j)*size_3 + k)*size_4 + l] of one block of
    [size_1*size_2*size_3*size_4] doubles, in row-major order, and every
    such cell holds [0.0]; the blocks allocated before the call are as
    they were. *)
Theorem Allocate4D_double_layout :
  exists h,
    Allocate4D_double true true true true s1 s2 s3 s4 h0
    = Some (Vptr (next h0) 0, h) /\
    (forall b, (b < next h0)%nat -> blocks h b = blocks h0 b) /\
    bsize h (3 + next h0) = Some (s1 * s2 * s3 * s4) /\
    forall i j k l,
      0 <= i < s1 -> 0 <= j < s2 -> 0 <= k < s3 -> 0 <= l < s4 ->
      address4 (Vptr (next h0) 0) i j k l h
      = Some (Vptr (3 + next h0) (((i * s2 + j) * s3 + k) * s4 + l), h) /\
      load (Vptr (3 + next h0) (((i * s2 + j) * s3 + k) * s4 + l)) h
      = Some (Vdouble 0%R, h).
Proof.
  destruct Allocate4D_double_filled as (h & E & F).
  exists h. split; [exact E|]. split; [|split].
  - intros b Hb. apply (f_frame _ _ _ _ _ _ F). left. exact Hb.
  - apply (f_size _ _ _ _ _ _ F 3%nat). lia.
  - intros i j k l Hi Hj Hk Hl.
    assert (B1 : 0 <= i * s2 + j < s1 * s2) by (apply flat_bound; lia).
    assert (B2 : 0 <= (i * s2 + j) * s3 + k < s1 * s2 * s3)
      by (apply flat_bound; lia).
    assert (B3 : 0 <= ((i * s2 + j) * s3 + k) * s4 + l < s1 * s2 * s3 * s4)
      by (apply flat_bound; lia).
    split.
    + unfold address4.
      rewrite (bind_eq _ _ _ _ _
                 (filled_sub h0 sz4 target4 4 _ h 0 0 i F ltac:(lia)
                    ltac:(cbn; lia) ltac:(right; cbn; lia))).
      cbn [target4 Z.add].
      rewrite (bind_eq _ _ _ _ _
                 (filled_sub h0 sz4 target4 4 _ h 1 (i * s2) j F ltac:(lia)
                    ltac:(cbn; lia) ltac:(right; cbn; lia))).
      cbn [target4].
      rewrite (bind_eq _ _ _ _ _
                 (filled_sub h0 sz4 target4 4 _ h 2 ((i * s2 + j) * s3) k F
                    ltac:(lia) ltac:(cbn; lia) ltac:(right; cbn; lia))).
      cbn [target4]. reflexivity.
    + apply (load_peek h (3 + next h0) _ (s1 * s2 * s3 * s4)).
      * apply (f_size _ _ _ _ _ _ F 3%nat). lia.
      * exact B3.
      * apply (f_cell _ _ _ _ _ _ F 3%nat); [lia|]. right. cbn. lia.
Qed.

(** The tables when an allocation has failed: the first cell of the table
    [d] holds the null pointer. *)
Definition target_null (d : nat) (x : nat) (q : Z) : val :=
  if (x =? d)%nat then Vnull else target4 x q.

Definition sz_null (d : nat) (x : nat) : Z :=
  if (x <=? d)%nat then sz4 x else sz4 (S x).

Definition heads (n : nat) (x : nat) (q : Z) : Prop := q = 0 /\ (x < n)%nat.

Ltac heads_of x :=
  destruct x as [|[|[|[|x]]]]; unfold heads in *; cbn in *; try lia;
  try (intuition lia).

Lemma malloc_false n h : malloc false n h = Some (Vnull, h).
Proof. reflexivity. Qed.

Lemma Allocate4D_second_fails ok3 ok4 :
  Allocate4D_double true false ok3 ok4 s1 s2 s3 s4 h0 = None.
Proof.
  unfold Allocate4D_double. apply bind_fault. unfold Allocate4D_blocks.
  destruct (filled_malloc h0 (sz_null 0) (target_null 0) 0 (fun _ _ => False)
              (heads 0) h0 s1 (filled_start h0 _ _) eq_refl)
    as (ha & Ea & Fa).
  { intros x q Hx Hk. heads_of x. }
  rewrite (bind_eq _ _ _ _ _ Ea).
  rewrite (bind_eq _ _ _ _ _ (malloc_false _ _)).
  destruct (filled_set h0 (sz_null 0) (target_null 0) 1 (heads 0) (heads 1)
              ha 0 0 0 Vnull Fa) as (hb & Eb & Fb);
    [lia | cbn; lia | reflexivity | |].
  { intros x q Hx Hk. heads_of x. }
  rewrite (bind_eq _ _ _ _ _ Eb).
  destruct ok3.
  - destruct (filled_malloc h0 (sz_null 0) (target_null 0) 1 (heads 1)
                (heads 1) hb (s1 * s2 * s3) Fb eq_refl) as (hc & Ec & Fc).
    { intros x q Hx Hk. heads_of x. }
    rewrite (bind_eq _ _ _ _ _ Ec).
    rewrite (bind_eq _ _ _ _ _
               (filled_sub h0 (sz_null 0) (target_null 0) 2 (heads 1) hc 0 0 0
                  Fc ltac:(lia) ltac:(cbn; lia)
                  ltac:(split; [reflexivity|lia]))).
    reflexivity.
  - rewrite (bind_eq _ _ _ _ _ (malloc_false _ _)).
    rewrite (bind_eq _ _ _ _ _
               (filled_sub h0 (sz_null 0) (target_null 0) 1 (heads 1) hb 0 0 0
                  Fb ltac:(lia) ltac:(cbn; lia)
                  ltac:(split; [reflexivity|lia]))).
    reflexivity.
Qed.

Lemma Allocate4D_third_fails ok4 :
  Allocate4D_double true true false ok4 s1 s2 s3 s4 h0 = None.
Proof.
  assert (P12 : 0 < s1 * s2) by lia.
  unfold Allocate4D_double. apply bind_fault. unfold Allocate4D_blocks.
  destruct (filled_malloc h0 (sz_null 1) (target_null 1) 0 (fun _ _ => False)
              (heads 0) h0 s1 (filled_start h0 _ _) eq_refl)
    as (ha & Ea & Fa).
  { intros x q Hx Hk. heads_of x. }
  rewrite (bind_eq _ _ _ _ _ Ea).
  destruct (filled_malloc h0 (sz_null 1) (target_null 1) 1 (heads 0)
              (heads 0) ha (s1 * s2) Fa eq_refl) as (hb & Eb & Fb).
  { intros x q Hx Hk. heads_of x. }
  rewrite (bind_eq _ _ _ _ _ Eb).
  destruct (filled_set h0 (sz_null 1) (target_null 1) 2 (heads 0) (heads 1)
              hb 0 0 0 (Vptr (1 + next h0) 0) Fb) as (hc & Ec & Fc);
    [lia | cbn; lia | reflexivity | |].
  { intros x q Hx Hk. heads_of x. }
  rewrite (bind_eq _ _ _ _ _ Ec).
  rewrite (bind_eq _ _ _ _ _ (malloc_false _ _)).
  rewrite (bind_eq _ _ _ _ _
             (filled_sub h0 (sz_null 1) (target_null 1) 2 (heads 1) hc 0 0 0
                Fc ltac:(lia) ltac:(cbn; lia)
                ltac:(split; [reflexivity|lia]))).
  cbn [target_null target4 Nat.eqb Z.add Z.mul].
  destruct (filled_set h0 (sz_null 1) (target_null 1) 2 (heads 1) (heads 2)
              hc 1 0 0 Vnull Fc) as (hd & Ed & Fd);
    [lia | cbn; lia | reflexivity | |].
  { intros x q Hx Hk. heads_of x. }
  rewrite (bind_eq _ _ _ _ _ Ed).
  destruct ok4.
  - destruct (filled_malloc h0 (sz_null 1) (target_null 1) 2 (heads 2)
                (heads 2) hd (s1 * s2 * s3 * s4) Fd eq_refl)
      as (he & Ee & Fe).
    { intros x q Hx Hk. heads_of x. }
    rewrite (bind_eq _ _ _ _ _ Ee).
    rewrite (bind_eq _ _ _ _ _
               (filled_sub h0 (sz_null 1) (target_null 1) 3 (heads 2) he 0 0 0
                  Fe ltac:(lia) ltac:(cbn; lia)
                  ltac:(split; [reflexivity|lia]))).
    cbn [target_null target4 Nat.eqb Z.add Z.mul].
    rewrite (bind_eq _ _ _ _ _
               (filled_sub h0 (sz_null 1) (target_null 1) 3 (heads 2) he 1 0 0
                  Fe ltac:(lia) ltac:(cbn; lia)
                  ltac:(split; [reflexivity|lia]))).
    reflexivity.
  - rewrite (bind_eq _ _ _ _ _ (malloc_false _ _)).
    rewrite (bind_eq _ _ _ _ _
               (filled_sub h0 (sz_null 1) (target_null 1) 2 (heads 2) hd 0 0 0
                  Fd ltac:(lia) ltac:(cbn; lia)
                  ltac:(split; [reflexivity|lia]))).
    cbn [target_null target4 Nat.eqb Z.add Z.mul].
    rewrite (bind_eq _ _ _ _ _
               (filled_sub h0 (sz_null 1) (target_null 1) 2 (heads 2) hd 1 0 0
                  Fd ltac:(lia) ltac:(cbn; lia)
                  ltac:(split; [reflexivity|lia]))).
    reflexivity.
Qed.

Lemma Allocate4D_fourth_fails :
  Allocate4D_double true true true false s1 s2 s3 s4 h0 = None.
Proof.
  assert (P12 : 0 < s1 * s2) by lia.
  assert (P123 : 0 < s1 * s2 * s3) by nia.
  assert (Hb : exists hf,
             Allocate4D_blocks true true true false s1 s2 s3 s4 h0
             = Some (Vptr (next h0) 0, hf) /\
             filled h0 (sz_null 2) (target_null 2) 3 (heads 3) hf).
  { unfold Allocate4D_blocks.
  destruct (filled_malloc h0 (sz_null 2) (target_null 2) 0 (fun _ _ => False)
              (heads 0) h0 s1 (filled_start h0 _ _) eq_refl)
    as (ha & Ea & Fa).
  { intros x q Hx Hk. heads_of x. }
  rewrite (bind_eq _ _ _ _ _ Ea).
  destruct (filled_malloc h0 (sz_null 2) (target_null 2) 1 (heads 0)
              (heads 0) ha (s1 * s2) Fa eq_refl) as (hb & Eb & Fb).
  { intros x q Hx Hk. heads_of x. }
  rewrite (bind_eq _ _ _ _ _ Eb).
  destruct (filled_set h0 (sz_null 2) (target_null 2) 2 (heads 0) (heads 1)
              hb 0 0 0 (Vptr (1 + next h0) 0) Fb) as (hc & Ec & Fc);
    [lia | cbn; lia | reflexivity | |].
  { intros x q Hx Hk. heads_of x. }
  rewrite (bind_eq _ _ _ _ _ Ec).
  destruct (filled_malloc h0 (sz_null 2) (target_null 2) 2 (heads 1)
              (heads 1) hc (s1 * s2 * s3) Fc eq_refl) as (hd & Ed & Fd).
  { intros x q Hx Hk. heads_of x. }
  rewrite (bind_eq _ _ _ _ _ Ed).
  rewrite (bind_eq _ _ _ _ _
             (filled_sub h0 (sz_null 2) (target_null 2) 3 (heads 1) hd 0 0 0
                Fd ltac:(lia) ltac:(cbn; lia)
                ltac:(split; [reflexivity|lia]))).
  cbn [target_null target4 Nat.eqb Z.add Z.mul].
  destruct (filled_set h0 (sz_null 2) (target_null 2) 3 (heads 1) (heads 2)
              hd 1 0 0 (Vptr (2 + next h0) 0) Fd) as (he & Ee & Fe);
    [lia | cbn; lia | reflexivity | |].
  { intros x q Hx Hk. heads_of x. }
  rewrite (bind_eq _ _ _ _ _ Ee).
  rewrite (bind_eq _ _ _ _ _ (malloc_false _ _)).
  rewrite (bind_eq _ _ _ _ _
             (filled_sub h0 (sz_null 2) (target_null 2) 3 (heads 2) he 0 0 0
                Fe ltac:(lia) ltac:(cbn; lia)
                ltac:(split; [reflexivity|lia]))).
  cbn [target_null target4 Nat.eqb Z.add Z.mul].
  rewrite (bind_eq _ _ _ _ _
             (filled_sub h0 (sz_null 2) (target_null 2) 3 (heads 2) he 1 0 0
                Fe ltac:(lia) ltac:(cbn; lia)
                ltac:(split; [reflexivity|lia]))).
  cbn [target_null target4 Nat.eqb Z.add Z.mul].
  destruct (filled_set h0 (sz_null 2) (target_null 2) 3 (heads 2) (heads 3)
              he 2 0 0 Vnull Fe) as (hf & Ef & Ff);
    [lia | cbn; lia | reflexivity | |].
  { intros x q Hx Hk. heads_of x. }
  rewrite (bind_eq _ _ _ _ _ Ef).
  exists hf. split; [reflexivity|exact Ff]. }
  destruct Hb as (hf & Ef & Ff).
  unfold Allocate4D_double. rewrite (bind_eq _ _ _ _ _ Ef).
  apply bind_fault. rewrite Allocate4D_loops_eq.
  apply for_loop_fault; [lia|].
  rewrite (bind_eq _ _ _ _ _
             (filled_sub h0 (sz_null 2) (target_null 2) 3 (heads 3) hf 0 0 0
                Ff ltac:(lia) ltac:(cbn; lia)
                ltac:(split; [reflexivity|lia]))).
  cbn [target_null target4 Nat.eqb Z.add Z.mul].
  rewrite (bind_eq _ _ _ _ _ (index_ptr _ _ _ _)).
  cbn [Z.add Z.mul].
  destruct (filled_set h0 (sz_null 2) (target_null 2) 3 (heads 3) (heads 3)
              hf 0 0 0 (Vptr (1 + next h0) 0) Ff) as (hg & Eg & Fg);
    [lia | cbn; lia | reflexivity | |].
  { intros x q Hx Hk. left. exact Hk. }
  rewrite (bind_eq _ _ _ _ _ Eg).
  apply for_loop_fault; [lia|].
  rewrite (bind_eq _ _ _ _ _
             (filled_sub h0 (sz_null 2) (target_null 2) 3 (heads 3) hg 0 0 0
                Fg ltac:(lia) ltac:(cbn; lia)
                ltac:(split; [reflexivity|lia]))).
  cbn [target_null target4 Nat.eqb Z.add Z.mul].
  rewrite (bind_eq _ _ _ _ _
             (filled_sub h0 (sz_null 2) (target_null 2) 3 (heads 3) hg 1 0 0
                Fg ltac:(lia) ltac:(cbn; lia)
                ltac:(split; [reflexivity|lia]))).
  cbn [target_null target4 Nat.eqb Z.add Z.mul].
  rewrite (bind_eq _ _ _ _ _ (index_ptr _ _ _ _)).
  cbn [Z.add Z.mul].
  rewrite (bind_eq _ _ _ _ _
             (filled_sub h0 (sz_null 2) (target_null 2) 3 (heads 3) hg 0 0 0
                Fg ltac:(lia) ltac:(cbn; lia)
                ltac:(split; [reflexivity|lia]))).
  cbn [target_null target4 Nat.eqb Z.add Z.mul].
  destruct (filled_set h0 (sz_null 2) (target_null 2) 3 (heads 3) (heads 3)
              hg 1 0 0 (Vptr (2 + next h0) 0) Fg) as (hh & Eh & Fh);
    [lia | cbn; lia | reflexivity | |].
  { intros x q Hx Hk. left. exact Hk. }
  rewrite (bind_eq _ _ _ _ _ Eh).
  apply for_loop_fault; [lia|].
  rewrite (bind_eq _ _ _ _ _
             (filled_sub h0 (sz_null 2) (target_null 2) 3 (heads 3) hh 0 0 0
                Fh ltac:(lia) ltac:(cbn; lia)
                ltac:(split; [reflexivity|lia]))).
  cbn [target_null target4 Nat.eqb Z.add Z.mul].
  rewrite (bind_eq _ _ _ _ _
             (filled_sub h0 (sz_null 2) (target_null 2) 3 (heads 3) hh 1 0 0
                Fh ltac:(lia) ltac:(cbn; lia)
                ltac:(split; [reflexivity|lia]))).
  cbn [target_null target4 Nat.eqb Z.add Z.mul].
  rewrite (bind_eq _ _ _ _ _
             (filled_sub h0 (sz_null 2) (target_null 2) 3 (heads 3) hh 2 0 0
                Fh ltac:(lia) ltac:(cbn; lia)
                ltac:(split; [reflexivity|lia]))).
  cbn [target_null target4 Nat.eqb Z.add Z.mul].
  rewrite (bind_eq _ _ _ _ _ (index_null _)).
  rewrite (bind_eq _ _ _ _ _
             (filled_sub h0 (sz_null 2) (target_null 2) 3 (heads 3) hh 0 0 0
                Fh ltac:(lia) ltac:(cbn; lia)
                ltac:(split; [reflexivity|lia]))).
  cbn [target_null target4 Nat.eqb Z.add Z.mul].
  rewrite (bind_eq _ _ _ _ _
             (filled_sub h0 (sz_null 2) (target_null 2) 3 (heads 3) hh 1 0 0
                Fh ltac:(lia) ltac:(cbn; lia)
                ltac:(split; [reflexivity|lia]))).
  cbn [target_null target4 Nat.eqb Z.add Z.mul].
  destruct (filled_set h0 (sz_null 2) (target_null 2) 3 (heads 3) (heads 3)
              hh 2 0 0 Vnull Fh) as (hi & Ei & Fi);
    [lia | cbn; lia | reflexivity | |].
  { intros x q Hx Hk. left. exact Hk. }
  rewrite (bind_eq _ _ _ _ _ Ei).
  apply for_loop_fault; [exact Hs4|].
  rewrite (bind_eq _ _ _ _ _
             (filled_sub h0 (sz_null 2) (target_null 2) 3 (heads 3) hi 0 0 0
                Fi ltac:(lia) ltac:(cbn; lia)
                ltac:(split; [reflexivity|lia]))).
  cbn [target_null target4 Nat.eqb Z.add Z.mul].
  rewrite (bind_eq _ _ _ _ _
             (filled_sub h0 (sz_null 2) (target_null 2) 3 (heads 3) hi 1 0 0
                Fi ltac:(lia) ltac:(cbn; lia)
                ltac:(split; [reflexivity|lia]))).
  cbn [target_null target4 Nat.eqb Z.add Z.mul].
  rewrite (bind_eq _ _ _ _ _
             (filled_sub h0 (sz_null 2) (target_null 2) 3 (heads 3) hi 2 0 0
                Fi ltac:(lia) ltac:(cbn; lia)
                ltac:(split; [reflexivity|lia]))).
  reflexivity.
Qed.

(** X23.  [Allocate4D_double] does not test what [malloc] returns: with
    positive sizes, if any of the four allocations fails the call goes on
    and faults, writing through the null pointer.  (The sizes must be
    positive: with [size_4 <= 0] the innermost loop does not run, and a
    failed fourth allocation is only stored, never written through.) *)
Theorem Allocate4D_double_unchecked (ok1 ok2 ok3 ok4 : bool) :
  ok1 && ok2 && ok3 && ok4 = false ->
  Allocate4D_double ok1 ok2 ok3 ok4 s1 s2 s3 s4 h0 = None.
Proof.
  intros Hok. destruct ok1.
  - destruct ok2; [|apply Allocate4D_second_fails].
    destruct ok3; [|apply Allocate4D_third_fails].
    destruct ok4; [discriminate|apply Allocate4D_fourth_fails].
  - destruct ok2; reflexivity.
Qed.

End Allocate4D.

(** *** Allocate3D_double and Free3D_double *)

Lemma for_each_opt_inv {St : Type} (I : nat -> St -> Prop)
  (body : nat -> St -> option St) m :
  forall lo s,
    I lo s ->
    (forall x s, (lo <= x < lo + m)%nat -> I x s ->
       exists s', body x s = Some s' /\ I (S x) s') ->
    exists s', for_each_opt (seq lo m) body s = Some s' /\ I (lo + m)%nat s'.
Proof.
  induction m as [|m IH]; intros lo s HI Hbody.
  - exists s. split; [reflexivity|]. rewrite Nat.add_0_r. exact HI.
  - cbn [seq for_each_opt].
    destruct (Hbody lo s ltac:(lia) HI) as (s1 & E1 & HI1). rewrite E1.
    destruct (IH (S lo) s1 HI1) as (s2 & E2 & HI2).
    { intros x s' Hx. apply Hbody. lia. }
    exists s2. split; [exact E2|].
    replace (lo + S m)%nat with (S lo + m)%nat by lia. exact HI2.
Qed.

Lemma not_null_ptr b o h : not_null (Vptr b o) h = Some (true, h).
Proof. reflexivity. Qed.

Lemma free_ok h b len :
  bsize h b = Some len ->
  exists h',
    free (Vptr b 0) h = Some (tt, h') /\
    next h' = next h /\
    blocks h' b = None /\
    (forall b', b' <> b -> blocks h' b' = blocks h b').
Proof.
  unfold bsize, free. destruct (blocks h b) as [bl|]; [|discriminate].
  intros _. cbn [Z.eqb]. eexists. split; [reflexivity|]. cbn [next blocks].
  split; [reflexivity|]. split.
  - rewrite Nat.eqb_refl. reflexivity.
  - intros b' Hb. apply Nat.eqb_neq in Hb. rewrite Hb. reflexivity.
Qed.

Lemma bind_assoc {A B C : Type} (m : M A) (k0 : A -> M B) (k : B -> M C) h :
  bind (bind m k0) k h = bind m (fun x => bind (k0 x) k) h.
Proof. unfold bind. destruct (m h) as [[a h']|]; reflexivity. Qed.

Section Allocate3D.

Variable h0 : heap.
Variables m n t : Z.
Hypothesis Hm : 0 < m.
Hypothesis Hn : 0 < n.
Hypothesis Ht : 0 < t.

Definition sz3 (x : nat) : Z :=
  match x with
  | 0%nat => m
  | 1%nat => m * n
  | _ => m * n * t
  end.

Definition target3 (x : nat) (q : Z) : val :=
  match x with
  | 0%nat => Vptr (1 + next h0) (q * n)
  | 1%nat => Vptr (2 + next h0) (q * t)
  | _ => Vundef
  end.

(** The two tables are set below [c0] and [c1]; the doubles are as [malloc]
    left them. *)
Definition known3 (c0 c1 : Z) (x : nat) (q : Z) : Prop :=
  match x with
  | 0%nat => 0 <= q < c0
  | 1%nat => 0 <= q < c1
  | _ => True
  end.

Local Abbreviation filled3 := (filled h0 sz3 target3 3).

Ltac rows_of x :=
  destruct x as [|[|[|x]]]; unfold known3 in *; cbn in *; try lia;
  try (intuition lia).

Lemma Allocate3D_rows_filled h :
  filled3 (known3 0 0) h ->
  exists p h',
    Allocate3D_rows m n t (Vptr (next h0) 0) (Vptr (1 + next h0) 0)
      (Vptr (2 + next h0) 0) h = Some (p, h') /\
    filled3 (known3 m (m * n)) h'.
Proof.
  intros Hf. unfold Allocate3D_rows.
  destruct (for_each_opt_inv
              (fun x (st : val * heap) =>
                 fst st = Vptr (2 + next h0) (Z.of_nat x * n * t) /\
                 filled3 (known3 (Z.of_nat x) (Z.of_nat x * n)) (snd st))
              (fun x (st : val * heap) =>
                 let i := Z.of_nat x in
                 (q <- index (Vptr (1 + next h0) 0) (i * n) ;;
                  set (Vptr (next h0) 0) i q ;;;
                  for_loop n (fun k =>
                    q <- index (fst st) (k * t) ;;
                    ri <- sub (Vptr (next h0) 0) i ;;
                    set ri k q) ;;;
                  index (fst st) (n * t)) (snd st))
              (Z.to_nat m) 0%nat (Vptr (2 + next h0) 0, h))
    as ([p h'] & E & Hp & F).
  - split; [reflexivity|exact Hf].
  - intros x [p hx] Hx [Hp Fx]. cbn [fst snd] in *. cbv zeta.
    set (i := Z.of_nat x) in *.
    assert (Hi : 0 <= i < m) by lia.
    rewrite (bind_eq _ _ _ _ _ (index_ptr _ _ _ _)).
    destruct (filled_set h0 sz3 target3 3 _ (known3 (i + 1) (i * n))
                hx 0 0 i (Vptr (1 + next h0) (0 + i * n)) Fx)
      as (ha & Ea & Fa); [lia | cbn; lia | cbn; f_equal; lia | |].
    { intros x' q' Hx' Hk. rows_of x'. }
    rewrite (bind_eq _ _ _ _ _ Ea).
    destruct (for_loop_inv
                (fun k h => filled3 (known3 (i + 1) (i * n + k)) h)
                n
                (fun k =>
                   q <- index p (k * t) ;;
                   ri <- sub (Vptr (next h0) 0) i ;;
                   set ri k q) ha) as (hb & Eb & Fb).
    + lia.
    + eapply filled_weaken; [|exact Fa]. intros x' q' Hx' Hk. rows_of x'.
    + intros k hk Hk Fk.
      assert (B1 : 0 <= i * n + k < m * n) by (apply flat_bound; lia).
      rewrite Hp.
      rewrite (bind_eq _ _ _ _ _ (index_ptr _ _ _ _)).
      rewrite (bind_eq _ _ _ _ _
                 (filled_sub h0 sz3 target3 3 _ hk 0 0 i Fk ltac:(lia)
                    ltac:(cbn; lia) ltac:(cbn; lia))).
      cbn [target3 Z.add].
      apply (filled_set h0 sz3 target3 3 _ _ hk 1 (i * n) k
               (Vptr (2 + next h0) (i * n * t + k * t)) Fk);
        [lia | cbn; lia | cbn; f_equal; lia |].
      intros x' q' Hx' Hk'. rows_of x'.
    + rewrite (bind_eq _ _ _ _ _ Eb). rewrite Hp.
      rewrite index_ptr. eexists. split; [reflexivity|]. cbn [fst snd].
      replace (Z.of_nat (S x)) with (i + 1) by (unfold i; lia).
      split; [f_equal; lia|].
      eapply filled_weaken; [|exact Fb]. intros x' q' Hx' Hk. rows_of x'.
  - exists p, h'. split; [exact E|]. cbn [fst snd] in *.
    eapply filled_weaken; [|exact F]. intros x' q' Hx' Hk. rows_of x'.
Qed.

Lemma Allocate3D_double_filled :
  exists h,
    Allocate3D_double true true true m n t h0 = Some (Vptr (next h0) 0, h) /\
    filled3 (known3 m (m * n)) h.
Proof.
  unfold Allocate3D_double.
  replace (0 <? m) with true by (symmetry; apply Z.ltb_lt; lia).
  replace (0 <? n) with true by (symmetry; apply Z.ltb_lt; lia).
  replace (0 <? t) with true by (symmetry; apply Z.ltb_lt; lia).
  cbn [andb].
  destruct (filled_malloc h0 sz3 target3 0 (fun _ _ => False) (known3 0 0)
              h0 m (filled_start h0 _ _) eq_refl) as (ha & Ea & Fa).
  { intros x q Hx Hk. rows_of x. }
  rewrite (bind_eq _ _ _ _ _ Ea).
  destruct (filled_malloc h0 sz3 target3 1 (known3 0 0) (known3 0 0)
              ha (m * n) Fa eq_refl) as (hb & Eb & Fb).
  { intros x q Hx Hk. rows_of x. }
  rewrite (bind_eq _ _ _ _ _ Eb).
  destruct (filled_malloc h0 sz3 target3 2 (known3 0 0) (known3 0 0)
              hb (m * n * t) Fb eq_refl) as (hc & Ec & Fc).
  { intros x q Hx Hk. rows_of x. }
  rewrite (bind_eq _ _ _ _ _ Ec).
  rewrite !(bind_eq _ _ _ _ _ (not_null_ptr _ _ _)). cbn [andb].
  destruct (Allocate3D_rows_filled hc Fc) as (p & h & E & F).
  rewrite (bind_eq _ _ _ _ _ E).
  exists h. split; [reflexivity|exact F].
Qed.

(** X24.  With positive dimensions and successful allocations,
    [Allocate3D_double] returns a table through which [result[i][k][l]] is
    the cell [(i*n + k)*t + l] of one block of [m*n*t] doubles, in row-major
    order; the doubles are not initialised, and the blocks allocated before
    the call are as they were. *)
Theorem Allocate3D_double_layout :
  exists h,
    Allocate3D_double true true true m n t h0 = Some (Vptr (next h0) 0, h) /\
    (forall b, (b < next h0)%nat -> blocks h b = blocks h0 b) /\
    bsize h (2 + next h0) = Some (m * n * t) /\
    forall i k l,
      0 <= i < m -> 0 <= k < n -> 0 <= l < t ->
      address3 (Vptr (next h0) 0) i k l h
      = Some (Vptr (2 + next h0) ((i * n + k) * t + l), h) /\
      load (Vptr (2 + next h0) ((i * n + k) * t + l)) h = Some (Vundef, h).
Proof.
  destruct Allocate3D_double_filled as (h & E & F).
  exists h. split; [exact E|]. split; [|split].
  - intros b Hb. apply (f_frame _ _ _ _ _ _ F). left. exact Hb.
  - apply (f_size _ _ _ _ _ _ F 2%nat). lia.
  - intros i k l Hi Hk Hl.
    assert (B1 : 0 <= i * n + k < m * n) by (apply flat_bound; lia).
    assert (B2 : 0 <= (i * n + k) * t + l < m * n * t)
      by (apply flat_bound; lia).
    split.
    + unfold address3.
      rewrite (bind_eq _ _ _ _ _
                 (filled_sub h0 sz3 target3 3 _ h 0 0 i F ltac:(lia)
                    ltac:(cbn; lia) ltac:(cbn; lia))).
      cbn [target3 Z.add].
      rewrite (bind_eq _ _ _ _ _
                 (filled_sub h0 sz3 target3 3 _ h 1 (i * n) k F ltac:(lia)
                    ltac:(cbn; lia) ltac:(cbn; lia))).
      cbn [target3]. reflexivity.
    + apply (load_peek h (2 + next h0) _ (m * n * t)).
      * apply (f_size _ _ _ _ _ _ F 2%nat). lia.
      * exact B2.
      * apply (f_cell _ _ _ _ _ _ F 2%nat); [lia|]. exact I.
Qed.

(** X25.  [Free3D_double] undoes a successful [Allocate3D_double]: it runs
    without a fault, frees the three blocks of the table, and leaves every
    other block as it was before the allocation. *)
Theorem Free3D_double_round_trip :
  exists h,
    (p <- Allocate3D_double true true true m n t ;; Free3D_double p) h0
    = Some (tt, h) /\
    (forall b, (next h0 <= b < 3 + next h0)%nat -> blocks h b = None) /\
    (forall b, ~ (next h0 <= b < 3 + next h0)%nat ->
               blocks h b = blocks h0 b).
Proof.
  destruct Allocate3D_double_filled as (h1 & E1 & F1).
  rewrite (bind_eq _ _ _ _ _ E1).
  assert (P : 0 < m * n) by lia.
  pose proof (f_size _ _ _ _ _ _ F1 0%nat ltac:(lia)) as S0.
  pose proof (f_size _ _ _ _ _ _ F1 1%nat ltac:(lia)) as S1.
  pose proof (f_size _ _ _ _ _ _ F1 2%nat ltac:(lia)) as S2.
  pose proof (f_cell _ _ _ _ _ _ F1 0%nat 0 ltac:(lia) ltac:(cbn; lia)) as C0.
  pose proof (f_cell _ _ _ _ _ _ F1 1%nat 0 ltac:(lia) ltac:(cbn; lia)) as C1.
  cbn [sz3 target3 Z.mul Nat.add] in S0, S1, S2, C0, C1.
  unfold Free3D_double.
  rewrite (bind_eq _ _ _ _ _ (sub_peek h1 _ 0 0 _ _ S0 ltac:(lia) C0)).
  rewrite ?bind_assoc.
  rewrite (bind_eq _ _ _ _ _ (not_null_ptr _ _ _)).
  rewrite ?bind_assoc.
  rewrite (bind_eq _ _ _ _ _ (sub_peek h1 _ 0 0 _ _ S1 ltac:(lia) C1)).
  rewrite ?bind_assoc.
  rewrite (bind_eq _ _ _ _ _ (not_null_ptr _ _ _)).
  rewrite ?bind_assoc.
  destruct (free_ok h1 _ _ S2) as (h2 & E2 & N2 & D2 & B2).
  rewrite (bind_eq _ _ _ _ _ E2).
  rewrite ?bind_assoc.
  assert (S0b : bsize h2 (next h0) = Some m)
    by (unfold bsize; rewrite B2 by lia; exact S0).
  assert (C0b : peek h2 (next h0) 0 = Some (Vptr (S (next h0)) 0))
    by (unfold peek; rewrite B2 by lia; exact C0).
  assert (S1b : bsize h2 (S (next h0)) = Some (m * n))
    by (unfold bsize; rewrite B2 by lia; exact S1).
  rewrite (bind_eq _ _ _ _ _ (sub_peek h2 _ 0 0 _ _ S0b ltac:(lia) C0b)).
  rewrite ?bind_assoc.
  destruct (set_ok h2 (S (next h0)) 0 0 (m * n) Vnull S1b ltac:(lia))
    as (h3 & E3 & N3 & B3 & Z3 & K3).
  rewrite (bind_eq _ _ _ _ _ E3).
  rewrite ?bind_assoc.
  assert (S0c : bsize h3 (next h0) = Some m) by (rewrite Z3; exact S0b).
  assert (C0c : peek h3 (next h0) 0 = Some (Vptr (S (next h0)) 0)).
  { rewrite K3.
    replace (next h0 =? S (next h0))%nat with false
      by (symmetry; apply Nat.eqb_neq; lia).
    exact C0b. }
  assert (S1c : bsize h3 (S (next h0)) = Some (m * n))
    by (rewrite Z3; exact S1b).
  rewrite (bind_eq _ _ _ _ _ (sub_peek h3 _ 0 0 _ _ S0c ltac:(lia) C0c)).
  rewrite ?bind_assoc.
  destruct (free_ok h3 _ _ S1c) as (h4 & E4 & N4 & D4 & B4).
  rewrite (bind_eq _ _ _ _ _ E4).
  rewrite ?bind_assoc.
  assert (S0d : bsize h4 (next h0) = Some m)
    by (unfold bsize; rewrite B4 by lia; exact S0c).
  destruct (set_ok h4 (next h0) 0 0 m Vnull S0d ltac:(lia))
    as (h5 & E5 & N5 & B5 & Z5 & K5).
  rewrite (bind_eq _ _ _ _ _ E5).
  rewrite ?bind_assoc.
  assert (S0e : bsize h5 (next h0) = Some m) by (rewrite Z5; exact S0d).
  destruct (free_ok h5 _ _ S0e) as (h6 & E6 & N6 & D6 & B6).
  exists h6. split; [exact E6|].
  assert (G : forall b, b <> next h0 -> b <> S (next h0) ->
                        b <> S (S (next h0)) -> blocks h6 b = blocks h1 b).
  { intros b G0 G1 G2.
    rewrite B6, B5, B4, B3, B2 by assumption. reflexivity. }
  split.
  - intros b Hb.
    destruct (Nat.eq_dec b (next h0)) as [->|G0]; [exact D6|].
    rewrite B6, B5 by assumption.
    destruct (Nat.eq_dec b (S (next h0))) as [->|G1]; [exact D4|].
    rewrite B4, B3 by assumption.
    assert (b = S (S (next h0))) as -> by lia. exact D2.
  - intros b Hb. rewrite G by lia.
    apply (f_frame _ _ _ _ _ _ F1). lia.
Qed.


End Allocate3D.

(** *** When [Allocate3D_double] gives up *)

Lemma eqb_n_Sn x : (x =? S x)%nat = false.
Proof. apply Nat.eqb_neq. lia. Qed.

Lemma eqb_Sn_n x : (S x =? x)%nat = false.
Proof. apply Nat.eqb_neq. lia. Qed.

Lemma eqb_n_SSn x : (x =? S (S x))%nat = false.
Proof. apply Nat.eqb_neq. lia. Qed.

Lemma eqb_SSn_n x : (S (S x) =? x)%nat = false.
Proof. apply Nat.eqb_neq. lia. Qed.

Ltac run_frees :=
  unfold bind, malloc, not_null, free, ret;
  cbn [next blocks andb Z.eqb fst snd];
  repeat (rewrite ?Nat.eqb_refl, ?eqb_n_Sn, ?eqb_Sn_n, ?eqb_n_SSn, ?eqb_SSn_n;
          cbn [next blocks andb Z.eqb fst snd]).

Lemma Allocate3D_double_null (ok1 ok2 ok3 : bool) (m n t : Z) (h0 : heap) :
  (0 <? m) && (0 <? n) && (0 <? t) && ok1 && ok2 && ok3 = false ->
  exists h,
    Allocate3D_double ok1 ok2 ok3 m n t h0 = Some (Vnull, h) /\
    (forall b, (next h0 <= b < next h)%nat -> blocks h b = None) /\
    (forall b, ~ (next h0 <= b < next h)%nat -> blocks h b = blocks h0 b).
Proof.
  intros Hno. unfold Allocate3D_double.
  destruct ((0 <? m) && (0 <? n) && (0 <? t)).
  - cbn [andb] in Hno.
    destruct ok1, ok2, ok3; try discriminate; run_frees.
    all: eexists; split; [reflexivity|]; cbn [next blocks]; split; intros b Hb.
    all: destruct (Nat.eqb_spec b (S (next h0))), (Nat.eqb_spec b (next h0));
      try reflexivity; try lia.
  - exists h0. split; [reflexivity|]. split; intros b Hb; [lia|reflexivity].
Qed.

(** X26.  Unless the three dimensions are positive and the three
    allocations succeed, [Allocate3D_double] returns the null pointer and
    leaks nothing: every block it has allocated is freed again, and the
    other blocks are as they were. *)
Theorem Allocate3D_double_gives_up (ok1 ok2 ok3 : bool) (m n t : Z) (h0 : heap) :
  (0 <? m) && (0 <? n) && (0 <? t) && ok1 && ok2 && ok3 = false ->
  exists h,
    Allocate3D_double ok1 ok2 ok3 m n t h0 = Some (Vnull, h) /\
    (forall b, (next h0 <= b < next h)%nat -> blocks h b = None) /\
    (forall b, ~ (next h0 <= b < next h)%nat -> blocks h b = blocks h0 b).
Proof. apply Allocate3D_double_null. Qed.

(** X27.  [Free3D_double] reads [*p] before any test of [p]: given the null
    pointer that [Allocate3D_double] returns when it gives up, it faults. *)
Theorem Free3D_double_of_null (ok1 ok2 ok3 : bool) (m n t : Z) (h0 : heap) :
  (0 <? m) && (0 <? n) && (0 <? t) && ok1 && ok2 && ok3 = false ->
  (p <- Allocate3D_double ok1 ok2 ok3 m n t ;; Free3D_double p) h0 = None.
Proof.
  intros Hno.
  destruct (Allocate3D_double_null ok1 ok2 ok3 m n t h0 Hno) as (h & E & _).
  rewrite (bind_eq _ _ _ _ _ E). reflexivity.
Qed.

(** *** Examples: tables allocated from an empty heap *)

Definition empty : heap := {| next := 0; blocks := fun _ => None |}.

(** [buffer[1][2][1][1]] of a 2 x 3 x 2 x 2 array is the cell 23 of the
    block of doubles. *)
Lemma Allocate4D_double_layout_witness :
  exists h,
    Allocate4D_double true true true true 2 3 2 2 empty
    = Some (Vptr 0 0, h) /\
    address4 (Vptr 0 0) 1 2 1 1 h = Some (Vptr 3 23, h) /\
    load (Vptr 3 23) h = Some (Vdouble 0%R, h).
Proof.
  destruct (Allocate4D_double_layout empty 2 3 2 2 ltac:(lia) ltac:(lia)
              ltac:(lia) ltac:(lia)) as (h & E & _ & _ & H).
  exists h. split; [exact E|]. apply (H 1 2 1 1); lia.
Defined.

(** The fourth allocation fails. *)
Lemma Allocate4D_double_unchecked_witness :
  Allocate4D_double true true true false 2 3 2 2 empty = None.
Proof.
  apply (Allocate4D_double_unchecked empty 2 3 2 2 ltac:(lia) ltac:(lia)
           ltac:(lia) ltac:(lia) true true true false).
  reflexivity.
Defined.

(** [result[1][2][3]] of a 2 x 3 x 4 array is the cell 23 of the block of
    doubles, which is not initialised. *)
Lemma Allocate3D_double_layout_witness :
  exists h,
    Allocate3D_double true true true 2 3 4 empty = Some (Vptr 0 0, h) /\
    address3 (Vptr 0 0) 1 2 3 h = Some (Vptr 2 23, h) /\
    load (Vptr 2 23) h = Some (Vundef, h).
Proof.
  destruct (Allocate3D_double_layout empty 2 3 4 ltac:(lia) ltac:(lia)
              ltac:(lia)) as (h & E & _ & _ & H).
  exists h. split; [exact E|]. apply (H 1 2 3); lia.
Defined.

Lemma Free3D_double_round_trip_witness :
  exists h,
    (p <- Allocate3D_double true true true 2 3 4 ;; Free3D_double p) empty
    = Some (tt, h) /\
    forall b, blocks h b = None.
Proof.
  destruct (Free3D_double_round_trip empty 2 3 4 ltac:(lia) ltac:(lia)
              ltac:(lia)) as (h & E & Hin & Hout).
  exists h. split; [exact E|]. intros b.
  destruct (le_lt_dec 3 b) as [Hb|Hb].
  - rewrite Hout by (cbn; lia). reflexivity.
  - apply Hin. cbn. lia.
Defined.

(** The second allocation fails: the first block is freed again. *)
Lemma Allocate3D_double_gives_up_witness :
  exists h,
    Allocate3D_double true false true 2 3 4 empty = Some (Vnull, h) /\
    forall b, blocks h b = None.
Proof.
  destruct (Allocate3D_double_gives_up true false true 2 3 4 empty eq_refl)
    as (h & E & Hin & Hout).
  exists h. split; [exact E|]. intros b.
  destruct (le_lt_dec (next h) b) as [Hb|Hb].
  - rewrite Hout by (cbn; lia). reflexivity.
  - apply Hin. cbn. lia.
Defined.

(** A dimension that is not positive. *)
Lemma Free3D_double_of_null_witness :
  (p <- Allocate3D_double true true true 0 3 4 ;; Free3D_double p) empty
  = None.
Proof.
  apply (Free3D_double_of_null true true true 0 3 4 empty). reflexivity.
Defined.

End Allocation.
